(** * DosNa MPI engine: a shallow embedding of [dosna/engines/mpi.py]

    The engine turns single-process storage primitives into collective
    operations of a fixed group of [P] processes.  Every process runs the same
    method with its own rank; the only ways processes interact are the backend
    store they share, [Barrier] and [bcast].  *)

From Stdlib Require Import Arith Lia.
From stdpp Require Import gmap strings list fin_maps.


(** ** Python's [range(start, stop, step)] on non-negative integers *)

(** Number of elements of [range(start, stop, step)], [step > 0]. *)
Definition range_len (start stop step : nat) : nat :=
  if start <? stop then (stop - start - 1) / step + 1 else 0.

(** [range] raises [ValueError] on a zero step: [None]. *)
Definition py_range (start stop step : nat) : option (list nat) :=
  if step =? 0 then None
  else Some (map (fun k => start + k * step) (seq 0 (range_len start stop step))).

(** ** numpy arrays and basic slicing

    An array is its shape and its elements by coordinate; elements outside the
    shape are never read.  Element values are modelled as integers. *)

Record ndarray := NdArray { shape : list nat; item : list nat → Z }.

Abbreviation np_shape := shape (only parsing).

(** [slice(start, stop)], step 1. *)
Definition pyslice : Type := nat * nat.

(** numpy clips both ends of a slice to the axis length. *)
Definition slice_start (d : nat) (s : pyslice) : nat := s.1 `min` d.
Definition slice_len (d : nat) (s : pyslice) : nat := (s.2 `min` d) - (s.1 `min` d).

(** Shape of [a[sl]]: axes without a slice are taken whole. *)
Fixpoint sliced_shape (sh : list nat) (sl : list pyslice) : list nat :=
  match sh, sl with
  | d :: sh', s :: sl' => slice_len d s :: sliced_shape sh' sl'
  | _, _ => sh
  end.

(** Coordinate in [a] of the element at coordinate [c] of [a[sl]]. *)
Fixpoint sliced_coord (sh : list nat) (sl : list pyslice) (c : list nat) : list nat :=
  match sh, sl, c with
  | d :: sh', s :: sl', x :: c' => (slice_start d s + x) :: sliced_coord sh' sl' c'
  | _, _, _ => c
  end.

(** Coordinate in [a[sl]] of the element at coordinate [c] of [a], when [c]
    lies in the selected region. *)
Fixpoint region_coord (sh : list nat) (sl : list pyslice) (c : list nat)
  : option (list nat) :=
  match sh, sl, c with
  | d :: sh', s :: sl', x :: c' =>
      if (slice_start d s <=? x) && (x <? slice_start d s + slice_len d s)
      then cons (x - slice_start d s) <$> region_coord sh' sl' c'
      else None
  | _, _, _ => Some c
  end.

(** [a[sl]] for a tuple of slices; more slices than axes is an [IndexError]. *)
Definition getitem (a : ndarray) (sl : list pyslice) : option ndarray :=
  if length (shape a) <? length sl then None
  else Some {| shape := sliced_shape (shape a) sl;
               item := λ c, item a (sliced_coord (shape a) sl c) |}.

(** [a[sl] = v]; [sl = None] stands for the whole array.  Only a value of
    exactly the selected shape is written; any other value is reported as a
    failed write (numpy would broadcast it or raise [ValueError]). *)
Definition setitem (a : ndarray) (sl : option (list pyslice)) (v : ndarray)
  : option ndarray :=
  match sl with
  | None => if decide (shape v = shape a) then Some v else None
  | Some sl =>
      if length (shape a) <? length sl then None
      else if decide (shape v = sliced_shape (shape a) sl) then
        Some {| shape := shape a;
                item := λ c, match region_coord (shape a) sl c with
                             | Some c' => item v c'
                             | None => item a c
                             end |}
      else None
  end.

(** [numpy.full(sh, x)]. *)
Definition full (sh : list nat) (x : Z) : ndarray :=
  {| shape := sh; item := λ _, x |}.

(** Coordinates inside a shape. *)
Fixpoint in_shape (sh : list nat) (c : list nat) : bool :=
  match sh, c with
  | [], [] => true
  | d :: sh', x :: c' => (x <? d) && in_shape sh' c'
  | _, _ => false
  end.

(** All coordinates of a shape, in row-major order. *)
Fixpoint coords (sh : list nat) : list (list nat) :=
  match sh with
  | [] => [[]]
  | d :: sh' => x ← seq 0 d; cons x <$> coords sh'
  end.

(** Two arrays are the same array: same shape, same elements. *)
Definition array_eq (a b : ndarray) : Prop :=
  shape a = shape b ∧ ∀ c, in_shape (shape a) c = true → item a c = item b c.

Definition array_eqb (a b : ndarray) : bool :=
  bool_decide (shape a = shape b) &&
  forallb (λ c, (item a c =? item b c)%Z) (coords (shape a)).

(** ** Python values, exceptions, keyword arguments *)

Inductive pyval :=
| PNone
| PInt (n : Z)
| PStr (s : string)
| PTuple (t : list nat)
| PArr (a : ndarray).

Inductive pyexc :=
| ValueError
| TypeError
| AttributeError
| IndexError
| Exception (msg : string)
| BackendError (msg : string).

(** [**kwargs]: a dict from keyword to value. *)
Abbreviation kwargs := (gmap string pyval).

(** ** Backend handles

    The objects the storage backend hands out ([dosna.backends]); the engine
    only stores them and reads their static attributes. *)

(** A backend module: its [name] is all the engine reads from it besides its
    [Cluster] class.

    Modelled from the spec: [bk_requires_reconnect] is the capability flag
    [requiresReconnectAfterStructuralChange] of section 9, which a backend
    would declare; the backend modules are outside the core. *)
Record Backend := { bk_name : string; bk_requires_reconnect : bool }.

(** [backend.Cluster(name, **kwargs)]. *)
Record bCluster := { bc_backend : Backend; bc_name : pyval; bc_kwargs : kwargs }.

Record bPool := { bp_name : string }.

(** A backend dataset with its static attributes; [_pool] is the pool that
    owns it. *)
Record bDataset := {
  bd_pool : bPool;
  bd_name : string;
  bd_shape : list nat;
  bd_dtype : string;
  bd_chunk_size : list nat;
  bd_fillvalue : Z;
  bd_total_chunks : nat }.

Record bChunk := { bch_dataset : bDataset; bch_idx : pyval }.

(** ** Calls that leave the engine

    One constructor per method the engine invokes on a wrapped instance (or on
    the [logging] module), indexed by the type of what comes back.  Chunk data
    access ([set_chunk_data], [get_chunk_data], [del_chunk]) is inherited from
    [CpuDataset] and counted as storage calls. *)

Inductive callE : Type → Type :=
| NewCluster (b : Backend) (name : pyval) (kw : kwargs) : callE bCluster
| ClusterConnect (c : bCluster) : callE unit
| ClusterDisconnect (c : bCluster) : callE unit
| ClusterCreatePool (c : bCluster) (args : list pyval) (kw : kwargs) : callE unit
| ClusterGetPool (c : bCluster) (args : list pyval) (kw : kwargs) : callE bPool
| ClusterDelPool (c : bCluster) (args : list pyval) (kw : kwargs) : callE unit
| PoolCreateDataset (p : bPool) (args : list pyval) (kw : kwargs) : callE bDataset
| PoolGetDataset (p : bPool) (args : list pyval) (kw : kwargs) : callE bDataset
| PoolDelDataset (p : bPool) (args : list pyval) (kw : kwargs) : callE unit
| DsCreateChunk (d : bDataset) (args : list pyval) (kw : kwargs) : callE unit
| DsGetChunk (d : bDataset) (args : list pyval) (kw : kwargs) : callE bChunk
| DsDelChunk (d : bDataset) (idx : list nat) : callE unit
| DsSetChunkData (d : bDataset) (idx : list nat) (values : ndarray)
    (slices : option (list pyslice)) : callE unit
| DsGetChunkData (d : bDataset) (idx : list nat) : callE ndarray
| LogWarning (msg : string) : callE unit.

(** ** Programs of one process

    A method body is a tree of the effects it performs: calls on wrapped
    instances, the two collectives of the communicator, and raised
    exceptions. *)

Inductive Prog (A : Type) : Type :=
| Ret (a : A)
| Raise (e : pyexc)
| Call {X : Type} (c : callE X) (k : X → Prog A)
| Barrier (k : Prog A)
| Bcast (obj : option bDataset) (k : bDataset → Prog A).

Arguments Ret {A} a.
Arguments Raise {A} e.
Arguments Call {A X} c k.
Arguments Barrier {A} k.
Arguments Bcast {A} obj k.

Fixpoint bind {A B : Type} (p : Prog A) (f : A → Prog B) : Prog B :=
  match p with
  | Ret a => f a
  | Raise e => Raise e
  | Call c k => Call c (λ x, bind (k x) f)
  | Barrier k => Barrier (bind k f)
  | Bcast o k => Bcast o (λ x, bind (k x) f)
  end.

#[global] Instance Prog_ret : MRet Prog := @Ret.
#[global] Instance Prog_bind : MBind Prog := λ A B f p, bind p f.

(** A call whose answer is returned as it is. *)
Definition call {X : Type} (c : callE X) : Prog X := Call c Ret.

(** [comm.bcast(obj, root=0)]. *)
Definition bcast (obj : option bDataset) : Prog bDataset := Bcast obj Ret.

(** [for x in l: body(x)]. *)
Fixpoint for_each {X : Type} (l : list X) (body : X → Prog unit) : Prog unit :=
  match l with
  | [] => Ret tt
  | x :: l' => body x;; for_each l' body
  end.

(** [for i in range(start, stop, step): body(i)]. *)
Definition for_range (start stop step : nat) (body : nat → Prog unit) : Prog unit :=
  match py_range start stop step with
  | None => Raise ValueError
  | Some l => for_each l body
  end.

(** ** The communicator and [MpiMixin] *)

(** One process's view of the communicator. *)
Record Comm := { Get_rank : nat; Get_size : nat }.

Record MpiMixin := {
  mpi_comm : Comm;
  mpi_size : nat;
  mpi_rank : nat;
  mpi_is_root : bool }.

Definition MpiMixin_init (mpi_comm : Comm) : MpiMixin :=
  {| mpi_comm := mpi_comm;
     mpi_size := Get_size mpi_comm;
     mpi_rank := Get_rank mpi_comm;
     mpi_is_root := Get_rank mpi_comm =? 0 |}.

Definition mpi_barrier (self : MpiMixin) : Prog unit := Barrier (Ret tt).

(** ** What the engine takes from the rest of the package *)

(** Modelled from the spec: [get_backend] (backend selection, [dosna.backends])
    and the engine's default communicator [__engine__.params['comm']] are not
    part of the coordination core; they are taken as given. *)
Class Env := {
  get_backend : pyval → pyexc + Backend;
  engine_comm : Comm }.

(** Modelled from the spec: the bounds collaborator of section 6
    ([indexFromFlat], [globalSlices], [localSlices]), inherited by the dataset
    from classes outside the core. *)
Class Bounds := {
  idx_from_flat : bDataset → nat → list nat;
  global_chunk_bounds : bDataset → list nat → list pyslice;
  local_chunk_bounds : bDataset → list nat → list pyslice }.

(** ** The engine classes of [mpi.py]

    Methods take [self] and return a program; a method that assigns to an
    attribute of [self] also returns the updated object. *)

Module MpiDataChunk.
(** [class MpiDataChunk(Wrapper): pass] *)
Record t := { instance : bChunk }.
End MpiDataChunk.

Module MpiDataset.
Record t := { instance : bDataset; mpi : MpiMixin }.

Definition init (ds : bDataset) (mpi_comm : Comm) : t :=
  {| instance := ds; mpi := MpiMixin_init mpi_comm |}.

(** Attributes read through the wrapper. *)
Definition shape (self : t) : list nat := bd_shape (instance self).
Definition dtype (self : t) : string := bd_dtype (instance self).
Definition chunk_size (self : t) : list nat := bd_chunk_size (instance self).
Definition fillvalue (self : t) : Z := bd_fillvalue (instance self).
Definition total_chunks (self : t) : nat := bd_total_chunks (instance self).
Definition name (self : t) : string := bd_name (instance self).

(** Modelled from the spec: chunk data access is inherited from [CpuDataset],
    outside the core; each accessor is taken as one storage call (section 6:
    delete a chunk, write a region of a chunk, read a chunk). *)
Definition del_chunk (self : t) (idx : list nat) : Prog unit :=
  call (DsDelChunk (instance self) idx).
Definition set_chunk_data (self : t) (idx : list nat) (values : ndarray)
    (slices : option (list pyslice)) : Prog unit :=
  call (DsSetChunkData (instance self) idx values slices).
Definition get_chunk_data (self : t) (idx : list nat) : Prog ndarray :=
  call (DsGetChunkData (instance self) idx).

Definition get_chunk (self : t) (args : list pyval) (kwargs : kwargs)
  : Prog MpiDataChunk.t :=
  chunk ← call (DsGetChunk (instance self) args kwargs);
  Ret {| MpiDataChunk.instance := chunk |}.

Definition create_chunk (self : t) (idx : pyval) (args : list pyval)
    (kwargs : kwargs) : Prog MpiDataChunk.t :=
  (if mpi_is_root (mpi self)
   then call (DsCreateChunk (instance self) (idx :: args) kwargs)
   else Ret tt);;
  mpi_barrier (mpi self);;
  get_chunk self [idx] ∅.

Definition delete (self : t) : Prog unit :=
  mpi_barrier (mpi self);;
  (if mpi_is_root (mpi self)
   then call (PoolDelDataset (bd_pool (instance self)) [PStr (name self)] ∅)
   else Ret tt);;
  mpi_barrier (mpi self).

Definition clone (self : t) (output_name : pyval) : Prog t :=
  out ← (if mpi_is_root (mpi self)
         then out ← call (PoolCreateDataset (bd_pool (instance self))
                            [output_name]
                            (<["shape" := PTuple (shape self)]>
                             (<["dtype" := PStr (dtype self)]>
                              (<["chunks" := PTuple (chunk_size self)]>
                               (<["fillvalue" := PInt (fillvalue self)]> ∅)))));
              Ret (Some out)
         else Ret None);
  out ← bcast out;
  Ret (init out (mpi_comm (mpi self))).

Section bulk.
Context `{Bounds}.

Definition clear (self : t) : Prog unit :=
  for_range (mpi_rank (mpi self)) (total_chunks self) (mpi_size (mpi self))
    (λ idx,
       let idx := idx_from_flat (instance self) idx in
       del_chunk self idx);;
  mpi_barrier (mpi self).

(** [data] is any Python object; only an array has a [shape]. *)
Definition load (self : t) (data : pyval) : Prog unit :=
  match data with
  | PArr data =>
      if bool_decide (np_shape data ≠ shape self)
      then Raise (Exception "Data shape does not match")
      else
        for_range (mpi_rank (mpi self)) (total_chunks self) (mpi_size (mpi self))
          (λ idx,
             let idx := idx_from_flat (instance self) idx in
             let gslices := global_chunk_bounds (instance self) idx in
             let lslices := local_chunk_bounds (instance self) idx in
             match getitem data gslices with
             | None => Raise IndexError
             | Some sub => set_chunk_data self idx sub (Some lslices)
             end);;
        mpi_barrier (mpi self)
  | _ => Raise AttributeError
  end.

Definition map (self : t) (func : ndarray → ndarray) (output_name : pyval)
  : Prog t :=
  out ← clone self output_name;
  for_range (mpi_rank (mpi self)) (total_chunks self) (mpi_size (mpi self))
    (λ idx,
       let idx := idx_from_flat (instance self) idx in
       data ← get_chunk_data self idx;
       let data := func data in
       set_chunk_data out idx data None);;
  mpi_barrier (mpi self);;
  Ret out.

Definition apply (self : t) (func : ndarray → ndarray) : Prog unit :=
  for_range (mpi_rank (mpi self)) (total_chunks self) (mpi_size (mpi self))
    (λ idx,
       let idx := idx_from_flat (instance self) idx in
       data ← get_chunk_data self idx;
       let data := func data in
       set_chunk_data self idx data None);;
  mpi_barrier (mpi self).
End bulk.
End MpiDataset.

Module MpiPool.
Record t := { instance : bPool; mpi : MpiMixin }.

Definition init (pool : bPool) (mpi_comm : Comm) : t :=
  {| instance := pool; mpi := MpiMixin_init mpi_comm |}.

Definition get_dataset (self : t) (args : list pyval) (kwargs : kwargs)
  : Prog MpiDataset.t :=
  ds ← call (PoolGetDataset (instance self) args kwargs);
  Ret (MpiDataset.init ds (mpi_comm (mpi self))).

Definition create_dataset `{Bounds} (self : t) (name : pyval)
    (args : list pyval) (kwargs : kwargs) : Prog MpiDataset.t :=
  (if mpi_is_root (mpi self)
   then ds ← call (PoolCreateDataset (instance self) (name :: args) kwargs); Ret tt
   else Ret tt);;
  mpi_barrier (mpi self);;
  ds ← get_dataset self [name] ∅;
  match kwargs !! "data" with
  | Some data => MpiDataset.load ds data
  | None => Ret tt
  end;;
  Ret ds.

Definition del_dataset (self : t) (args : list pyval) (kwargs : kwargs)
  : Prog unit :=
  mpi_barrier (mpi self);;
  (if mpi_is_root (mpi self)
   then call (PoolDelDataset (instance self) args kwargs)
   else Ret tt);;
  mpi_barrier (mpi self).

(** [__getitem__] *)
Definition getitem (self : t) (ds_name : pyval) : Prog MpiDataset.t :=
  get_dataset self [ds_name] ∅.
End MpiPool.

Module MpiCluster.
Record t := {
  instance : bCluster;
  cparams : Backend * pyval * kwargs;
  ceph_backend : bool;
  mpi : MpiMixin }.

Definition set_instance (self : t) (instance : bCluster) : t :=
  {| instance := instance; cparams := cparams self;
     ceph_backend := ceph_backend self; mpi := mpi self |}.

(** [__init__(self, name, comm=None, **kwargs)] *)
Definition init `{Env} (name : pyval) (comm : option Comm) (kwargs : kwargs)
  : Prog t :=
  let bname := default PNone (kwargs !! "backend") in
  let kwargs := delete "backend" kwargs in
  match get_backend bname with
  | inl e => Raise e
  | inr backend =>
      let bcomm := default engine_comm comm in
      cluster ← call (NewCluster backend name kwargs);
      (if String.eqb (bk_name backend) "memory"
       then call (LogWarning "MPI engine will work unexpectedly with RAM backend")
       else Ret tt);;
      Ret {| instance := cluster;
             cparams := (backend, name, kwargs);
             ceph_backend := String.eqb (bk_name backend) "ceph";
             mpi := MpiMixin_init bcomm |}
  end.

Definition get_pool (self : t) (args : list pyval) (kwargs : kwargs)
  : Prog MpiPool.t :=
  pool ← call (ClusterGetPool (instance self) args kwargs);
  Ret (MpiPool.init pool (mpi_comm (mpi self))).

(** In the reconnect branch the assignment
    [backend, name, kwargs = self.cparams] rebinds the local [kwargs], so the
    final [get_pool] receives the cluster's options there. *)
Definition create_pool (self : t) (args : list pyval) (kwargs : kwargs)
  : Prog (MpiPool.t * t) :=
  (if mpi_is_root (mpi self)
   then call (ClusterCreatePool (instance self) args kwargs)
   else Ret tt);;
  mpi_barrier (mpi self);;
  '(self, kwargs) ←
    (if ceph_backend self then
       call (ClusterDisconnect (instance self));;
       let '(backend, name, kwargs) := cparams self in
       cluster ← call (NewCluster backend name kwargs);
       let self := set_instance self cluster in
       call (ClusterConnect (instance self));;
       mpi_barrier (mpi self);;
       Ret (self, kwargs)
     else Ret (self, kwargs));
  pool ← get_pool self args kwargs;
  Ret (pool, self).

Definition del_pool (self : t) (args : list pyval) (kwargs : kwargs) : Prog t :=
  mpi_barrier (mpi self);;
  (if mpi_is_root (mpi self)
   then call (ClusterDelPool (instance self) args kwargs)
   else Ret tt);;
  mpi_barrier (mpi self);;
  (if ceph_backend self then
     call (ClusterDisconnect (instance self));;
     let '(backend, name, kwargs) := cparams self in
     cluster ← call (NewCluster backend name kwargs);
     let self := set_instance self cluster in
     call (ClusterConnect (instance self));;
     mpi_barrier (mpi self);;
     Ret self
   else Ret self).

(** [__getitem__] *)
Definition getitem (self : t) (pool_name : pyval) : Prog MpiPool.t :=
  get_pool self [pool_name] ∅.
End MpiCluster.

(** ** What one process does: traces

    The observable behaviour of one process is the sequence of calls it makes
    (with their answers) and of collectives it enters.  The answers come from
    an arbitrary environment that never raises. *)

Inductive event :=
| EvCall {X : Type} (c : callE X) (x : X)
| EvBarrier
| EvBcast (sent : option bDataset) (received : bDataset).

Record oracle (S : Type) := {
  on_call : ∀ X, callE X → S → X * S;
  on_bcast : S → bDataset * S }.
Arguments on_call {S} _ {X} _ _.
Arguments on_bcast {S} _ _.

(** The root of a broadcast receives the object it sent (it always sends
    one); the others receive what the environment delivers. *)
Fixpoint run_proc {S A : Type} (h : oracle S) (rank : nat) (p : Prog A) (s : S)
  : list event * (pyexc + A) * S :=
  match p with
  | Ret a => ([], inr a, s)
  | Raise e => ([], inl e, s)
  | Call c k =>
      let '(x, s) := on_call h c s in
      let '(tr, r, s) := run_proc h rank (k x) s in
      (EvCall c x :: tr, r, s)
  | Barrier k =>
      let '(tr, r, s) := run_proc h rank k s in
      (EvBarrier :: tr, r, s)
  | Bcast obj k =>
      if rank =? 0 then
        match obj with
        | Some v =>
            let '(tr, r, s) := run_proc h rank (k v) s in
            (EvBcast obj v :: tr, r, s)
        | None => ([], inl TypeError, s)
        end
      else
        let '(v, s) := on_bcast h s in
        let '(tr, r, s) := run_proc h rank (k v) s in
        (EvBcast obj v :: tr, r, s)
  end.

Definition trace_of {S A : Type} (h : oracle S) (rank : nat) (p : Prog A) (s : S)
  : list event := (run_proc h rank p s).1.1.
Definition outcome_of {S A : Type} (h : oracle S) (rank : nat) (p : Prog A) (s : S)
  : pyexc + A := (run_proc h rank p s).1.2.

(** Calls that change the pool / dataset / chunk hierarchy. *)
Definition is_mutation (e : event) : bool :=
  match e with
  | EvCall (ClusterCreatePool _ _ _) _
  | EvCall (ClusterDelPool _ _ _) _
  | EvCall (PoolCreateDataset _ _ _) _
  | EvCall (PoolDelDataset _ _ _) _
  | EvCall (DsCreateChunk _ _ _) _ => true
  | _ => false
  end.

Definition is_barrier (e : event) : bool :=
  match e with EvBarrier => true | _ => false end.

Definition is_collective (e : event) : bool :=
  match e with EvBarrier | EvBcast _ _ => true | _ => false end.

Definition is_chunk_write (e : event) : bool :=
  match e with EvCall (DsSetChunkData _ _ _ _) _ => true | _ => false end.

(** Every mutation in the trace has a barrier somewhere before it. *)
Fixpoint fenced_before (seen_barrier : bool) (tr : list event) : bool :=
  match tr with
  | [] => true
  | e :: tr' =>
      (if is_mutation e then seen_barrier else true)
      && fenced_before (seen_barrier || is_barrier e) tr'
  end.

(** Every mutation in the trace has a barrier somewhere after it. *)
Fixpoint fenced_after (tr : list event) : bool :=
  match tr with
  | [] => true
  | e :: tr' =>
      (if is_mutation e then existsb is_barrier tr' else true) && fenced_after tr'
  end.

(** Every mutation in the trace is directly followed by an event in [q]. *)
Fixpoint mutation_then (q : event → bool) (tr : list event) : bool :=
  match tr with
  | [] => true
  | e :: tr' =>
      (if is_mutation e
       then match tr' with e' :: _ => q e' | [] => false end
       else true)
      && mutation_then q tr'
  end.

(** Every mutation in the trace directly follows a barrier. *)
Fixpoint barrier_then_mutation (after_barrier : bool) (tr : list event) : bool :=
  match tr with
  | [] => true
  | e :: tr' =>
      (if is_mutation e then after_barrier else true)
      && barrier_then_mutation (is_barrier e) tr'
  end.

(** The process dropped its cluster connection. *)
Definition reconnects (tr : list event) : bool :=
  existsb (λ e, match e with
                | EvCall (ClusterDisconnect _) _ => true
                | _ => false
                end) tr.

(** Number of mutating calls in a trace. *)
Definition mutations (tr : list event) : nat := length (filter is_mutation tr).

(** ** A storage backend

    Modelled from the spec: the single-process capability interface of
    section 6 (clusters of pools of datasets of chunks, with create / get /
    delete, and region-wise chunk reads and writes), as one store that all
    processes share.  The backends themselves ([dosna.backends]) are outside
    the core.  A chunk that was never written reads as the fill value; an
    existence conflict or a missing object raises. *)

Record DsState := { dss_handle : bDataset; dss_chunks : gmap (list nat) ndarray }.

Abbreviation Store := (gmap string (gmap string DsState)).

Definition ceil_div (a b : nat) : nat := (a + b - 1) / b.

Definition chunk_grid (shape chunk_size : list nat) : list nat :=
  zip_with ceil_div shape chunk_size.

Definition grid_total (grid : list nat) : nat := foldr Nat.mul 1 grid.

(** The dataset stored under a pool name and a dataset name. *)
Definition ds_at (st : Store) (p n : string) : option DsState :=
  pool ← st !! p; pool !! n.

Definition lookup_ds (st : Store) (d : bDataset) : option DsState :=
  ds_at st (bp_name (bd_pool d)) (bd_name d).

Definition update_ds (st : Store) (d : bDataset) (dss : DsState) : Store :=
  match st !! bp_name (bd_pool d) with
  | Some pool => <[bp_name (bd_pool d) := <[bd_name d := dss]> pool]> st
  | None => st
  end.

(** Contents of a chunk: what was written, over the fill value. *)
Definition chunk_contents (dss : DsState) (idx : list nat) : ndarray :=
  default (full (bd_chunk_size (dss_handle dss)) (bd_fillvalue (dss_handle dss)))
          (dss_chunks dss !! idx).

Definition write_chunk (dss : DsState) (idx : list nat) (a : ndarray) : DsState :=
  {| dss_handle := dss_handle dss; dss_chunks := <[idx := a]> (dss_chunks dss) |}.

(** [createDataset(name, shape, dtype, chunkSize, fillValue)]: the attributes
    come by keyword; shape, element type, chunk size and fill value default
    from the initial data, the whole shape and zero. *)
Definition new_dataset (p : bPool) (n : string) (kw : kwargs) : pyexc + bDataset :=
  match match kw !! "shape", kw !! "data" with
        | Some (PTuple sh), _ => Some sh
        | None, Some (PArr a) => Some (shape a)
        | _, _ => None
        end with
  | None => inl TypeError
  | Some sh =>
      let cs := match kw !! "chunks" with Some (PTuple cs) => cs | _ => sh end in
      let dt := match kw !! "dtype" with Some (PStr dt) => dt | _ => "float64" end in
      let fv := match kw !! "fillvalue" with Some (PInt fv) => fv | _ => 0%Z end in
      if bool_decide (length cs = length sh) && forallb (λ c, 0 <? c) cs
      then inr {| bd_pool := p; bd_name := n; bd_shape := sh; bd_dtype := dt;
                  bd_chunk_size := cs; bd_fillvalue := fv;
                  bd_total_chunks := grid_total (chunk_grid sh cs) |}
      else inl ValueError
  end.

Definition exec {X : Type} (c : callE X) (st : Store) : (pyexc + X) * Store :=
  match c in callE X return (pyexc + X) * Store with
  | NewCluster b name kw =>
      (inr {| bc_backend := b; bc_name := name; bc_kwargs := kw |}, st)
  | ClusterConnect _ => (inr tt, st)
  | ClusterDisconnect _ => (inr tt, st)
  | ClusterCreatePool _ args kw =>
      match args with
      | [PStr n] =>
          match st !! n with
          | Some _ => (inl (BackendError "pool exists"), st)
          | None => (inr tt, <[n := ∅]> st)
          end
      | _ => (inl TypeError, st)
      end
  | ClusterGetPool _ args kw =>
      match args with
      | [PStr n] =>
          if bool_decide (kw = ∅) then
            match st !! n with
            | Some _ => (inr {| bp_name := n |}, st)
            | None => (inl (BackendError "pool not found"), st)
            end
          else (inl TypeError, st)
      | _ => (inl TypeError, st)
      end
  | ClusterDelPool _ args kw =>
      match args with
      | [PStr n] =>
          match st !! n with
          | Some _ => (inr tt, delete n st)
          | None => (inl (BackendError "pool not found"), st)
          end
      | _ => (inl TypeError, st)
      end
  | PoolCreateDataset p args kw =>
      match args, st !! bp_name p with
      | [PStr n], Some pool =>
          match pool !! n with
          | Some _ => (inl (BackendError "dataset exists"), st)
          | None =>
              match new_dataset p n kw with
              | inl e => (inl e, st)
              | inr d =>
                  (inr d, <[bp_name p :=
                             <[n := {| dss_handle := d; dss_chunks := ∅ |}]> pool]> st)
              end
          end
      | [PStr n], None => (inl (BackendError "pool not found"), st)
      | _, _ => (inl TypeError, st)
      end
  | PoolGetDataset p args kw =>
      match args, st !! bp_name p with
      | [PStr n], Some pool =>
          match pool !! n with
          | Some dss => (inr (dss_handle dss), st)
          | None => (inl (BackendError "dataset not found"), st)
          end
      | [PStr n], None => (inl (BackendError "pool not found"), st)
      | _, _ => (inl TypeError, st)
      end
  | PoolDelDataset p args kw =>
      match args, st !! bp_name p with
      | [PStr n], Some pool =>
          match pool !! n with
          | Some _ => (inr tt, <[bp_name p := delete n pool]> st)
          | None => (inl (BackendError "dataset not found"), st)
          end
      | [PStr n], None => (inl (BackendError "pool not found"), st)
      | _, _ => (inl TypeError, st)
      end
  | DsCreateChunk d args kw =>
      match args, lookup_ds st d with
      | PTuple idx :: _, Some dss =>
          (inr tt, update_ds st d (write_chunk dss idx (chunk_contents dss idx)))
      | _ :: _, Some _ => (inl TypeError, st)
      | _, _ => (inl (BackendError "dataset not found"), st)
      end
  | DsGetChunk d args kw =>
      match args, lookup_ds st d with
      | idx :: _, Some _ => (inr {| bch_dataset := d; bch_idx := idx |}, st)
      | [], Some _ => (inl TypeError, st)
      | _, None => (inl (BackendError "dataset not found"), st)
      end
  | DsDelChunk d idx =>
      match lookup_ds st d with
      | Some dss =>
          (inr tt, update_ds st d {| dss_handle := dss_handle dss;
                                     dss_chunks := delete idx (dss_chunks dss) |})
      | None => (inl (BackendError "dataset not found"), st)
      end
  | DsSetChunkData d idx values slices =>
      match lookup_ds st d with
      | Some dss =>
          match setitem (chunk_contents dss idx) slices values with
          | Some a => (inr tt, update_ds st d (write_chunk dss idx a))
          | None => (inl ValueError, st)
          end
      | None => (inl (BackendError "dataset not found"), st)
      end
  | DsGetChunkData d idx =>
      match lookup_ds st d with
      | Some dss => (inr (chunk_contents dss idx), st)
      | None => (inl (BackendError "dataset not found"), st)
      end
  | LogWarning _ => (inr tt, st)
  end.

(** ** The group: [P] processes over one store

    A group state is the remaining program of every rank and the shared
    store.  A schedule names, step by step, the rank that moves next: a rank
    at a call performs it on the store; a rank at a collective moves only
    when every rank has reached the same collective, and then all of them
    pass it together, a broadcast delivering the root's object. *)

Definition gstate (A : Type) : Type := list (Prog A) * Store.

Definition at_barrier {A} (p : Prog A) : bool :=
  match p with Barrier _ => true | _ => false end.

Definition at_bcast {A} (p : Prog A) : bool :=
  match p with Bcast _ _ => true | _ => false end.

Definition pass_barrier {A} (p : Prog A) : Prog A :=
  match p with Barrier k => k | _ => p end.

Definition pass_bcast {A} (v : bDataset) (p : Prog A) : Prog A :=
  match p with Bcast _ k => k v | _ => p end.

Definition gstep {A} (r : nat) (g : gstate A) : gstate A :=
  match g.1 !! r with
  | Some (Call c k) =>
      match exec c g.2 with
      | (inr x, st) => (<[r := k x]> g.1, st)
      | (inl e, st) => (<[r := Raise e]> g.1, st)
      end
  | Some (Barrier _) =>
      if forallb at_barrier g.1 then (pass_barrier <$> g.1, g.2) else g
  | Some (Bcast _ _) =>
      if forallb at_bcast g.1 then
        match g.1 !! 0 with
        | Some (Bcast (Some v) _) => (pass_bcast v <$> g.1, g.2)
        | _ => g
        end
      else g
  | _ => g
  end.

Definition grun {A} (sched : list nat) (g : gstate A) : gstate A :=
  foldl (λ g r, gstep r g) g sched.

(** The same method started on every rank of a group of [P]. *)
Definition spmd {A} (P : nat) (prog : Comm → Prog A) : list (Prog A) :=
  (λ r, prog {| Get_rank := r; Get_size := P |}) <$> seq 0 P.

(** A rank that has returned or raised. *)
Definition stopped {A} (p : Prog A) : bool :=
  match p with Ret _ | Raise _ => true | _ => false end.

(** Every rank has returned, with these results. *)
Definition returned {A} (g : gstate A) (results : list A) : Prop :=
  g.1 = Ret <$> results.

(** ** A bulk phase, seen from outside

    The shape every whole-dataset operation takes once its loops start: rank
    [r] has [M r] calls to make, [prog_of r m] is what it still has to run
    after [m] of them, and after the last one it waits at the trailing barrier
    and returns [v r].  [Sinv] relates the progress of all ranks to the store.
    Either every rank is somewhere in its loop or at the barrier, or all have
    returned. *)

Definition phase_inv {A} (P : nat) (M : nat → nat) (prog_of : nat → nat → Prog A)
    (v : nat → A) (Sinv : list nat → Store → Prop) (g : gstate A) : Prop :=
  (∃ ms, length ms = P ∧ (∀ r m, ms !! r = Some m → m ≤ M r)
         ∧ g.1 = imap prog_of ms ∧ Sinv ms g.2)
  ∨ (g.1 = (λ r, Ret (v r)) <$> seq 0 P ∧ Sinv (M <$> seq 0 P) g.2).

(** Stored chunks have the dataset's chunk size. *)
Definition chunks_wf (dss : DsState) : Prop :=
  map_Forall (λ _ a, shape a = bd_chunk_size (dss_handle dss)) (dss_chunks dss).

(** ** Reassembling a dataset from its chunks

    [out[gslices] = chunk[lslices]] for every chunk, in flat order, over an
    array of the dataset's shape. *)

Section reassemble.
Context `{Bounds}.

Definition reassemble (dss : DsState) : option ndarray :=
  let d := dss_handle dss in
  foldl (λ out k,
           out ← out;
           let idx := idx_from_flat d k in
           sub ← getitem (chunk_contents dss idx) (local_chunk_bounds d idx);
           setitem out (Some (global_chunk_bounds d idx)) sub)
        (Some (full (bd_shape d) (bd_fillvalue d)))
        (seq 0 (bd_total_chunks d)).

(** What the engine relies on from the bounds collaborator, for one
    dataset.  The slices of a chunk have at most one entry per axis, and
    select regions of the same extent in the dataset and in the chunk. *)
Definition bounds_fit (d : bDataset) : bool :=
  forallb (λ k,
             let idx := idx_from_flat d k in
             let g := global_chunk_bounds d idx in
             let l := local_chunk_bounds d idx in
             (length g <=? length (bd_shape d))
             && (length l <=? length (bd_chunk_size d))
             && bool_decide (sliced_shape (bd_shape d) g
                             = sliced_shape (bd_chunk_size d) l))
          (seq 0 (bd_total_chunks d)).

(** Every coordinate of the dataset lies in the region of some chunk. *)
Definition bounds_cover (d : bDataset) : bool :=
  forallb (λ c,
             existsb (λ k,
                        bool_decide (is_Some
                          (region_coord (bd_shape d)
                             (global_chunk_bounds d (idx_from_flat d k)) c)))
                     (seq 0 (bd_total_chunks d)))
          (coords (bd_shape d)).

(** Distinct flat ordinals name distinct chunks. *)
Definition flat_injective (d : bDataset) : bool :=
  bool_decide (NoDup (idx_from_flat d <$> seq 0 (bd_total_chunks d))).
End reassemble.

(** ** Ranks inside the loop of a bulk operation

    What a rank has left to run after some iterations of its loop, written
    with the backend dataset in place of [self.instance]. *)

(** The ordinals rank [r] has left after [n] iterations. *)
Definition todo (r T P n : nat) : list nat :=
  (λ j, r + j * P) <$> seq n (range_len r T P - n).

Section loops.
Context `{Bounds}.

(** One iteration of the loop of [load]. *)
Definition load_body (d : bDataset) (data : ndarray) (k : nat) : Prog unit :=
  let idx := idx_from_flat d k in
  match getitem data (global_chunk_bounds d idx) with
  | None => Raise IndexError
  | Some sub => call (DsSetChunkData d idx sub (Some (local_chunk_bounds d idx)))
  end.

Definition load_prog (d : bDataset) (data : ndarray) (l : list nat) : Prog unit :=
  bind (for_each l (load_body d data)) (λ _, Barrier (Ret tt)).

(** The chunk of ordinal [k] holds, in its local region, the elements of
    [data] in its global region. *)
Definition loaded (d : bDataset) (data : ndarray) (dss : DsState) (k : nat) : Prop :=
  let idx := idx_from_flat d k in
  ∀ c, in_shape (sliced_shape (bd_chunk_size d) (local_chunk_bounds d idx)) c = true →
       item (chunk_contents dss idx)
            (sliced_coord (bd_chunk_size d) (local_chunk_bounds d idx) c)
       = item data (sliced_coord (bd_shape d) (global_chunk_bounds d idx) c).

(** Progress of [load]: the ordinals every rank has been through are
    loaded. *)
Definition load_rel (P : nat) (d : bDataset) (data : ndarray)
    (ms : list nat) (st : Store) : Prop :=
  ∃ dss, lookup_ds st d = Some dss ∧ dss_handle dss = d ∧ chunks_wf dss
         ∧ ∀ r m j, ms !! r = Some m → j < m → loaded d data dss (r + j * P).

(** One iteration of the loop of [map] (into another dataset) and of
    [apply] (into the same one). *)
Definition transform_body (src dst : bDataset) (func : ndarray → ndarray)
    (k : nat) : Prog unit :=
  let idx := idx_from_flat src k in
  data ← call (DsGetChunkData src idx);
  let data := func data in
  call (DsSetChunkData dst idx data None).

Definition transform_prog {A} (src dst : bDataset) (func : ndarray → ndarray)
    (v : A) (l : list nat) : Prog A :=
  bind (for_each l (transform_body src dst func)) (λ _, Barrier (Ret v)).

(** Inside an iteration: the chunk [x] of ordinal [k] has been read, its
    image is still to be written. *)
Definition transform_mid {A} (src dst : bDataset) (func : ndarray → ndarray)
    (v : A) (x : ndarray) (k : nat) (l : list nat) : Prog A :=
  bind (bind (call (DsSetChunkData dst (idx_from_flat src k) (func x) None))
             (λ _, for_each l (transform_body src dst func)))
       (λ _, Barrier (Ret v)).

(** What rank [r] has left after [m] calls, two per iteration; [orig] is
    what the source chunks held when the loops started. *)
Definition transform_at {A} (P : nat) (src dst : bDataset)
    (func : ndarray → ndarray) (orig : list nat → ndarray) (v : nat → A)
    (r m : nat) : Prog A :=
  let T := bd_total_chunks src in
  if Nat.even m then transform_prog src dst func (v r) (todo r T P (m / 2))
  else transform_mid src dst func (v r)
         (orig (idx_from_flat src (r + m / 2 * P))) (r + m / 2 * P)
         (todo r T P (m / 2 + 1)).

(** Ordinal [k] has been written by its owner. *)
Definition written (P : nat) (ms : list nat) (k : nat) : bool :=
  match ms !! (k mod P) with
  | Some m => 2 * (k / P) + 2 <=? m
  | None => false
  end.

(** Progress of [map] and [apply]: nothing outside the destination dataset
    has changed since the loops started; a written ordinal's destination
    chunk is the image of what its source chunk held, and an unwritten
    ordinal's source chunk still holds it. *)
Definition transform_rel (P : nat) (src dst : bDataset)
    (func : ndarray → ndarray) (st0 : Store) (orig : list nat → ndarray)
    (ms : list nat) (st : Store) : Prop :=
  (∀ p n, (p, n) ≠ (bp_name (bd_pool dst), bd_name dst) →
          ds_at st p n = ds_at st0 p n)
  ∧ ∃ dss_s dss_d,
      lookup_ds st src = Some dss_s ∧ lookup_ds st dst = Some dss_d
      ∧ dss_handle dss_d = dst ∧ chunks_wf dss_d
      ∧ ∀ k, k < bd_total_chunks src →
             if written P ms k
             then chunk_contents dss_d (idx_from_flat src k)
                  = func (orig (idx_from_flat src k))
             else chunk_contents dss_s (idx_from_flat src k)
                  = orig (idx_from_flat src k).
End loops.

(** ** Ranks around the broadcast of [clone] *)

(** The keywords [clone] passes to the pool's [create_dataset]. *)
Definition clone_kwargs (d : bDataset) : kwargs :=
  <["shape" := PTuple (bd_shape d)]>
  (<["dtype" := PStr (bd_dtype d)]>
   (<["chunks" := PTuple (bd_chunk_size d)]>
    (<["fillvalue" := PInt (bd_fillvalue d)]> ∅))).

(** The dataset [d] under another name. *)
Definition renamed (d : bDataset) (n : string) : bDataset :=
  {| bd_pool := bd_pool d; bd_name := n; bd_shape := bd_shape d;
     bd_dtype := bd_dtype d; bd_chunk_size := bd_chunk_size d;
     bd_fillvalue := bd_fillvalue d; bd_total_chunks := bd_total_chunks d |}.

(** The attributes of a dataset the backend made: one positive chunk extent
    per axis, and the chunk count of its grid. *)
Definition handle_ok (d : bDataset) : bool :=
  bool_decide (length (bd_chunk_size d) = length (bd_shape d))
  && forallb (λ c, 0 <? c) (bd_chunk_size d)
  && (bd_total_chunks d =? grid_total (chunk_grid (bd_shape d) (bd_chunk_size d))).

(** The store once the pool of [d] holds a fresh, empty copy named [n]. *)
Definition clone_store (st : Store) (d : bDataset) (n : string) : Store :=
  match st !! bp_name (bd_pool d) with
  | Some pool =>
      <[bp_name (bd_pool d) :=
          <[n := {| dss_handle := renamed d n; dss_chunks := ∅ |}]> pool]> st
  | None => st
  end.

(** A rank that clones and then carries on with [cont]: the root creates and
    broadcasts, the others wait for the broadcast. *)
Definition clone_then {A} (d : bDataset) (output_name : pyval)
    (cont : bDataset → Prog A) (r : nat) : Prog A :=
  if r =? 0 then
    Call (PoolCreateDataset (bd_pool d) [output_name] (clone_kwargs d))
         (λ out, Bcast (Some out) cont)
  else Bcast None cont.

(** The three stages of a group that clones: nobody has moved; the root has
    created [out] and everybody is at the broadcast; everybody is past it. *)
Definition clone_inv {A} (P : nat) (d : bDataset) (output_name : pyval)
    (out : bDataset) (st st1 : Store) (cont : nat → bDataset → Prog A)
    (After : gstate A → Prop) (g : gstate A) : Prop :=
  g = ((λ r, clone_then d output_name (cont r) r) <$> seq 0 P, st)
  ∨ g = ((λ r, Bcast (if r =? 0 then Some out else None) (cont r)) <$> seq 0 P, st1)
  ∨ After g.

(** ** A bounds collaborator to run the engine on

    Modelled from the spec: a chunk grid in row-major flat order, every chunk
    a rectangle of [chunk_size] cut off at the dataset's shape.  The spec
    leaves the arithmetic to the collaborator; this is one that meets the
    interface. *)

Fixpoint unravel (grid : list nat) (k : nat) : list nat :=
  match grid with
  | [] => []
  | g :: rest =>
      let stride := grid_total rest in
      (k / stride) mod g :: unravel rest (k mod stride)
  end.

Fixpoint grid_global (sh cs idx : list nat) : list pyslice :=
  match sh, cs, idx with
  | d :: sh', s :: cs', i :: idx' =>
      (i * s, ((i + 1) * s) `min` d) :: grid_global sh' cs' idx'
  | _, _, _ => []
  end.

Fixpoint grid_local (sh cs idx : list nat) : list pyslice :=
  match sh, cs, idx with
  | d :: sh', s :: cs', i :: idx' =>
      (0, ((i + 1) * s) `min` d - i * s) :: grid_local sh' cs' idx'
  | _, _, _ => []
  end.

Definition grid_bounds : Bounds := {|
  idx_from_flat d k := unravel (chunk_grid (bd_shape d) (bd_chunk_size d)) k;
  global_chunk_bounds d idx := grid_global (bd_shape d) (bd_chunk_size d) idx;
  local_chunk_bounds d idx := grid_local (bd_shape d) (bd_chunk_size d) idx |}.

(** ** Concrete objects used to exercise the statements *)

Definition ex_pool : bPool := {| bp_name := "pool" |}.

(** Shape (4,4) in chunks of (2,2): four chunks. *)
Definition ex_ds : bDataset := {|
  bd_pool := ex_pool; bd_name := "ds"; bd_shape := [4; 4]; bd_dtype := "int64";
  bd_chunk_size := [2; 2]; bd_fillvalue := 0%Z; bd_total_chunks := 4 |}.

(** Shape (5,3) in chunks of (2,2): six chunks, those on the far edges cut. *)
Definition ex_ds_ragged : bDataset := {|
  bd_pool := ex_pool; bd_name := "ragged"; bd_shape := [5; 3]; bd_dtype := "int64";
  bd_chunk_size := [2; 2]; bd_fillvalue := (-1)%Z; bd_total_chunks := 6 |}.

Definition ex_store : Store :=
  {[ "pool" := {[ "ds" := {| dss_handle := ex_ds; dss_chunks := ∅ |};
                  "ragged" := {| dss_handle := ex_ds_ragged; dss_chunks := ∅ |} ]} ]}.

(** Sequential integers in row-major order. *)
Definition arange2 (rows cols : nat) : ndarray :=
  {| shape := [rows; cols];
     item := λ c, match c with
                  | [i; j] => Z.of_nat (i * cols + j)
                  | _ => 0%Z
                  end |}.

(** [x → x + 1], elementwise. *)
Definition incr (a : ndarray) : ndarray :=
  {| shape := shape a; item := λ c, (item a c + 1)%Z |}.

Definition ex_dss : DsState := {| dss_handle := ex_ds; dss_chunks := ∅ |}.

Definition ex_dss_ragged : DsState :=
  {| dss_handle := ex_ds_ragged; dss_chunks := ∅ |}.

(** Ranks take turns, one step each, [n] rounds. *)
Definition round_robin (P n : nat) : list nat :=
  _ ← seq 0 n; seq 0 P.

(** Scenario B: two ranks load the integers 0..15 into the (4,4) dataset and
    then apply [x → x + 1], taking turns. *)
Definition scenario_b_store : Store :=
  let loaded :=
    grun (round_robin 2 4)
      (spmd 2 (λ comm, MpiDataset.load (H := grid_bounds)
                         (MpiDataset.init ex_ds comm) (PArr (arange2 4 4))),
       ex_store) in
  (grun (round_robin 2 6)
     (spmd 2 (λ comm, MpiDataset.apply (H := grid_bounds)
                        (MpiDataset.init ex_ds comm) incr),
      loaded.2)).2.

(** An environment that answers every call with the object asked for, built
    from the call's own arguments. *)
Definition echo_name (args : list pyval) : string :=
  match args with PStr n :: _ => n | _ => "" end.

Definition echo_dataset (p : bPool) (args : list pyval) (kw : kwargs) : bDataset :=
  match new_dataset p (echo_name args) kw with
  | inr d => d
  | inl _ => {| bd_pool := p; bd_name := echo_name args; bd_shape := [];
                bd_dtype := ""; bd_chunk_size := []; bd_fillvalue := 0%Z;
                bd_total_chunks := 1 |}
  end.

Definition echo {X : Type} (c : callE X) : X :=
  match c in callE X return X with
  | NewCluster b name kw => {| bc_backend := b; bc_name := name; bc_kwargs := kw |}
  | ClusterConnect _ | ClusterDisconnect _ => tt
  | ClusterCreatePool _ _ _ | ClusterDelPool _ _ _ => tt
  | ClusterGetPool _ args _ => {| bp_name := echo_name args |}
  | PoolCreateDataset p args kw => echo_dataset p args kw
  | PoolGetDataset p args kw => echo_dataset p args kw
  | PoolDelDataset _ _ _ => tt
  | DsCreateChunk _ _ _ => tt
  | DsGetChunk d args _ => {| bch_dataset := d; bch_idx := default PNone (head args) |}
  | DsDelChunk _ _ => tt
  | DsSetChunkData _ _ _ _ => tt
  | DsGetChunkData d _ => full (bd_chunk_size d) (bd_fillvalue d)
  | LogWarning _ => tt
  end.

Definition echo_oracle : oracle unit := {|
  on_call X c s := (echo c, s);
  on_bcast s := (ex_ds, s) |}.

(** Backend selection by name, [hdf5] by default; here [hdf5] declares that
    it needs reconnection after structural changes and the others declare
    that they do not. *)
Definition ex_env : Env := {|
  get_backend bname :=
    match bname with
    | PStr n => inr {| bk_name := n; bk_requires_reconnect := String.eqb n "hdf5" |}
    | _ => inr {| bk_name := "hdf5"; bk_requires_reconnect := true |}
    end;
  engine_comm := {| Get_rank := 0; Get_size := 1 |} |}.

(** A process's first steps: connect to the cluster, then create a pool. *)
Definition open_and_create_pool `{Env} (cfg : pyval) (kw : kwargs) (pool : pyval)
  : Prog (MpiPool.t * MpiCluster.t) :=
  self ← MpiCluster.init cfg None kw;
  MpiCluster.create_pool self [pool] ∅.

(** ** Further notions used to state what the remaining methods do *)

(** The first thing the process does is a mutating call. *)
Definition starts_with_mutation (tr : list event) : bool :=
  match tr with
  | e :: _ => is_mutation e
  | [] => false
  end.

(** The chunk that a call deleting or writing a chunk addresses. *)
Definition chunk_of (e : event) : option (list nat) :=
  match e with
  | EvCall (DsDelChunk _ idx) _ => Some idx
  | EvCall (DsSetChunkData _ idx _ _) _ => Some idx
  | _ => None
  end.

(** The chunks a process deletes or writes, in the order it does. *)
Definition chunks_changed (tr : list event) : list (list nat) := omap chunk_of tr.

(** The shards of all ranks of a group, rank after rank. *)
Definition all_shards (T P : nat) : list nat :=
  r ← seq 0 P; default [] (py_range r T P).

(** A client's successive calls on one cluster object. *)
Inductive cluster_op :=
| OpCreatePool (args : list pyval) (kw : kwargs)
| OpDelPool (args : list pyval) (kw : kwargs).

(** The calls made one after the other, each on the object the previous one
    left. *)
Fixpoint run_ops (self : MpiCluster.t) (ops : list cluster_op) : Prog MpiCluster.t :=
  match ops with
  | [] => Ret self
  | OpCreatePool args kw :: ops' =>
      '(_, self) ← MpiCluster.create_pool self args kw; run_ops self ops'
  | OpDelPool args kw :: ops' =>
      self ← MpiCluster.del_pool self args kw; run_ops self ops'
  end.

Definition is_disconnect (e : event) : bool :=
  match e with EvCall (ClusterDisconnect _) _ => true | _ => false end.

(** Number of times the process dropped its cluster connection. *)
Definition disconnects (tr : list event) : nat := length (filter is_disconnect tr).

(** The chunk writes [load] makes for the ordinals [l], up to the first
    ordinal whose global slices do not index the data; the flag tells whether
    all went through. *)
Fixpoint load_events `{Bounds} (d : bDataset) (data : ndarray) (l : list nat)
  : list event * bool :=
  match l with
  | [] => ([], true)
  | k :: l' =>
      let idx := idx_from_flat d k in
      match getitem data (global_chunk_bounds d idx) with
      | None => ([], false)
      | Some sub =>
          (EvCall (DsSetChunkData d idx sub (Some (local_chunk_bounds d idx))) tt
             :: (load_events d data l').1,
           (load_events d data l').2)
      end
  end.

(** ** Groups around a root-only call

    The shapes the lifecycle methods take on rank [r]: a call that only the
    root makes, with barriers around it. *)

(** Barrier, the root's call, barrier, return (the delete methods). *)
Definition fenced {A X} (c : callE X) (v : A) (r : nat) : Prog A :=
  Barrier (if r =? 0 then Call c (λ _, Barrier (Ret v)) else Barrier (Ret v)).

(** The stages of a group whose ranks all run [fenced c]: nobody has moved;
    all are past the first barrier; the root's call has succeeded and all
    wait at the second barrier; all have returned; or the root's call has
    raised and the others wait at the second barrier. *)
Definition fenced_inv {A X} (P : nat) (c : callE X) (v : nat → A) (st : Store)
    (g : gstate A) : Prop :=
  g = ((λ r, fenced c (v r) r) <$> seq 0 P, st)
  ∨ g = ((λ r, if r =? 0 then Call c (λ _, Barrier (Ret (v r)))
               else Barrier (Ret (v r))) <$> seq 0 P, st)
  ∨ ((∃ x, (exec c st).1 = inr x)
     ∧ g = ((λ r, Barrier (Ret (v r))) <$> seq 0 P, (exec c st).2))
  ∨ ((∃ x, (exec c st).1 = inr x)
     ∧ g = ((λ r, Ret (v r)) <$> seq 0 P, (exec c st).2))
  ∨ (∃ e, (exec c st).1 = inl e
          ∧ g = ((λ r, if r =? 0 then Raise e else Barrier (Ret (v r)))
                   <$> seq 0 P, (exec c st).2)).

(** The root's call, a barrier, then [cont] (the create methods). *)
Definition root_first {A X} (c : callE X) (cont : Prog A) (r : nat) : Prog A :=
  if r =? 0 then Call c (λ _, Barrier cont) else Barrier cont.

(** The stages of a group whose ranks all run [root_first c]: nobody has
    moved; the root's call has succeeded and all wait at the barrier; all are
    past the barrier; or the root's call has raised and the others wait at
    the barrier. *)
Definition root_first_inv {A X} (P : nat) (c : callE X) (cont : nat → Prog A)
    (st : Store) (After : gstate A → Prop) (g : gstate A) : Prop :=
  g = ((λ r, root_first c (cont r) r) <$> seq 0 P, st)
  ∨ ((∃ x, (exec c st).1 = inr x)
     ∧ g = ((λ r, Barrier (cont r)) <$> seq 0 P, (exec c st).2))
  ∨ After g
  ∨ (∃ e, (exec c st).1 = inl e
          ∧ g = ((λ r, if r =? 0 then Raise e else Barrier (cont r))
                   <$> seq 0 P, (exec c st).2)).

(** Every rank makes one call that leaves the store alone and returns what
    it answers: a rank has either still to make it or has returned. *)
Definition fetch_inv {A X} (P : nat) (c : callE X) (w : nat → X → A) (x : X)
    (st : Store) (g : gstate A) : Prop :=
  g.2 = st
  ∧ ∃ bs : list bool,
      length bs = P
      ∧ g.1 = imap (λ r (b : bool), if b then Ret (w r x)
                                    else Call c (λ y, Ret (w r y))) bs.

(** No rank but the root has stopped. *)
Definition others_blocked {A} (g : gstate A) : Prop :=
  ∀ r p, 0 < r → g.1 !! r = Some p → stopped p = false.

(** The cluster object of rank [r] in a group whose ranks were all built
    with the same backend handle and parameters. *)
Definition cluster_of (inst : bCluster) (cparams : Backend * pyval * kwargs)
    (ceph : bool) (comm : Comm) : MpiCluster.t :=
  {| MpiCluster.instance := inst; MpiCluster.cparams := cparams;
     MpiCluster.ceph_backend := ceph; MpiCluster.mpi := MpiMixin_init comm |}.

(** What rank [r] of a group that creates the dataset [d] from initial data
    has left to run after [m] calls, once past the barrier: the fetch of the
    new dataset first, then the loop of [load]. *)
Definition create_load_at `{Bounds} (P : nat) (p : bPool) (n : string)
    (d : bDataset) (data : ndarray) (r m : nat) : Prog MpiDataset.t :=
  let comm := {| Get_rank := r; Get_size := P |} in
  match m with
  | 0 => Call (PoolGetDataset p [PStr n] ∅)
           (λ ds, bind (MpiDataset.load (MpiDataset.init ds comm) (PArr data))
                       (λ _, Ret (MpiDataset.init ds comm)))
  | S m' => bind (load_prog d data (todo r (bd_total_chunks d) P m'))
                 (λ _, Ret (MpiDataset.init d comm))
  end.

(** Progress of such a group: the calls after the fetch are those of
    [load]. *)
Definition create_load_rel `{Bounds} (P : nat) (d : bDataset) (data : ndarray)
    (ms : list nat) (st : Store) : Prop :=
  load_rel P d data (pred <$> ms) st.

(** What a rank inside the loop of [clear] has left to run, for the ordinals
    [l] it has still to go through. *)
Definition clear_prog `{Bounds} (d : bDataset) (l : list nat) : Prog unit :=
  bind (for_each l (λ k, call (DsDelChunk d (idx_from_flat d k))))
       (λ _, Barrier (Ret tt)).

(** Progress of [clear]: no other dataset has changed since the loops
    started; the dataset is still there under its handle, the chunks of the
    ordinals that the ranks have been through are gone, and every other
    chunk is as it was or is one of the dataset's grid that is gone. *)
Definition clear_rel `{Bounds} (P : nat) (d : bDataset) (st0 : Store)
    (dss0 : DsState) (ms : list nat) (st : Store) : Prop :=
  (∀ p n, (p, n) ≠ (bp_name (bd_pool d), bd_name d) → ds_at st p n = ds_at st0 p n)
  ∧ ∃ dss,
      lookup_ds st d = Some dss ∧ dss_handle dss = dss_handle dss0
      ∧ (∀ r m j, ms !! r = Some m → j < m →
                  dss_chunks dss !! idx_from_flat d (r + j * P) = None)
      ∧ ∀ idx, dss_chunks dss !! idx = dss_chunks dss0 !! idx
               ∨ (dss_chunks dss !! idx = None
                  ∧ ∃ k, k < bd_total_chunks d ∧ idx = idx_from_flat d k).

(** ** One method after another *)

(** A rank that is at a call or at a collective. *)
Definition active {A} (p : Prog A) : bool := negb (stopped p).

(** Every rank carries on with [f r] once its program has returned. *)
Definition then_all {A B} (f : nat → A → Prog B) (ps : list (Prog A))
  : list (Prog B) :=
  imap (λ r p, bind p (f r)) ps.

(** Progress of a group that creates the dataset [d] from initial data, with
    every other dataset as it was in [st0]. *)
Definition create_load_rel_in `{Bounds} (P : nat) (d : bDataset) (data : ndarray)
    (st0 : Store) (ms : list nat) (st : Store) : Prop :=
  create_load_rel P d data ms st
  ∧ ∀ q m, (q, m) ≠ (bp_name (bd_pool d), bd_name d) → ds_at st q m = ds_at st0 q m.

(** A client that creates a dataset under a name and then deletes it again
    by that name, both through the pool. *)
Definition create_then_del_dataset `{Bounds} (pool : MpiPool.t) (n : string)
    (kw : kwargs) : Prog unit :=
  MpiPool.create_dataset pool (PStr n) [] kw;;
  MpiPool.del_dataset pool [PStr n] ∅.

(** What a rank that renews its connection has left to run after [m] of the
    three calls: it drops the connection, builds a cluster handle from the
    stored parameters and connects it; then it waits at the barrier and
    returns [ret] of the renewed object. *)
Definition reconnect_at {A} (self : MpiCluster.t) (ret : MpiCluster.t → A) (m : nat)
  : Prog A :=
  let '(backend, name, kwargs) := MpiCluster.cparams self in
  let fresh := {| bc_backend := backend; bc_name := name; bc_kwargs := kwargs |} in
  match m with
  | 0 =>
      Call (ClusterDisconnect (MpiCluster.instance self))
        (λ _, Call (NewCluster backend name kwargs)
                (λ cluster, Call (ClusterConnect cluster)
                              (λ _, Barrier
                                      (Ret (ret (MpiCluster.set_instance self cluster))))))
  | 1 =>
      Call (NewCluster backend name kwargs)
        (λ cluster, Call (ClusterConnect cluster)
                      (λ _, Barrier (Ret (ret (MpiCluster.set_instance self cluster)))))
  | 2 =>
      Call (ClusterConnect fresh)
        (λ _, Barrier (Ret (ret (MpiCluster.set_instance self fresh))))
  | _ => Barrier (Ret (ret (MpiCluster.set_instance self fresh)))
  end.
(** ** Facts on [py_range] *)

Lemma range_len_spec start stop step k :
  0 < step → k < range_len start stop step ↔ start + k * step < stop.
Proof.
  intros Hs. unfold range_len. destruct (Nat.ltb_spec start stop) as [Hlt|Hge].
  - split; intros H.
    + assert (k ≤ (stop - start - 1) / step) as Hk by lia.
      pose proof (Nat.Div0.mul_div_le (stop - start - 1) step).
      assert (k * step ≤ step * ((stop - start - 1) / step)) by nia. lia.
    + assert (k * step ≤ stop - start - 1) as Hk by lia.
      assert (k ≤ (stop - start - 1) / step); [|lia].
      apply Nat.div_le_lower_bound; lia.
  - split; [lia|]. nia.
Qed.

Lemma py_range_Some start stop step l :
  py_range start stop step = Some l → 0 < step.
Proof. unfold py_range. destruct (Nat.eqb_spec step 0); [done|lia]. Qed.

Lemma py_range_is_Some start stop step :
  0 < step → ∃ l, py_range start stop step = Some l.
Proof. intros H. unfold py_range. destruct (Nat.eqb_spec step 0); [lia|eauto]. Qed.

Lemma py_range_elem start stop step l i :
  py_range start stop step = Some l →
  i ∈ l ↔ ∃ k, i = start + k * step ∧ i < stop.
Proof.
  intros Hr. pose proof (py_range_Some _ _ _ _ Hr) as Hs.
  unfold py_range in Hr. destruct (Nat.eqb_spec step 0); [lia|].
  injection Hr as <-. rewrite list_elem_of_fmap. split.
  - intros (k & -> & Hk). exists k. split; [done|].
    apply elem_of_seq in Hk. apply range_len_spec; lia.
  - intros (k & -> & Hk). exists k. split; [done|].
    apply elem_of_seq. apply range_len_spec in Hk; lia.
Qed.

Lemma py_range_NoDup start stop step l :
  py_range start stop step = Some l → NoDup l.
Proof.
  intros Hr. pose proof (py_range_Some _ _ _ _ Hr) as Hs.
  unfold py_range in Hr. destruct (Nat.eqb_spec step 0); [lia|].
  injection Hr as <-. apply NoDup_fmap_2; [|apply NoDup_seq].
  intros a b Hab. nia.
Qed.

Lemma py_range_mod r T P l i :
  r < P → py_range r T P = Some l → i ∈ l ↔ i < T ∧ i mod P = r.
Proof.
  intros Hr Hl. rewrite (py_range_elem _ _ _ _ _ Hl). split.
  - intros (k & -> & Hk). split; [done|].
    rewrite Nat.Div0.mod_add. by apply Nat.mod_small.
  - intros [Hi <-]. exists (i / P). split; [|done].
    pose proof (Nat.div_mod_eq i P). lia.
Qed.

(** Every ordinal below [T] sits in the shard of its residue. *)
Lemma shard_owner T P i :
  0 < P → i < T → ∃ l, py_range (i mod P) T P = Some l ∧ i ∈ l.
Proof.
  intros HP Hi. destruct (py_range_is_Some (i mod P) T P HP) as [l Hl].
  exists l. split; [done|].
  assert (i mod P < P) as Hlt by (apply Nat.mod_upper_bound; lia).
  by apply (py_range_mod (i mod P) T P l i Hlt Hl).
Qed.

(** ** Traces of single methods *)

Ltac unfold_prog :=
  unfold mbind, Prog_bind, mret, Prog_ret, call, bcast, mpi_barrier in *.

(** Destructs the environment's answers met while a run is evaluated. *)
Ltac run_calls :=
  repeat (simpl;
          match goal with
          | |- context [on_call ?h ?c ?s] => destruct (on_call h c s)
          | |- context [on_bcast ?h ?s] => destruct (on_bcast h s)
          end);
  simpl.

Lemma run_proc_bind {S A B} (h : oracle S) rank (p : Prog A) (f : A → Prog B) s :
  run_proc h rank (bind p f) s =
  let '(tr, r, s1) := run_proc h rank p s in
  match r with
  | inl e => (tr, inl e, s1)
  | inr a =>
      let '(tr2, r2, s2) := run_proc h rank (f a) s1 in (tr ++ tr2, r2, s2)
  end.
Proof.
  revert s. induction p as [a|e|X c k IH|k IH|obj k IH]; intros s; simpl.
  - by destruct (run_proc h rank (f a) s) as [[??]?].
  - done.
  - destruct (on_call h c s) as [x s1]. rewrite IH.
    destruct (run_proc h rank (k x) s1) as [[tr [e|a]] s2]; [done|].
    by destruct (run_proc h rank (f a) s2) as [[??]?].
  - rewrite IH. destruct (run_proc h rank k s) as [[tr [e|a]] s2]; [done|].
    by destruct (run_proc h rank (f a) s2) as [[??]?].
  - destruct (rank =? 0).
    + destruct obj as [v|]; [|done]. rewrite IH.
      destruct (run_proc h rank (k v) s) as [[tr [e|a]] s2]; [done|].
      by destruct (run_proc h rank (f a) s2) as [[??]?].
    + destruct (on_bcast h s) as [v s1]. rewrite IH.
      destruct (run_proc h rank (k v) s1) as [[tr [e|a]] s2]; [done|].
      by destruct (run_proc h rank (f a) s2) as [[??]?].
Qed.

(** A group whose ranks have all stopped (returned or raised) stays as it
    is. *)
Lemma gstep_stopped {A} r (g : gstate A) :
  forallb stopped g.1 = true → gstep r g = g.
Proof.
  intros Hall. unfold gstep. destruct (g.1 !! r) as [p|] eqn:Hr; [|done].
  assert (stopped p = true) as Hp.
  { rewrite forallb_forall in Hall. apply Hall.
    apply list_elem_of_In, list_elem_of_lookup. eauto. }
  by destruct p.
Qed.

Lemma grun_stopped {A} sched (g : gstate A) :
  forallb stopped g.1 = true → grun sched g = g.
Proof.
  intros Hall. unfold grun. induction sched as [|r sched IH]; [done|].
  simpl. by rewrite gstep_stopped.
Qed.

Lemma spmd_const {A} P (prog : Comm → Prog A) (p : Prog A) :
  (∀ comm, prog comm = p) → spmd P prog = replicate P p.
Proof.
  intros Hp. unfold spmd.
  assert (∀ m n, (λ r, prog {| Get_rank := r; Get_size := P |}) <$> seq n m
                 = replicate m p) as Hall; [|apply Hall].
  induction m as [|m IH]; intros n; [done|].
  cbn [seq replicate]. by rewrite fmap_cons, IH, Hp.
Qed.

(** C9: [get_pool], [get_dataset] and [get_chunk] each make exactly one call,
    the backend's get, and return its answer wrapped with the process's own
    communicator; the trace has no barrier, no broadcast and no mutating
    call, the method assigns nothing to [self], and on the modelled backend
    the get leaves the store as it was. *)
Theorem gets_are_plain_fetches {S} (h : oracle S) (rank : nat) (s : S)
    (args : list pyval) (kw : kwargs) :
  (∀ self : MpiCluster.t,
     let c := ClusterGetPool (MpiCluster.instance self) args kw in
     run_proc h rank (MpiCluster.get_pool self args kw) s
     = ([EvCall c (on_call h c s).1],
        inr (MpiPool.init (on_call h c s).1 (mpi_comm (MpiCluster.mpi self))),
        (on_call h c s).2))
  ∧ (∀ self : MpiPool.t,
       let c := PoolGetDataset (MpiPool.instance self) args kw in
       run_proc h rank (MpiPool.get_dataset self args kw) s
       = ([EvCall c (on_call h c s).1],
          inr (MpiDataset.init (on_call h c s).1 (mpi_comm (MpiPool.mpi self))),
          (on_call h c s).2))
  ∧ (∀ self : MpiDataset.t,
       let c := DsGetChunk (MpiDataset.instance self) args kw in
       run_proc h rank (MpiDataset.get_chunk self args kw) s
       = ([EvCall c (on_call h c s).1],
          inr {| MpiDataChunk.instance := (on_call h c s).1 |},
          (on_call h c s).2))
  ∧ (∀ c x, let e := EvCall (ClusterGetPool c args kw) x in
             is_mutation e || is_collective e = false)
  ∧ (∀ p x, let e := EvCall (PoolGetDataset p args kw) x in
             is_mutation e || is_collective e = false)
  ∧ (∀ d x, let e := EvCall (DsGetChunk d args kw) x in
             is_mutation e || is_collective e = false)
  ∧ (∀ st c, (exec (ClusterGetPool c args kw) st).2 = st)
  ∧ (∀ st p, (exec (PoolGetDataset p args kw) st).2 = st)
  ∧ (∀ st d, (exec (DsGetChunk d args kw) st).2 = st).
Proof.
  repeat apply conj.
  - intros self c. subst c. simpl. by destruct (on_call h _ s).
  - intros self c. subst c. simpl. by destruct (on_call h _ s).
  - intros self c. subst c. simpl. by destruct (on_call h _ s).
  - intros c x e. subst e. reflexivity.
  - intros p x e. subst e. reflexivity.
  - intros d x e. subst e. reflexivity.
  - intros st c. simpl. repeat case_match; done.
  - intros st p. simpl. repeat case_match; done.
  - intros st d. simpl. repeat case_match; done.
Qed.

(** C4: [load] of an array whose shape differs from the dataset's raises
    [Exception('Data shape does not match')] before anything else happens:
    the process makes no call (so no chunk write) and enters no collective,
    and a group in which every rank calls it leaves the store untouched under
    every schedule. *)
Theorem load_rejects_shape_mismatch `{Bounds} (d : bDataset) (data : ndarray) :
  shape data ≠ bd_shape d →
  (∀ S (h : oracle S) rank s comm,
     run_proc h rank (MpiDataset.load (MpiDataset.init d comm) (PArr data)) s
     = ([], inl (Exception "Data shape does not match"), s))
  ∧ (∀ P st sched,
       grun sched
         (spmd P (λ comm, MpiDataset.load (MpiDataset.init d comm) (PArr data)), st)
       = (replicate P (Raise (Exception "Data shape does not match")), st)).
Proof.
  intros Hne.
  assert (∀ comm, MpiDataset.load (MpiDataset.init d comm) (PArr data)
                  = Raise (Exception "Data shape does not match")) as Hload.
  { intros comm. unfold MpiDataset.load, MpiDataset.shape. simpl.
    by rewrite bool_decide_eq_true_2. }
  split.
  - intros S h rank s comm. by rewrite Hload.
  - intros P st sched.
    assert (spmd P (λ comm, MpiDataset.load (MpiDataset.init d comm) (PArr data))
            = replicate P (Raise (Exception "Data shape does not match"))) as ->.
    { by apply spmd_const. }
    apply grun_stopped. simpl. induction P; simpl; auto.
Qed.

Lemma load_rejects_shape_mismatch_witness :
  run_proc echo_oracle 1
    (MpiDataset.load (H := grid_bounds)
       (MpiDataset.init ex_ds {| Get_rank := 1; Get_size := 3 |})
       (PArr (arange2 5 3))) tt
  = ([], inl (Exception "Data shape does not match"), tt).
Proof.
  apply (load_rejects_shape_mismatch (H := grid_bounds) ex_ds (arange2 5 3));
    simpl; congruence.
Defined.

(** The loop of [load] makes chunk writes only. *)
Lemma for_each_trace_no_mutation {S X} (h : oracle S) rank (l : list X)
    (body : X → Prog unit) :
  (∀ x s, forallb (λ e, negb (is_mutation e)) (trace_of h rank (body x) s) = true) →
  ∀ s, forallb (λ e, negb (is_mutation e))
               (trace_of h rank (for_each l body) s) = true.
Proof.
  intros Hbody. unfold trace_of in *.
  induction l as [|x l IH]; intros s; [done|].
  simpl. unfold_prog. rewrite run_proc_bind.
  specialize (Hbody x s).
  destruct (run_proc h rank (body x) s) as [[tr [e|[]]] s1]; [done|].
  specialize (IH s1).
  destruct (run_proc h rank (for_each l body) s1) as [[tr2 r2] s2]. simpl in *.
  rewrite forallb_app. by rewrite Hbody, IH.
Qed.

Lemma load_trace_no_mutation `{Bounds} {S} (h : oracle S) rank self data s :
  forallb (λ e, negb (is_mutation e))
          (trace_of h rank (MpiDataset.load self data) s) = true.
Proof.
  unfold MpiDataset.load. destruct data as [| | | |a]; try done.
  case_bool_decide; [done|].
  unfold_prog. unfold trace_of. rewrite run_proc_bind.
  unfold for_range. destruct (py_range _ _ _) as [l|]; [|done].
  pose proof (for_each_trace_no_mutation h rank l
    (λ idx, match getitem a (global_chunk_bounds (MpiDataset.instance self)
                               (idx_from_flat (MpiDataset.instance self) idx)) with
            | Some sub =>
                MpiDataset.set_chunk_data self
                  (idx_from_flat (MpiDataset.instance self) idx) sub
                  (Some (local_chunk_bounds (MpiDataset.instance self)
                           (idx_from_flat (MpiDataset.instance self) idx)))
            | None => Raise IndexError
            end)) as Hloop.
  unfold trace_of in Hloop. simpl in Hloop.
  specialize (Hloop (λ x s, ltac:(
    destruct (getitem a _); simpl; [by destruct (on_call h _ s)|done])) s).
  destruct (run_proc h rank (for_each l _) s) as [[tr [e|[]]] s1]; [done|].
  simpl in *. rewrite forallb_app. by rewrite Hloop.
Qed.

Lemma no_mutation_facts tr :
  forallb (λ e, negb (is_mutation e)) tr = true →
  mutations tr = 0 ∧ (∀ q, mutation_then q tr = true)
  ∧ (∀ b, barrier_then_mutation b tr = true).
Proof.
  unfold mutations. induction tr as [|e tr IH]; simpl; [done|].
  intros [He Htr]%andb_prop. destruct (IH Htr) as (IH1 & IH2 & IH3).
  apply negb_true_iff in He. rewrite filter_cons, He.
  rewrite decide_False by (by intros ?). split; [done|].
  split; intros; simpl; auto.
Qed.

Lemma no_mutation_fences tr :
  forallb (λ e, negb (is_mutation e)) tr = true →
  (∀ b, fenced_before b tr = true) ∧ fenced_after tr = true.
Proof.
  induction tr as [|e tr IH]; simpl; [done|].
  intros [He Htr]%andb_prop. destruct (IH Htr) as [IH1 IH2].
  apply negb_true_iff in He. rewrite He. split; [intros b|]; simpl; auto.
Qed.

(** The run of [create_dataset], call by call. *)
Lemma create_dataset_run `{Bounds} {S} (h : oracle S)
    (rank : nat) (s : S) (self : MpiPool.t) (name : pyval) (args : list pyval)
    (kw : kwargs) :
  let create := PoolCreateDataset (MpiPool.instance self) (name :: args) kw in
  let fetch := PoolGetDataset (MpiPool.instance self) [name] ∅ in
  let root := mpi_is_root (MpiPool.mpi self) in
  let tr0 := if root then [EvCall create (on_call h create s).1] else [] in
  let s0 := if root then (on_call h create s).2 else s in
  let ds := MpiDataset.init (on_call h fetch s0).1 (mpi_comm (MpiPool.mpi self)) in
  let s1 := (on_call h fetch s0).2 in
  let prefix := tr0 ++ [EvBarrier; EvCall fetch (on_call h fetch s0).1] in
  run_proc h rank (MpiPool.create_dataset self name args kw) s
  = match kw !! "data" with
    | Some data =>
        let '(tr, r, s2) := run_proc h rank (MpiDataset.load ds data) s1 in
        (prefix ++ tr, match r with inl e => inl e | inr _ => inr ds end, s2)
    | None => (prefix, inr ds, s1)
    end.
Proof.
  intros create fetch root tr0 s0 ds s1 prefix.
  subst create fetch root tr0 s0 ds s1 prefix.
  unfold MpiPool.create_dataset, MpiPool.get_dataset. unfold_prog.
  destruct (mpi_is_root (MpiPool.mpi self)); simpl.
  - destruct (on_call h (PoolCreateDataset _ _ _) s) as [d s0]. simpl.
    destruct (on_call h (PoolGetDataset _ _ _) s0) as [d' s1]. simpl.
    rewrite run_proc_bind. destruct (kw !! "data") as [data|]; [|done].
    destruct (run_proc h rank (MpiDataset.load _ data) s1) as [[tr [e|[]]] s2];
      simpl; [done|]. by rewrite app_nil_r.
  - destruct (on_call h (PoolGetDataset _ _ _) s) as [d' s1]. simpl.
    rewrite run_proc_bind. destruct (kw !! "data") as [data|]; [|done].
    destruct (run_proc h rank (MpiDataset.load _ data) s1) as [[tr [e|[]]] s2];
      simpl; [done|]. by rewrite app_nil_r.
Qed.

(** C10: [create_dataset] hands the root's backend create the name, the
    positional arguments and the keyword arguments exactly as received, and
    after the barrier and the fetch it runs [load] on the fetched dataset if
    and only if the keyword arguments have the key ['data']; without that key
    it returns right after the fetch, whatever the positional arguments
    hold, and its trace has no chunk write. *)
Theorem create_dataset_loads_iff_data_keyword `{Bounds} {S} (h : oracle S)
    (rank : nat) (s : S) (self : MpiPool.t) (name : pyval) (args : list pyval)
    (kw : kwargs) :
  let create := PoolCreateDataset (MpiPool.instance self) (name :: args) kw in
  let fetch := PoolGetDataset (MpiPool.instance self) [name] ∅ in
  let root := mpi_is_root (MpiPool.mpi self) in
  let tr0 := if root then [EvCall create (on_call h create s).1] else [] in
  let s0 := if root then (on_call h create s).2 else s in
  let ds := MpiDataset.init (on_call h fetch s0).1 (mpi_comm (MpiPool.mpi self)) in
  let s1 := (on_call h fetch s0).2 in
  let prefix := tr0 ++ [EvBarrier; EvCall fetch (on_call h fetch s0).1] in
  run_proc h rank (MpiPool.create_dataset self name args kw) s
  = match kw !! "data" with
    | Some data =>
        let '(tr, r, s2) := run_proc h rank (MpiDataset.load ds data) s1 in
        (prefix ++ tr, match r with inl e => inl e | inr _ => inr ds end, s2)
    | None => (prefix, inr ds, s1)
    end
  ∧ match kw !! "data" with
    | Some _ => True
    | None =>
        existsb is_chunk_write
          (trace_of h rank (MpiPool.create_dataset self name args kw) s) = false
    end.
Proof.
  intros create fetch root tr0 s0 ds s1 prefix.
  split; [apply create_dataset_run|].
  unfold trace_of. rewrite create_dataset_run.
  destruct (kw !! "data"); [done|].
  cbn [fst]. by destruct (mpi_is_root (MpiPool.mpi self)).
Qed.

(** Positional data on the echoing environment: one create, one barrier, one
    fetch, no chunk write. *)
Example create_dataset_positional_data :
  trace_of echo_oracle 0
    (MpiPool.create_dataset (H := grid_bounds)
       (MpiPool.init ex_pool {| Get_rank := 0; Get_size := 2 |})
       (PStr "ds") [PArr (arange2 4 4)] {["chunks" := PTuple [2; 2]]}) tt
  = [EvCall (PoolCreateDataset ex_pool [PStr "ds"; PArr (arange2 4 4)]
               {["chunks" := PTuple [2; 2]]})
       (echo_dataset ex_pool [PStr "ds"; PArr (arange2 4 4)]
          {["chunks" := PTuple [2; 2]]});
     EvBarrier;
     EvCall (PoolGetDataset ex_pool [PStr "ds"] ∅)
       (echo_dataset ex_pool [PStr "ds"] ∅)].
Proof. reflexivity. Qed.

(** C7, one process: the root's only call in [clone] is the owning pool's
    [create_dataset] with the new name and the source's shape, dtype, chunk
    size and fill value as keywords; its answer is what the root broadcasts
    and wraps.  Any other rank makes no call at all: it wraps what the
    broadcast delivers, with its own communicator. *)
Lemma clone_trace {S} (h : oracle S) (s : S) (d : bDataset) (comm : Comm)
    (output_name : pyval) :
  let create :=
    PoolCreateDataset (bd_pool d) [output_name]
      (<["shape" := PTuple (bd_shape d)]>
       (<["dtype" := PStr (bd_dtype d)]>
        (<["chunks" := PTuple (bd_chunk_size d)]>
         (<["fillvalue" := PInt (bd_fillvalue d)]> ∅)))) in
  run_proc h (Get_rank comm)
    (MpiDataset.clone (MpiDataset.init d comm) output_name) s
  = if Get_rank comm =? 0 then
      let out := (on_call h create s).1 in
      ([EvCall create out; EvBcast (Some out) out],
       inr (MpiDataset.init out comm), (on_call h create s).2)
    else
      let v := (on_bcast h s).1 in
      ([EvBcast None v], inr (MpiDataset.init v comm), (on_bcast h s).2).
Proof.
  intros create. subst create.
  unfold MpiDataset.clone, MpiDataset.init. unfold_prog. simpl.
  destruct (Get_rank comm =? 0) eqn:Hroot; simpl.
  - destruct (on_call h _ s) as [out s1]. simpl. by rewrite Hroot.
  - rewrite Hroot. by destruct (on_bcast h s) as [v s1].
Qed.

(** The flag the constructor keeps: whether the selected backend is named
    ['ceph']. *)
Lemma init_outcome `{Env} {S} (h : oracle S) (rank : nat) (s : S)
    (name : pyval) (comm : option Comm) (kw : kwargs) :
  match get_backend (default PNone (kw !! "backend")) with
  | inl e => run_proc h rank (MpiCluster.init name comm kw) s = ([], inl e, s)
  | inr b =>
      ∃ tr s',
        run_proc h rank (MpiCluster.init name comm kw) s
        = (tr,
           inr {| MpiCluster.instance :=
                    (on_call h (NewCluster b name (delete "backend" kw)) s).1;
                  MpiCluster.cparams := (b, name, delete "backend" kw);
                  MpiCluster.ceph_backend := String.eqb (bk_name b) "ceph";
                  MpiCluster.mpi := MpiMixin_init (default engine_comm comm) |},
           s')
        ∧ reconnects tr = false
  end.
Proof.
  unfold MpiCluster.init.
  destruct (get_backend (default PNone (kw !! "backend"))) as [e|b]; [done|].
  unfold_prog. simpl.
  destruct (on_call h (NewCluster _ _ _) s) as [inst s1]. simpl.
  destruct (String.eqb (bk_name b) "memory"); simpl.
  - destruct (on_call h (LogWarning _) s1) as [[] s2]. simpl. by eexists _, _.
  - by eexists _, _.
Qed.

(** C8 (as the code has it): [create_pool] runs, in order, the root's backend
    create, a barrier, then, exactly when the object's [ceph_backend] flag is
    set, a disconnect of the current cluster handle, the construction of a new
    one from the stored [cparams], its connect and a second barrier, and last
    the fetch of the pool with the call's positional arguments on the current
    handle, whose wrapped answer is returned.  The constructor sets
    [ceph_backend] to whether the backend's name is ['ceph']. *)
Theorem create_pool_protocol `{Env} {S} (h : oracle S) (rank : nat) (s : S)
    (self : MpiCluster.t) (args : list pyval) (kw : kwargs) :
  (let inst := MpiCluster.instance self in
   let comm := mpi_comm (MpiCluster.mpi self) in
   let create := ClusterCreatePool inst args kw in
   let root := mpi_is_root (MpiCluster.mpi self) in
   let tr0 := if root then [EvCall create tt] else [] in
   let s0 := if root then (on_call h create s).2 else s in
   if MpiCluster.ceph_backend self then
     let new := NewCluster (MpiCluster.cparams self).1.1
                  (MpiCluster.cparams self).1.2 (MpiCluster.cparams self).2 in
     let s1 := (on_call h (ClusterDisconnect inst) s0).2 in
     let inst' := (on_call h new s1).1 in
     let s2 := (on_call h new s1).2 in
     let s3 := (on_call h (ClusterConnect inst') s2).2 in
     ∃ kw', let fetch := ClusterGetPool inst' args kw' in
       run_proc h rank (MpiCluster.create_pool self args kw) s
       = (tr0 ++ [EvBarrier; EvCall (ClusterDisconnect inst) tt;
                  EvCall new inst'; EvCall (ClusterConnect inst') tt;
                  EvBarrier; EvCall fetch (on_call h fetch s3).1],
          inr (MpiPool.init (on_call h fetch s3).1 comm,
               MpiCluster.set_instance self inst'),
          (on_call h fetch s3).2)
   else
     let fetch := ClusterGetPool inst args kw in
     run_proc h rank (MpiCluster.create_pool self args kw) s
     = (tr0 ++ [EvBarrier; EvCall fetch (on_call h fetch s0).1],
        inr (MpiPool.init (on_call h fetch s0).1 comm, self),
        (on_call h fetch s0).2))
  ∧ (∀ name comm kw0,
       match get_backend (default PNone (kw0 !! "backend")) with
       | inl e => outcome_of h rank (MpiCluster.init name comm kw0) s = inl e
       | inr b =>
           ∃ self0, outcome_of h rank (MpiCluster.init name comm kw0) s = inr self0
                    ∧ MpiCluster.ceph_backend self0 = String.eqb (bk_name b) "ceph"
                    ∧ MpiCluster.cparams self0 = (b, name, delete "backend" kw0)
       end).
Proof.
  split.
  - unfold MpiCluster.create_pool, MpiCluster.get_pool. unfold_prog.
    destruct self as [inst [[backend cname] ckw] ceph mpi]. simpl.
    destruct (mpi_is_root mpi), ceph; simpl.
    + destruct (on_call h (ClusterCreatePool _ _ _) s) as [[] s0]. simpl.
      destruct (on_call h (ClusterDisconnect _) s0) as [[] s1]. simpl.
      destruct (on_call h (NewCluster _ _ _) s1) as [inst' s2]. simpl.
      destruct (on_call h (ClusterConnect _) s2) as [[] s3]. simpl.
      exists ckw. simpl.
      by destruct (on_call h (ClusterGetPool _ _ _) s3) as [pool s4].
    + destruct (on_call h (ClusterCreatePool _ _ _) s) as [[] s0]. simpl.
      by destruct (on_call h (ClusterGetPool _ _ _) s0) as [pool s4].
    + destruct (on_call h (ClusterDisconnect _) s) as [[] s1]. simpl.
      destruct (on_call h (NewCluster _ _ _) s1) as [inst' s2]. simpl.
      destruct (on_call h (ClusterConnect _) s2) as [[] s3]. simpl.
      exists ckw. simpl.
      by destruct (on_call h (ClusterGetPool _ _ _) s3) as [pool s4].
    + by destruct (on_call h (ClusterGetPool _ _ _) s) as [pool s4].
  - intros name comm kw0. pose proof (init_outcome h rank s name comm kw0) as Hi.
    unfold outcome_of.
    destruct (get_backend (default PNone (kw0 !! "backend"))) as [e|b].
    + by rewrite Hi.
    + destruct Hi as (tr & s' & -> & _). by eexists.
Qed.

(** C8 as stated fails: on a backend named ['ceph'] that declares that it
    needs no reconnection, a process that opens the cluster and creates a
    pool does disconnect and reconnect; on one named ['hdf5'] that declares
    the need, it does not. *)
Lemma create_pool_reconnect_ignores_declared_flag :
  let ceph := {| bk_name := "ceph"; bk_requires_reconnect := false |} in
  let hdf5 := {| bk_name := "hdf5"; bk_requires_reconnect := true |} in
  get_backend (Env := ex_env) (PStr "ceph") = inr ceph
  ∧ reconnects (trace_of echo_oracle 0
                  (open_and_create_pool (H := ex_env) PNone
                     {["backend" := PStr "ceph"]} (PStr "p")) tt)
    ≠ bk_requires_reconnect ceph
  ∧ get_backend (Env := ex_env) (PStr "hdf5") = inr hdf5
  ∧ reconnects (trace_of echo_oracle 0
                  (open_and_create_pool (H := ex_env) PNone
                     {["backend" := PStr "hdf5"]} (PStr "p")) tt)
    ≠ bk_requires_reconnect hdf5.
Proof. vm_compute. repeat split; congruence. Qed.

(** C2 as stated fails: a root process that opens the cluster and creates a
    pool issues the backend create as its first coordinated step; no barrier
    comes before it. *)
Lemma create_pool_has_no_leading_barrier :
  let tr := trace_of echo_oracle 0
              (open_and_create_pool (H := ex_env) PNone ∅ (PStr "p")) tt in
  mutations tr = 1 ∧ fenced_before false tr && fenced_after tr = false.
Proof. vm_compute. done. Qed.

(** C2 (as the code has it): in every method that changes the hierarchy the
    mutating backend call is made once by the root and never by another
    rank, and a barrier follows it directly ([clone]: the broadcast does).
    In the delete methods a barrier also comes directly before it.  In the
    create methods and in [clone] the root's mutating call is the very first
    thing the root does: no barrier comes anywhere before it. *)
Theorem mutations_root_only_then_barrier `{Bounds} {S} (h : oracle S)
    (rank : nat) (s : S) (args : list pyval) (kw : kwargs) :
  (∀ self : MpiCluster.t,
     let root := mpi_is_root (MpiCluster.mpi self) in
     let tr := trace_of h rank (MpiCluster.create_pool self args kw) s in
     mutations tr = (if root then 1 else 0)
     ∧ mutation_then is_barrier tr = true
     ∧ fenced_after tr = true
     ∧ barrier_then_mutation false tr = negb root
     ∧ fenced_before false tr = negb root
     ∧ starts_with_mutation tr = root)
  ∧ (∀ self : MpiCluster.t,
       let root := mpi_is_root (MpiCluster.mpi self) in
       let tr := trace_of h rank (MpiCluster.del_pool self args kw) s in
       mutations tr = (if root then 1 else 0)
       ∧ mutation_then is_barrier tr = true
       ∧ fenced_after tr = true
       ∧ barrier_then_mutation false tr = true
       ∧ fenced_before false tr = true
       ∧ starts_with_mutation tr = false)
  ∧ (∀ (self : MpiPool.t) (name : pyval),
       let root := mpi_is_root (MpiPool.mpi self) in
       let tr := trace_of h rank (MpiPool.create_dataset self name args kw) s in
       mutations tr = (if root then 1 else 0)
       ∧ mutation_then is_barrier tr = true
       ∧ fenced_after tr = true
       ∧ barrier_then_mutation false tr = negb root
       ∧ fenced_before false tr = negb root
       ∧ starts_with_mutation tr = root)
  ∧ (∀ self : MpiPool.t,
       let root := mpi_is_root (MpiPool.mpi self) in
       let tr := trace_of h rank (MpiPool.del_dataset self args kw) s in
       mutations tr = (if root then 1 else 0)
       ∧ mutation_then is_barrier tr = true
       ∧ fenced_after tr = true
       ∧ barrier_then_mutation false tr = true
       ∧ fenced_before false tr = true
       ∧ starts_with_mutation tr = false)
  ∧ (∀ (self : MpiDataset.t) (idx : pyval),
       let root := mpi_is_root (MpiDataset.mpi self) in
       let tr := trace_of h rank (MpiDataset.create_chunk self idx args kw) s in
       mutations tr = (if root then 1 else 0)
       ∧ mutation_then is_barrier tr = true
       ∧ fenced_after tr = true
       ∧ barrier_then_mutation false tr = negb root
       ∧ fenced_before false tr = negb root
       ∧ starts_with_mutation tr = root)
  ∧ (∀ self : MpiDataset.t,
       let root := mpi_is_root (MpiDataset.mpi self) in
       let tr := trace_of h rank (MpiDataset.delete self) s in
       mutations tr = (if root then 1 else 0)
       ∧ mutation_then is_barrier tr = true
       ∧ fenced_after tr = true
       ∧ barrier_then_mutation false tr = true
       ∧ fenced_before false tr = true
       ∧ starts_with_mutation tr = false)
  ∧ (∀ (self : MpiDataset.t) (output_name : pyval),
       let root := mpi_is_root (MpiDataset.mpi self) in
       let tr := trace_of h rank (MpiDataset.clone self output_name) s in
       mutations tr = (if root then 1 else 0)
       ∧ mutation_then is_collective tr = true
       ∧ barrier_then_mutation false tr = negb root
       ∧ fenced_before false tr = negb root
       ∧ starts_with_mutation tr = root).
Proof.
  repeat apply conj.
  - intros self root tr. subst root tr. unfold trace_of.
    unfold MpiCluster.create_pool, MpiCluster.get_pool. unfold_prog.
    destruct self as [inst [[backend cname] ckw] ceph mpi]. simpl.
    destruct (mpi_is_root mpi), ceph; run_calls; done.
  - intros self root tr. subst root tr. unfold trace_of.
    unfold MpiCluster.del_pool. unfold_prog.
    destruct self as [inst [[backend cname] ckw] ceph mpi]. simpl.
    destruct (mpi_is_root mpi), ceph; run_calls; done.
  - intros self name root tr. subst root tr. unfold trace_of.
    rewrite create_dataset_run.
    destruct (kw !! "data") as [data|].
    + pose proof (load_trace_no_mutation h rank
        (MpiDataset.init
           (on_call h (PoolGetDataset (MpiPool.instance self) [name] ∅)
              (if mpi_is_root (MpiPool.mpi self)
               then (on_call h (PoolCreateDataset (MpiPool.instance self)
                                  (name :: args) kw) s).2
               else s)).1 (mpi_comm (MpiPool.mpi self))) data
        (on_call h (PoolGetDataset (MpiPool.instance self) [name] ∅)
              (if mpi_is_root (MpiPool.mpi self)
               then (on_call h (PoolCreateDataset (MpiPool.instance self)
                                  (name :: args) kw) s).2
               else s)).2) as Hload.
      unfold trace_of in Hload.
      destruct (run_proc h rank (MpiDataset.load _ data) _) as [[tr r] s2].
      simpl in Hload. pose proof (no_mutation_fences _ Hload) as [Hfb Hfa].
      apply no_mutation_facts in Hload as (Hm & Hq & Hb).
      unfold mutations in *.
      destruct (mpi_is_root (MpiPool.mpi self)); simpl;
        rewrite ?Hq, ?Hb, ?Hfb, ?Hfa; rewrite ?filter_cons; simpl;
        repeat (rewrite ?decide_True by done; rewrite ?decide_False by (by intros ?));
        simpl; rewrite ?Hm; done.
    + destruct (mpi_is_root (MpiPool.mpi self)); done.
  - intros self root tr. subst root tr. unfold trace_of.
    unfold MpiPool.del_dataset. unfold_prog.
    destruct (mpi_is_root (MpiPool.mpi self)); run_calls; done.
  - intros self idx root tr. subst root tr. unfold trace_of.
    unfold MpiDataset.create_chunk, MpiDataset.get_chunk. unfold_prog.
    destruct (mpi_is_root (MpiDataset.mpi self)); run_calls; done.
  - intros self root tr. subst root tr. unfold trace_of.
    unfold MpiDataset.delete. unfold_prog.
    destruct (mpi_is_root (MpiDataset.mpi self)); run_calls; done.
  - intros self output_name root tr. subst root tr. unfold trace_of.
    unfold MpiDataset.clone. unfold_prog.
    destruct (mpi_is_root (MpiDataset.mpi self)); simpl.
    + destruct (on_call h _ s) as [out s1]. simpl.
      destruct (rank =? 0); [done|]. by destruct (on_bcast h s1).
    + destruct (rank =? 0); [done|]. by destruct (on_bcast h s).
Qed.

(** ** Slicing *)

Lemma region_coord_inv sh sl c c' :
  length sl ≤ length sh → in_shape sh c = true →
  region_coord sh sl c = Some c' →
  sliced_coord sh sl c' = c ∧ in_shape (sliced_shape sh sl) c' = true.
Proof.
  revert sl c c'. induction sh as [|d sh IH]; intros sl c c' Hlen Hc Hr.
  - destruct sl; simpl in *; [|lia]. by simplify_eq.
  - destruct c as [|x c]; [done|]. simpl in Hc.
    apply andb_prop in Hc as [Hx Hc].
    destruct sl as [|s sl].
    + simpl in *. simplify_eq. simpl. by rewrite Hx, Hc.
    + simpl in Hr, Hlen.
      destruct (_ && _) eqn:Hin in Hr; [|done].
      apply andb_prop in Hin as [H1 H2].
      apply Nat.leb_le in H1. apply Nat.ltb_lt in H2.
      destruct (region_coord sh sl c) as [c0|] eqn:Hrc; [|done].
      simpl in Hr. simplify_eq.
      destruct (IH sl c c0 ltac:(lia) Hc Hrc) as [IH1 IH2].
      simpl. rewrite IH1, IH2. split.
      * f_equal. lia.
      * rewrite andb_true_r. apply Nat.ltb_lt. lia.
Qed.

Lemma region_coord_sliced sh sl c :
  length sl ≤ length sh → in_shape (sliced_shape sh sl) c = true →
  region_coord sh sl (sliced_coord sh sl c) = Some c.
Proof.
  revert sl c. induction sh as [|d sh IH]; intros sl c Hlen Hc.
  - by destruct sl.
  - destruct sl as [|s sl]; [done|].
    destruct c as [|x c]; [done|]. simpl in Hc, Hlen.
    apply andb_prop in Hc as [Hx Hc]. apply Nat.ltb_lt in Hx.
    simpl. rewrite (IH sl c) by (done || lia). simpl.
    replace (slice_start d s <=? slice_start d s + x) with true
      by (symmetry; apply Nat.leb_le; lia).
    replace (slice_start d s + x <? slice_start d s + slice_len d s) with true
      by (symmetry; apply Nat.ltb_lt; lia).
    simpl. do 2 f_equal. lia.
Qed.

Lemma getitem_Some a sl :
  length sl ≤ length (shape a) →
  getitem a sl = Some {| shape := sliced_shape (shape a) sl;
                         item := λ c, item a (sliced_coord (shape a) sl c) |}.
Proof.
  intros Hlen. unfold getitem.
  by destruct (Nat.ltb_spec (length (shape a)) (length sl)); [lia|].
Qed.

Lemma setitem_Some a sl v :
  length sl ≤ length (shape a) → shape v = sliced_shape (shape a) sl →
  setitem a (Some sl) v
  = Some {| shape := shape a;
            item := λ c, match region_coord (shape a) sl c with
                         | Some c' => item v c'
                         | None => item a c
                         end |}.
Proof.
  intros Hlen Hv. unfold setitem.
  destruct (Nat.ltb_spec (length (shape a)) (length sl)); [lia|].
  by rewrite decide_True.
Qed.

Lemma in_shape_coords sh c : in_shape sh c = true ↔ c ∈ coords sh.
Proof.
  revert c. induction sh as [|d sh IH]; intros c; simpl.
  - destruct c; [by rewrite list_elem_of_singleton|].
    split; [done|]. intros Hin%list_elem_of_singleton. done.
  - rewrite list_elem_of_bind. destruct c as [|x c].
    + split; [done|]. intros (y & Hin & _).
      apply list_elem_of_fmap in Hin as (? & ? & _). done.
    + rewrite andb_true_iff, Nat.ltb_lt, IH. split.
      * intros [Hx Hc]. exists x. split.
        -- apply list_elem_of_fmap. eauto.
        -- apply elem_of_seq. lia.
      * intros (y & Hin & Hy). apply list_elem_of_fmap in Hin as (c0 & Heq & Hc0).
        simplify_eq. apply elem_of_seq in Hy. split; [lia|done].
Qed.

Lemma array_eqb_spec a b : array_eqb a b = true ↔ array_eq a b.
Proof.
  unfold array_eqb, array_eq.
  rewrite andb_true_iff, bool_decide_eq_true, forallb_forall.
  split; intros [Hs Hall]; (split; [done|]).
  - intros c Hc. apply Z.eqb_eq, Hall, list_elem_of_In. by apply in_shape_coords.
  - intros c Hc. apply Z.eqb_eq, Hall. apply in_shape_coords.
    by apply list_elem_of_In.
Qed.

(** ** The shared store *)

Lemma lookup_update_ds_eq st d dss0 dss :
  lookup_ds st d = Some dss0 → lookup_ds (update_ds st d dss) d = Some dss.
Proof.
  unfold lookup_ds, ds_at, update_ds. intros Hl.
  destruct (st !! bp_name (bd_pool d)) as [pool|] eqn:Hp; [|done].
  rewrite lookup_insert_eq. simpl. by rewrite lookup_insert_eq.
Qed.

Lemma ds_at_update_ds_ne st d dss p n :
  (p, n) ≠ (bp_name (bd_pool d), bd_name d) →
  ds_at (update_ds st d dss) p n = ds_at st p n.
Proof.
  unfold ds_at, update_ds. intros Hne.
  destruct (st !! bp_name (bd_pool d)) as [pool|] eqn:Hp; [|done].
  destruct (decide (p = bp_name (bd_pool d))) as [->|Hpn].
  - rewrite lookup_insert_eq, Hp. simpl.
    rewrite lookup_insert_ne; [done|]. congruence.
  - by rewrite lookup_insert_ne.
Qed.

Lemma exec_set_chunk_data st d dss idx values slices a :
  lookup_ds st d = Some dss →
  setitem (chunk_contents dss idx) slices values = Some a →
  exec (DsSetChunkData d idx values slices) st
  = (inr tt, update_ds st d (write_chunk dss idx a)).
Proof. intros Hl Hs. simpl. by rewrite Hl, Hs. Qed.

Lemma exec_get_chunk_data st d dss idx :
  lookup_ds st d = Some dss →
  exec (DsGetChunkData d idx) st = (inr (chunk_contents dss idx), st).
Proof. intros Hl. simpl. by rewrite Hl. Qed.

Lemma chunk_contents_write_eq dss idx a :
  chunk_contents (write_chunk dss idx a) idx = a.
Proof. unfold chunk_contents, write_chunk. simpl. by rewrite lookup_insert_eq. Qed.

Lemma chunk_contents_write_ne dss idx idx' a :
  idx ≠ idx' → chunk_contents (write_chunk dss idx a) idx' = chunk_contents dss idx'.
Proof.
  intros Hne. unfold chunk_contents, write_chunk. simpl.
  by rewrite lookup_insert_ne.
Qed.

Lemma chunk_contents_shape dss idx :
  chunks_wf dss → shape (chunk_contents dss idx) = bd_chunk_size (dss_handle dss).
Proof.
  intros Hwf. unfold chunk_contents.
  destruct (dss_chunks dss !! idx) as [a|] eqn:Ha; [|done]. exact (Hwf _ _ Ha).
Qed.

Lemma chunks_wf_write dss idx a :
  chunks_wf dss → shape a = bd_chunk_size (dss_handle dss) →
  chunks_wf (write_chunk dss idx a).
Proof. intros Hwf Ha. unfold chunks_wf, write_chunk. simpl. by apply map_Forall_insert_2. Qed.

(** ** Steps of the group *)

Lemma grun_app {A} s1 s2 (g : gstate A) : grun (s1 ++ s2) g = grun s2 (grun s1 g).
Proof. unfold grun. by rewrite foldl_app. Qed.

Lemma grun_invariant {A} (Inv : gstate A → Prop) sched g :
  (∀ r g, Inv g → Inv (gstep r g)) → Inv g → Inv (grun sched g).
Proof.
  intros Hstep. unfold grun. revert g.
  induction sched as [|r sched IH]; intros g Hg; [done|].
  simpl. apply IH, Hstep, Hg.
Qed.

Lemma gstep_none {A} r (g : gstate A) : g.1 !! r = None → gstep r g = g.
Proof. intros Hr. unfold gstep. by rewrite Hr. Qed.

Lemma gstep_call {A X} r (g : gstate A) (c : callE X) k x st :
  g.1 !! r = Some (Call c k) → exec c g.2 = (inr x, st) →
  gstep r g = (<[r := k x]> g.1, st).
Proof. intros Hr He. unfold gstep. by rewrite Hr, He. Qed.

Lemma gstep_barrier {A} r (g : gstate A) k :
  g.1 !! r = Some (Barrier k) →
  gstep r g = if forallb at_barrier g.1 then (pass_barrier <$> g.1, g.2) else g.
Proof. intros Hr. unfold gstep. by rewrite Hr. Qed.

Lemma imap_insert {X Y} (f : nat → X → Y) (l : list X) r x :
  <[r := f r x]> (imap f l) = imap f (<[r := x]> l).
Proof.
  apply list_eq. intros i. rewrite list_lookup_imap.
  destruct (decide (i = r)) as [->|Hne].
  - destruct (decide (r < length l)).
    + rewrite !list_lookup_insert_eq by (by rewrite ?length_imap). done.
    + rewrite !list_insert_ge by (rewrite ?length_imap; lia).
      by rewrite list_lookup_imap.
  - rewrite !list_lookup_insert_ne by done. by rewrite list_lookup_imap.
Qed.

Lemma forallb_lookup {X} (q : X → bool) (l : list X) i x :
  forallb q l = true → l !! i = Some x → q x = true.
Proof.
  intros Hall Hi. rewrite forallb_forall in Hall.
  apply Hall, list_elem_of_In, list_elem_of_lookup. eauto.
Qed.

Lemma fmap_const_seq {X} (x : X) n m : (λ _ : nat, x) <$> seq n m = replicate m x.
Proof.
  revert n. induction m as [|m IH]; intros n; [done|].
  cbn [seq replicate]. by rewrite fmap_cons, IH.
Qed.

(** ** A bulk phase under an arbitrary schedule *)

Section phase.
Context {A : Type} (P : nat) (M : nat → nat) (prog_of : nat → nat → Prog A)
        (v : nat → A) (Sinv : list nat → Store → Prop).

(** A rank inside its loop is at a call that succeeds on any store the
    progress so far allows, and that takes it one step further. *)
Hypothesis step_ok : ∀ ms st r m,
  length ms = P → Sinv ms st → ms !! r = Some m → m < M r →
  ∃ X (c : callE X) k x st',
    prog_of r m = Call c k ∧ exec c st = (inr x, st')
    ∧ k x = prog_of r (m + 1) ∧ Sinv (<[r := m + 1]> ms) st'.

(** After its last call a rank is at the trailing barrier. *)
Hypothesis last_ok : ∀ r, r < P → prog_of r (M r) = Barrier (Ret (v r)).

Local Abbreviation running ms g :=
  (length ms%list = P ∧ (∀ r m, ms%list !! r = Some m → m ≤ M r)
   ∧ g.1 = imap prog_of ms%list ∧ Sinv ms%list g.2).

Lemma phase_all_at_barrier ms (g : gstate A) :
  running ms g → forallb at_barrier g.1 = true → ms = M <$> seq 0 P.
Proof.
  intros (Hlen & Hle & Hps & HS) Hall.
  apply list_eq. intros r. rewrite list_lookup_fmap.
  destruct (ms !! r) as [m|] eqn:Hm.
  - pose proof (lookup_lt_Some _ _ _ Hm) as Hr.
    rewrite lookup_seq_lt by lia. simpl. f_equal.
    destruct (decide (m < M r)) as [Hlt|]; [|specialize (Hle _ _ Hm); lia].
    destruct (step_ok ms g.2 r m Hlen HS Hm Hlt)
      as (X & c & k & x & st' & Hc & _).
    assert (g.1 !! r = Some (prog_of r m)) as Hg
      by (by rewrite Hps, list_lookup_imap, Hm).
    pose proof (forallb_lookup _ _ _ _ Hall Hg) as Hb.
    by rewrite Hc in Hb.
  - apply lookup_ge_None in Hm. by rewrite lookup_seq_ge by lia.
Qed.

Lemma phase_pass_barrier :
  pass_barrier <$> imap prog_of (M <$> seq 0 P) = (λ r, Ret (v r)) <$> seq 0 P.
Proof.
  apply list_eq. intros r.
  rewrite !list_lookup_fmap, list_lookup_imap, list_lookup_fmap.
  destruct (decide (r < P)).
  - rewrite lookup_seq_lt by done. simpl. by rewrite last_ok.
  - by rewrite lookup_seq_ge by lia.
Qed.

Lemma phase_step r (g : gstate A) :
  phase_inv P M prog_of v Sinv g → phase_inv P M prog_of v Sinv (gstep r g).
Proof.
  intros [(ms & Hrun)|[Hps HS]].
  - pose proof Hrun as (Hlen & Hle & Hps & HS).
    destruct (ms !! r) as [m|] eqn:Hm.
    + assert (g.1 !! r = Some (prog_of r m)) as Hg
        by (by rewrite Hps, list_lookup_imap, Hm).
      pose proof (lookup_lt_Some _ _ _ Hm) as Hr.
      destruct (decide (m < M r)) as [Hlt|Hge].
      * destruct (step_ok ms g.2 r m Hlen HS Hm Hlt)
          as (X & c & k & x & st' & Hc & He & Hk & HS').
        rewrite Hc in Hg. rewrite (gstep_call r g c k x st' Hg He).
        left. exists (<[r := m + 1]> ms). simpl.
        split; [by rewrite length_insert|]. split.
        { intros r' m' Hm'. destruct (decide (r' = r)) as [->|Hne].
          - rewrite list_lookup_insert_eq in Hm' by lia. simplify_eq. lia.
          - rewrite list_lookup_insert_ne in Hm' by done. eauto. }
        split; [|done]. by rewrite Hps, Hk, imap_insert.
      * assert (m = M r) as -> by (specialize (Hle _ _ Hm); lia).
        rewrite last_ok in Hg by lia. rewrite (gstep_barrier r g _ Hg).
        destruct (forallb at_barrier g.1) eqn:Hall; [|left; eauto].
        right. rewrite (phase_all_at_barrier ms g Hrun Hall) in Hps, HS.
        simpl. split; [|done]. by rewrite Hps, phase_pass_barrier.
    + rewrite gstep_none; [left; eauto|].
      by rewrite Hps, list_lookup_imap, Hm.
  - rewrite gstep_stopped; [right; eauto|].
    rewrite Hps. apply forallb_forall. intros p Hp.
    apply list_elem_of_In, list_elem_of_fmap in Hp as (? & -> & _). done.
Qed.

Lemma phase_run sched (g : gstate A) :
  phase_inv P M prog_of v Sinv g → phase_inv P M prog_of v Sinv (grun sched g).
Proof.
  apply grun_invariant. intros r g'. apply phase_step.
Qed.

(** When every rank has stopped, every rank has made all its calls. *)
Lemma phase_stopped (g : gstate A) :
  0 < P → phase_inv P M prog_of v Sinv g → forallb stopped g.1 = true →
  g.1 = (λ r, Ret (v r)) <$> seq 0 P ∧ Sinv (M <$> seq 0 P) g.2.
Proof.
  intros HP [(ms & Hrun)|Hfin] Hall; [|done].
  pose proof Hrun as (Hlen & Hle & Hps & HS).
  destruct (ms !! 0) as [m|] eqn:Hm;
    [|apply lookup_ge_None in Hm; lia].
  assert (g.1 !! 0 = Some (prog_of 0 m)) as Hg
    by (by rewrite Hps, list_lookup_imap, Hm).
  pose proof (forallb_lookup _ _ _ _ Hall Hg) as Hb.
  destruct (decide (m < M 0)) as [Hlt|Hge].
  - destruct (step_ok ms g.2 0 m Hlen HS Hm Hlt)
      as (X & c & k & x & st' & Hc & _). by rewrite Hc in Hb.
  - assert (m = M 0) as -> by (specialize (Hle _ _ Hm); lia).
    by rewrite last_ok in Hb by lia.
Qed.

(** One rank run alone up to its barrier. *)
Lemma phase_solo r n : ∀ ms (g : gstate A) m,
  running ms g → ms !! r = Some m → m + n = M r →
  running (<[r := M r]> ms) (grun (replicate n r) g).
Proof.
  induction n as [|n IH]; intros ms g m Hrun Hm Hn.
  - simpl in *. replace (M r) with m by lia. by rewrite list_insert_id.
  - pose proof Hrun as (Hlen & Hle & Hps & HS).
    pose proof (lookup_lt_Some _ _ _ Hm) as Hr.
    destruct (step_ok ms g.2 r m Hlen HS Hm ltac:(lia))
      as (X & c & k & x & st' & Hc & He & Hk & HS').
    assert (g.1 !! r = Some (Call c k)) as Hg
      by (by rewrite Hps, list_lookup_imap, Hm, <- Hc).
    cbn [replicate]. unfold grun. cbn [foldl]. fold (grun (replicate n r) (gstep r g)).
    rewrite (gstep_call r g c k x st' Hg He).
    assert (running (<[r := m + 1]> ms) (<[r := k x]> g.1, st')) as Hrun'.
    { simpl. split; [by rewrite length_insert|]. split.
      { intros r' m' Hm'. destruct (decide (r' = r)) as [->|Hne].
        - rewrite list_lookup_insert_eq in Hm' by lia. simplify_eq. lia.
        - rewrite list_lookup_insert_ne in Hm' by done. eauto. }
      split; [|done]. by rewrite Hps, Hk, imap_insert. }
    specialize (IH (<[r := m + 1]> ms) _ (m + 1) Hrun').
    rewrite list_lookup_insert_eq in IH by lia.
    specialize (IH eq_refl ltac:(lia)).
    by rewrite list_insert_insert_eq in IH.
Qed.

Lemma phase_upto j : ∀ ms (g : gstate A),
  j ≤ P → running ms g →
  ∃ sched ms', running ms' (grun sched g)
               ∧ ∀ r, r < j → ms' !! r = Some (M r).
Proof.
  induction j as [|j IH]; intros ms g Hj Hrun.
  - exists [], ms. split; [done|]. intros; lia.
  - destruct (IH ms g ltac:(lia) Hrun) as (sched & ms' & Hrun' & Hlow).
    pose proof Hrun' as (Hlen & Hle & _).
    destruct (ms' !! j) as [m|] eqn:Hm;
      [|apply lookup_ge_None in Hm; lia].
    exists (sched ++ replicate (M j - m) j), (<[j := M j]> ms').
    rewrite grun_app. split.
    + apply (phase_solo j (M j - m) ms' _ m Hrun' Hm).
      specialize (Hle _ _ Hm). lia.
    + intros r Hr. destruct (decide (r = j)) as [->|Hne].
      * rewrite list_lookup_insert_eq by lia. done.
      * rewrite list_lookup_insert_ne by done. apply Hlow. lia.
Qed.

(** Some schedule brings every rank to return. *)
Lemma phase_live (g : gstate A) :
  phase_inv P M prog_of v Sinv g →
  ∃ sched, (grun sched g).1 = (λ r, Ret (v r)) <$> seq 0 P.
Proof.
  intros [(ms & Hrun)|[Hps HS]]; [|by exists []].
  destruct (phase_upto P ms g ltac:(lia) Hrun) as (sched & ms' & Hrun' & Hall).
  pose proof Hrun' as (Hlen & Hle & Hps & HS).
  assert (ms' = M <$> seq 0 P) as ->.
  { apply list_eq. intros r. rewrite list_lookup_fmap.
    destruct (decide (r < P)).
    - rewrite lookup_seq_lt by done. by apply Hall.
    - rewrite lookup_seq_ge by lia. apply lookup_ge_None. lia. }
  destruct (decide (P = 0)) as [HP|HP].
  - exists sched. rewrite Hps, HP. done.
  - exists (sched ++ [0]). rewrite grun_app. unfold grun at 1. cbn [foldl].
    assert ((grun sched g).1 !! 0 = Some (Barrier (Ret (v 0)))) as Hg.
    { rewrite Hps, list_lookup_imap, list_lookup_fmap.
      rewrite lookup_seq_lt by lia. simpl. by rewrite last_ok by lia. }
    rewrite (gstep_barrier 0 _ _ Hg).
    assert (forallb at_barrier (grun sched g).1 = true) as ->.
    { rewrite Hps. apply forallb_forall. intros p Hp.
      apply list_elem_of_In, list_elem_of_lookup in Hp as [r Hp].
      rewrite list_lookup_imap, list_lookup_fmap in Hp.
      destruct (decide (r < P)).
      - rewrite lookup_seq_lt in Hp by done. simpl in Hp. simplify_eq.
        by rewrite last_ok.
      - by rewrite lookup_seq_ge in Hp by lia. }
    simpl. rewrite Hps. apply phase_pass_barrier.
Qed.
End phase.

(** ** Shards as remaining work *)

Lemma todo_cons r T P n :
  n < range_len r T P → todo r T P n = (r + n * P) :: todo r T P (n + 1).
Proof.
  intros Hn. unfold todo.
  replace (range_len r T P - n) with (S (range_len r T P - (n + 1))) by lia.
  cbn [seq]. rewrite fmap_cons. by replace (S n) with (n + 1) by lia.
Qed.

Lemma todo_nil r T P : todo r T P (range_len r T P) = [].
Proof. unfold todo. by rewrite Nat.sub_diag. Qed.

Lemma for_range_todo r T P body :
  0 < P → for_range r T P body = for_each (todo r T P 0) body.
Proof.
  intros HP. unfold for_range, py_range, todo.
  destruct (Nat.eqb_spec P 0); [lia|]. by rewrite Nat.sub_0_r.
Qed.

(** Every ordinal below [T] is one that its owner has been through once the
    owner has made all its iterations. *)
Lemma ordinal_position T P k :
  0 < P → k < T → k = k mod P + k / P * P ∧ k mod P < P ∧ k / P < range_len (k mod P) T P.
Proof.
  intros HP Hk. pose proof (Nat.div_mod_eq k P) as Hdm.
  assert (k = k mod P + k / P * P) as Heq by lia.
  split; [done|]. split; [apply Nat.mod_upper_bound; lia|].
  apply range_len_spec; [done|]. lia.
Qed.

(** ** The bounds contract *)

Section bounds.
Context `{Bounds}.

Lemma bounds_fit_spec d k :
  bounds_fit d = true → k < bd_total_chunks d →
  let idx := idx_from_flat d k in
  length (global_chunk_bounds d idx) ≤ length (bd_shape d)
  ∧ length (local_chunk_bounds d idx) ≤ length (bd_chunk_size d)
  ∧ sliced_shape (bd_shape d) (global_chunk_bounds d idx)
    = sliced_shape (bd_chunk_size d) (local_chunk_bounds d idx).
Proof.
  intros Hfit Hk. unfold bounds_fit in Hfit. rewrite forallb_forall in Hfit.
  specialize (Hfit k). simpl in Hfit.
  rewrite <- list_elem_of_In, elem_of_seq in Hfit.
  specialize (Hfit ltac:(lia)).
  apply andb_prop in Hfit as [[H1 H2]%andb_prop H3].
  apply Nat.leb_le in H1, H2. by apply bool_decide_eq_true in H3.
Qed.

Lemma bounds_cover_spec d c :
  bounds_cover d = true → in_shape (bd_shape d) c = true →
  ∃ k, k < bd_total_chunks d
       ∧ is_Some (region_coord (bd_shape d)
                    (global_chunk_bounds d (idx_from_flat d k)) c).
Proof.
  intros Hcov Hc. unfold bounds_cover in Hcov. rewrite forallb_forall in Hcov.
  specialize (Hcov c). rewrite <- list_elem_of_In, <- in_shape_coords in Hcov.
  specialize (Hcov Hc). apply existsb_exists in Hcov as (k & Hk & Hr).
  rewrite <- list_elem_of_In, elem_of_seq in Hk.
  apply bool_decide_eq_true in Hr. exists k. split; [lia|done].
Qed.

(** ** Reassembly of a loaded dataset *)

Lemma reassemble_loaded (dss : DsState) (data : ndarray) :
  let d := dss_handle dss in
  shape data = bd_shape d → chunks_wf dss →
  bounds_fit d = true → bounds_cover d = true →
  (∀ k, k < bd_total_chunks d → loaded d data dss k) →
  ∃ a, reassemble dss = Some a ∧ array_eq a data.
Proof.
  intros d Hshape Hwf Hfit Hcov Hloaded. unfold reassemble. fold d.
  set (step := λ (out : option ndarray) (k : nat), _).
  assert (∀ ks, (∀ k, k ∈ ks → k < bd_total_chunks d) →
            ∃ a, foldl step (Some (full (bd_shape d) (bd_fillvalue d))) ks = Some a
                 ∧ shape a = bd_shape d
                 ∧ ∀ c, in_shape (bd_shape d) c = true →
                        (∃ k, k ∈ ks ∧ is_Some (region_coord (bd_shape d)
                                (global_chunk_bounds d (idx_from_flat d k)) c)) →
                        item a c = item data c) as Hfold.
  { induction ks as [|k ks IH] using rev_ind; intros Hks.
    - eexists. split; [done|]. split; [done|].
      intros c _ (k & Hk & _). by apply elem_of_nil in Hk.
    - destruct IH as (a & Ha & Hsa & Hitems).
      { intros k' Hk'. apply Hks, elem_of_app. by left. }
      assert (k < bd_total_chunks d) as Hk
        by (apply Hks, elem_of_app; right; by apply list_elem_of_singleton).
      destruct (bounds_fit_spec d k Hfit Hk) as (Hg & Hl & Hgl).
      rewrite foldl_app, Ha. cbn [foldl]. unfold step at 1.
      cbn [mbind option_bind].
      rewrite getitem_Some
        by (by rewrite chunk_contents_shape by done).
      cbn [mbind option_bind].
      rewrite setitem_Some
        by (cbn [shape]; rewrite ?chunk_contents_shape, ?Hsa by done; done).
      eexists. split; [done|]. split; [done|].
      intros c Hc Hex. cbn [item shape].
      rewrite chunk_contents_shape by done. fold d. rewrite Hsa.
      destruct (region_coord (bd_shape d)
                  (global_chunk_bounds d (idx_from_flat d k)) c) as [c'|] eqn:Hr.
      + destruct (region_coord_inv _ _ _ _ Hg Hc Hr) as [Hback Hin].
        rewrite Hgl in Hin. rewrite (Hloaded k Hk c' Hin). by rewrite Hback.
      + apply Hitems; [done|]. destruct Hex as (k' & Hk' & Hsome).
        apply elem_of_app in Hk' as [Hk'|Hk']; [eauto|].
        apply list_elem_of_singleton in Hk'. subst k'.
        rewrite Hr in Hsome. by destruct Hsome. }
  destruct (Hfold (seq 0 (bd_total_chunks d))) as (a & Ha & Hsa & Hitems).
  { intros k Hk. apply elem_of_seq in Hk. lia. }
  exists a. split; [done|]. split; [by rewrite Hsa|].
  intros c Hc. rewrite Hsa in Hc. apply Hitems; [done|].
  destruct (bounds_cover_spec d c Hcov Hc) as (k & Hk & Hsome).
  exists k. split; [|done]. apply elem_of_seq. lia.
Qed.
End bounds.

(** ** [load] as a bulk phase *)

Section load_phase.
Context `{Bounds} (P : nat) (d : bDataset) (data : ndarray).
Hypothesis HP : 0 < P.
Hypothesis Hshape : shape data = bd_shape d.
Hypothesis Hfit : bounds_fit d = true.

Local Abbreviation T := (bd_total_chunks d).

Lemma load_is_load_prog r :
  MpiDataset.load (MpiDataset.init d {| Get_rank := r; Get_size := P |}) (PArr data)
  = load_prog d data (todo r T P 0).
Proof.
  unfold MpiDataset.load, MpiDataset.shape. cbn [MpiDataset.instance MpiDataset.init].
  rewrite bool_decide_eq_false_2 by (by intros ?).
  unfold MpiDataset.total_chunks.
  cbn [MpiDataset.instance MpiDataset.init MpiDataset.mpi MpiMixin_init
       mpi_rank mpi_size Get_rank Get_size].
  by rewrite for_range_todo.
Qed.

Lemma loaded_after_write dss a k k' :
  chunks_wf dss → dss_handle dss = d → k < T →
  idx_from_flat d k' = idx_from_flat d k →
  let idx := idx_from_flat d k in
  item a = (λ c, match region_coord (bd_chunk_size d) (local_chunk_bounds d idx) c with
                 | Some c' => item data (sliced_coord (bd_shape d)
                                           (global_chunk_bounds d idx) c')
                 | None => item (chunk_contents dss idx) c
                 end) →
  loaded d data (write_chunk dss idx a) k'.
Proof.
  intros Hwf Hd Hk Heq idx Ha. unfold loaded. rewrite Heq. fold idx.
  intros c Hc. rewrite chunk_contents_write_eq, Ha.
  destruct (bounds_fit_spec d k Hfit Hk) as (Hg & Hl & Hgl).
  by rewrite region_coord_sliced.
Qed.

Lemma load_step_ok ms st r m :
  length ms = P → load_rel P d data ms st → ms !! r = Some m →
  m < range_len r T P →
  ∃ X (c : callE X) k x st',
    load_prog d data (todo r T P m) = Call c k ∧ exec c st = (inr x, st')
    ∧ k x = load_prog d data (todo r T P (m + 1))
    ∧ load_rel P d data (<[r := m + 1]> ms) st'.
Proof.
  intros Hlen (dss & Hlook & Hd & Hwf & Hdone) Hm Hlt.
  pose proof (lookup_lt_Some _ _ _ Hm) as Hr.
  assert (r + m * P < T) as Hk by (by apply range_len_spec).
  set (k0 := r + m * P) in *. set (idx := idx_from_flat d k0).
  destruct (bounds_fit_spec d k0 Hfit Hk) as (Hg & Hl & Hgl). fold idx in Hg, Hl, Hgl.
  assert (shape (chunk_contents dss idx) = bd_chunk_size d) as Hcs
    by (by rewrite chunk_contents_shape, Hd).
  set (sub := {| shape := sliced_shape (shape data) (global_chunk_bounds d idx);
                 item := λ c, item data (sliced_coord (shape data)
                                           (global_chunk_bounds d idx) c) |}).
  assert (getitem data (global_chunk_bounds d idx) = Some sub) as Hsub
    by (apply getitem_Some; by rewrite Hshape).
  set (a := {| shape := shape (chunk_contents dss idx);
               item := λ c, match region_coord (shape (chunk_contents dss idx))
                                    (local_chunk_bounds d idx) c with
                            | Some c' => item sub c'
                            | None => item (chunk_contents dss idx) c
                            end |}).
  assert (setitem (chunk_contents dss idx) (Some (local_chunk_bounds d idx)) sub
          = Some a) as Hset.
  { apply setitem_Some; [by rewrite Hcs|]. subst sub. cbn [shape].
    by rewrite Hshape, Hcs. }
  exists unit, (DsSetChunkData d idx sub (Some (local_chunk_bounds d idx))),
    (λ _, load_prog d data (todo r T P (m + 1))), tt,
    (update_ds st d (write_chunk dss idx a)).
  split.
  { rewrite todo_cons by done. unfold load_prog. cbn [for_each].
    fold k0.
    assert (load_body d data k0
            = call (DsSetChunkData d idx sub (Some (local_chunk_bounds d idx))))
      as -> by (unfold load_body; cbv zeta; fold idx; by rewrite Hsub).
    reflexivity. }
  split; [by apply exec_set_chunk_data|]. split; [done|].
  exists (write_chunk dss idx a).
  split; [by eapply lookup_update_ds_eq|]. split; [done|].
  split; [apply chunks_wf_write; [done|by rewrite Hd]|].
  intros r' m' j Hm' Hj.
  destruct (decide (idx_from_flat d (r' + j * P) = idx)) as [Heq|Hne].
  - apply (loaded_after_write dss a k0 (r' + j * P) Hwf Hd Hk Heq).
    subst a sub. cbn [item]. by rewrite Hcs, Hshape.
  - assert (loaded d data dss (r' + j * P)) as Hold.
    { destruct (decide (r' = r)) as [->|Hrr].
      - rewrite list_lookup_insert_eq in Hm' by lia. simplify_eq.
        destruct (decide (j = m)) as [->|]; [done|].
        apply (Hdone r m j); [done|lia].
      - rewrite list_lookup_insert_ne in Hm' by done. by apply (Hdone r' m' j). }
    unfold loaded in *. intros c Hc.
    rewrite chunk_contents_write_ne by done. by apply Hold.
Qed.

Lemma load_last_ok r :
  load_prog d data (todo r T P (range_len r T P)) = Barrier (Ret tt).
Proof. by rewrite todo_nil. Qed.

Lemma load_initial st dss :
  lookup_ds st d = Some dss → dss_handle dss = d → chunks_wf dss →
  phase_inv P (λ r, range_len r T P) (λ r m, load_prog d data (todo r T P m))
    (λ _, tt) (load_rel P d data)
    (spmd P (λ comm, MpiDataset.load (MpiDataset.init d comm) (PArr data)), st).
Proof.
  intros Hlook Hd Hwf. left. exists (replicate P 0).
  split; [by rewrite length_replicate|]. split.
  { intros r m [-> _]%lookup_replicate. lia. }
  split.
  - cbn [fst]. unfold spmd. apply list_eq. intros r.
    rewrite list_lookup_fmap, list_lookup_imap.
    destruct (decide (r < P)).
    + rewrite lookup_seq_lt, lookup_replicate_2 by done.
      cbn [fmap option_fmap option_map Nat.add]. f_equal.
      apply load_is_load_prog.
    + rewrite lookup_seq_ge by lia.
      symmetry. cbn [fmap option_fmap option_map].
      assert (replicate P 0 !! r = None) as -> by (apply lookup_replicate_None; lia).
      done.
  - exists dss. repeat split; try done.
    intros r m j [-> _]%lookup_replicate Hj. lia.
Qed.

Lemma load_final st :
  load_rel P d data ((λ r, range_len r T P) <$> seq 0 P) st →
  ∃ dss', lookup_ds st d = Some dss' ∧ dss_handle dss' = d ∧ chunks_wf dss'
          ∧ ∀ k, k < T → loaded d data dss' k.
Proof.
  intros (dss' & Hlook & Hd & Hwf & Hdone). exists dss'.
  repeat split; try done. intros k Hk.
  destruct (ordinal_position T P k HP Hk) as (Heq & Hr & Hj).
  rewrite Heq. apply (Hdone (k mod P) (range_len (k mod P) T P) (k / P)); [|done].
  rewrite list_lookup_fmap, lookup_seq_lt by done. done.
Qed.
End load_phase.

(** C3: when every rank of a group loads an array of the dataset's shape,
    then under every schedule, once all ranks have stopped they have all
    returned and the chunks in the store reassemble to exactly that array;
    and some schedule brings all ranks to return.  The bounds collaborator
    is required to give, for every chunk, slices of equal extent in dataset
    and chunk, and regions that together cover the dataset. *)
Theorem load_round_trip `{Bounds} (P : nat) (d : bDataset) (data : ndarray)
    (st : Store) (dss : DsState) :
  0 < P → shape data = bd_shape d →
  lookup_ds st d = Some dss → dss_handle dss = d → chunks_wf dss →
  bounds_fit d = true → bounds_cover d = true →
  let g0 := (spmd P (λ comm, MpiDataset.load (MpiDataset.init d comm) (PArr data)),
             st) in
  (∀ sched,
     forallb stopped (grun sched g0).1 = true →
     (grun sched g0).1 = replicate P (Ret tt)
     ∧ ∃ dss' a, lookup_ds (grun sched g0).2 d = Some dss'
                 ∧ reassemble dss' = Some a ∧ array_eq a data)
  ∧ (∃ sched, (grun sched g0).1 = replicate P (Ret tt)).
Proof.
  intros HP Hshape Hlook Hd Hwf Hfit Hcov g0.
  pose proof (load_initial P d data HP Hshape st dss Hlook Hd Hwf) as Hinit.
  fold g0 in Hinit.
  pose proof (λ X (x : X), fmap_const_seq (Ret x) 0 P) as Hrep.
  split.
  - intros sched Hstop.
    pose proof (phase_run P _ _ _ _
                  (load_step_ok P d data HP Hshape Hfit)
                  (λ r _, load_last_ok P d data r) sched g0 Hinit) as Hinv.
    destruct (phase_stopped P _ _ _ _
                (load_step_ok P d data HP Hshape Hfit)
                (λ r _, load_last_ok P d data r) _ HP Hinv Hstop) as [Hps Hrel].
    split; [by rewrite Hps, Hrep|].
    destruct (load_final P d data HP _ Hrel) as (dss' & Hl' & Hd' & Hwf' & Hall).
    destruct (reassemble_loaded dss' data) as (a & Ha & Heq); rewrite ?Hd'; try done.
    by exists dss', a.
  - destruct (phase_live P _ _ _ _
                (load_step_ok P d data HP Hshape Hfit)
                (λ r _, load_last_ok P d data r) g0 Hinit) as [sched Hs].
    exists sched. by rewrite Hs, Hrep.
Qed.

(** ** [map] and [apply] as a bulk phase *)

Lemma even_double n : Nat.even (2 * n) = true.
Proof. apply Nat.even_spec. by exists n. Qed.

Lemma even_double_succ n : Nat.even (2 * n + 1) = false.
Proof.
  destruct (Nat.even (2 * n + 1)) eqn:He; [|done].
  apply Nat.even_spec in He as [k Hk]. lia.
Qed.

Lemma half_double n : 2 * n / 2 = n.
Proof. rewrite Nat.mul_comm. apply Nat.div_mul. lia. Qed.

Lemma half_double_succ n : (2 * n + 1) / 2 = n.
Proof.
  rewrite (Nat.mul_comm 2 n), Nat.div_add_l by lia.
  rewrite (Nat.div_small 1 2) by lia. lia.
Qed.

Lemma double_cases m : (∃ n, m = 2 * n) ∨ (∃ n, m = 2 * n + 1).
Proof.
  destruct (Nat.Even_or_Odd m) as [[n ->]|[n ->]]; [left|right]; by exists n.
Qed.

Lemma ordinal_of_position r n P :
  r < P → (r + n * P) mod P = r ∧ (r + n * P) / P = n.
Proof.
  intros Hr. split.
  - rewrite Nat.Div0.mod_add. by apply Nat.mod_small.
  - rewrite Nat.div_add by lia. rewrite (Nat.div_small r P) by lia. lia.
Qed.

Section transform_phase.
Context `{Bounds} {A : Type} (P : nat) (src dst : bDataset)
        (func : ndarray → ndarray) (st0 : Store) (dss0 : DsState)
        (v : nat → A).
Hypothesis HP : 0 < P.
Hypothesis Hsd :
  dst = src ∨ (bp_name (bd_pool dst), bd_name dst)
              ≠ (bp_name (bd_pool src), bd_name src).
Hypothesis Hcs : bd_chunk_size dst = bd_chunk_size src.
Hypothesis Hd0 : dss_handle dss0 = src.
Hypothesis Hwf0 : chunks_wf dss0.
Hypothesis Hfunc : ∀ a, shape (func a) = shape a.
Hypothesis Hinj : flat_injective src = true.

Local Abbreviation T := (bd_total_chunks src).
Local Abbreviation orig := (chunk_contents dss0).
Local Abbreviation prog_of := (transform_at P src dst func orig v).
Local Abbreviation rel := (transform_rel P src dst func st0 orig).

Lemma flat_injective_spec k k' :
  k < T → k' < T → idx_from_flat src k = idx_from_flat src k' → k = k'.
Proof.
  intros Hk Hk' Heq. pose proof Hinj as Hnd. unfold flat_injective in Hnd.
  apply bool_decide_eq_true in Hnd.
  eapply (NoDup_lookup _ k k' (idx_from_flat src k) Hnd).
  - rewrite list_lookup_fmap, lookup_seq_lt by done. done.
  - rewrite list_lookup_fmap, lookup_seq_lt by done. simpl. by rewrite Heq.
Qed.

Lemma transform_read_step r n :
  n < range_len r T P →
  prog_of r (2 * n)
  = Call (DsGetChunkData src (idx_from_flat src (r + n * P)))
      (λ x, transform_mid src dst func (v r) x (r + n * P) (todo r T P (n + 1))).
Proof.
  intros Hn. unfold transform_at.
  rewrite even_double, half_double, todo_cons by done. reflexivity.
Qed.

Lemma transform_write_step r n :
  prog_of r (2 * n + 1)
  = Call (DsSetChunkData dst (idx_from_flat src (r + n * P))
            (func (orig (idx_from_flat src (r + n * P)))) None)
      (λ _, prog_of r (2 * n + 1 + 1)).
Proof.
  unfold transform_at.
  replace (2 * n + 1 + 1) with (2 * (n + 1)) by lia.
  rewrite even_double_succ, half_double_succ, even_double, half_double.
  reflexivity.
Qed.

Lemma written_insert_other ms r m k :
  k mod P ≠ r → written P (<[r := m]> ms) k = written P ms k.
Proof. intros Hne. unfold written. by rewrite list_lookup_insert_ne. Qed.

Lemma transform_step_ok ms st r m :
  length ms = P → rel ms st → ms !! r = Some m →
  m < 2 * range_len r T P →
  ∃ X (c : callE X) k x st',
    prog_of r m = Call c k ∧ exec c st = (inr x, st')
    ∧ k x = prog_of r (m + 1) ∧ rel (<[r := m + 1]> ms) st'.
Proof.
  intros Hlen (Hframe & dss_s & dss_d & Hls & Hld & Hhd & Hwfd & Hall) Hm Hlt.
  pose proof (lookup_lt_Some _ _ _ Hm) as Hr. rewrite Hlen in Hr.
  destruct (double_cases m) as [[n ->]|[n ->]].
  - (* the read *)
    assert (n < range_len r T P) as Hn by lia.
    assert (r + n * P < T) as Hk by (by apply range_len_spec).
    destruct (ordinal_of_position r n P Hr) as [Hmod Hdiv].
    exists ndarray, (DsGetChunkData src (idx_from_flat src (r + n * P))),
      (λ x, transform_mid src dst func (v r) x (r + n * P) (todo r T P (n + 1))),
      (chunk_contents dss_s (idx_from_flat src (r + n * P))), st.
    split; [by apply transform_read_step|].
    split; [by apply exec_get_chunk_data|].
    assert (chunk_contents dss_s (idx_from_flat src (r + n * P))
            = orig (idx_from_flat src (r + n * P))) as Hread.
    { specialize (Hall _ Hk). unfold written in Hall.
      rewrite Hmod, Hm, Hdiv in Hall.
      by destruct (Nat.leb_spec (2 * n + 2) (2 * n)); [lia|]. }
    split.
    { rewrite Hread. unfold transform_at.
      by rewrite even_double_succ, half_double_succ. }
    split; [done|]. exists dss_s, dss_d. repeat split; try done.
    intros k Hk'. specialize (Hall k Hk'). unfold written in *.
    destruct (decide (k mod P = r)) as [Hkr|Hkr].
    + rewrite Hkr, list_lookup_insert_eq by lia. rewrite Hkr, Hm in Hall.
      destruct (Nat.leb_spec (2 * (k / P) + 2) (2 * n)),
               (Nat.leb_spec (2 * (k / P) + 2) (2 * n + 1)); try done; lia.
    + by rewrite list_lookup_insert_ne.
  - (* the write *)
    assert (n < range_len r T P) as Hn by lia.
    assert (r + n * P < T) as Hk by (by apply range_len_spec).
    destruct (ordinal_of_position r n P Hr) as [Hmod Hdiv].
    set (k0 := r + n * P) in Hk, Hmod, Hdiv |- *.
    set (idx := idx_from_flat src k0).
    assert (setitem (chunk_contents dss_d idx) None (func (orig idx))
            = Some (func (orig idx))) as Hset.
    { unfold setitem. rewrite decide_True; [done|].
      rewrite Hfunc, !chunk_contents_shape by done. by rewrite Hhd, Hd0, Hcs. }
    exists unit, (DsSetChunkData dst idx (func (orig idx)) None),
      (λ _, prog_of r (2 * n + 1 + 1)), tt,
      (update_ds st dst (write_chunk dss_d idx (func (orig idx)))).
    split; [by apply transform_write_step|].
    split; [by apply exec_set_chunk_data|]. split; [done|].
    split.
    { intros p nm Hne. rewrite ds_at_update_ds_ne by done. by apply Hframe. }
    set (dss_d' := write_chunk dss_d idx (func (orig idx))).
    assert (lookup_ds (update_ds st dst dss_d') dst = Some dss_d') as Hld'
      by (by eapply lookup_update_ds_eq).
    assert (∃ dss_s', lookup_ds (update_ds st dst dss_d') src = Some dss_s'
              ∧ ∀ k, k < T → k ≠ k0 →
                     chunk_contents dss_s' (idx_from_flat src k)
                     = chunk_contents dss_s (idx_from_flat src k))
      as (dss_s' & Hls' & Hsame).
    { destruct Hsd as [Heq|Hne].
      - exists dss_d'. split; [by rewrite <- Heq|].
        intros k Hk' Hkk.
        assert (dss_s = dss_d) as ->
          by (rewrite <- Heq, Hld in Hls; by injection Hls).
        subst dss_d'. apply chunk_contents_write_ne. subst idx.
        intros Hidx. apply Hkk. symmetry. by apply flat_injective_spec.
      - exists dss_s. split; [|done]. unfold lookup_ds.
        rewrite ds_at_update_ds_ne by (by intros ?; apply Hne). done. }
    exists dss_s', dss_d'. repeat split; try done.
    { by apply chunks_wf_write; [|rewrite Hfunc, chunk_contents_shape, Hd0, Hhd, Hcs]. }
    intros k Hk'. specialize (Hall k Hk').
    destruct (decide (k = k0)) as [->|Hkk].
    + unfold written. rewrite Hmod, list_lookup_insert_eq by lia. rewrite Hdiv.
      destruct (Nat.leb_spec (2 * n + 2) (2 * n + 1 + 1)); [|lia].
      subst dss_d'. by rewrite chunk_contents_write_eq.
    + assert (written P (<[r := 2 * n + 1 + 1]> ms) k = written P ms k) as ->.
      { destruct (decide (k mod P = r)) as [Hkr|Hkr];
          [|by apply written_insert_other].
        unfold written. rewrite Hkr, list_lookup_insert_eq, Hm by lia.
        assert (k / P ≠ n).
        { intros Hdv. apply Hkk. subst k0.
          pose proof (Nat.div_mod_eq k P). lia. }
        destruct (Nat.leb_spec (2 * (k / P) + 2) (2 * n + 1 + 1)),
                 (Nat.leb_spec (2 * (k / P) + 2) (2 * n + 1)); try done; lia. }
      destruct (written P ms k).
      * subst dss_d'. rewrite chunk_contents_write_ne; [done|]. subst idx.
        intros Hidx. apply Hkk. symmetry. by apply flat_injective_spec.
      * by rewrite Hsame.
Qed.

Lemma transform_last_ok r :
  prog_of r (2 * range_len r T P) = Barrier (Ret (v r)).
Proof.
  unfold transform_at. by rewrite even_double, half_double, todo_nil.
Qed.

Lemma transform_final st :
  rel ((λ r, 2 * range_len r T P) <$> seq 0 P) st →
  (∀ p n, (p, n) ≠ (bp_name (bd_pool dst), bd_name dst) →
          ds_at st p n = ds_at st0 p n)
  ∧ ∃ dss_d, lookup_ds st dst = Some dss_d ∧ dss_handle dss_d = dst
             ∧ ∀ k, k < T → chunk_contents dss_d (idx_from_flat src k)
                             = func (orig (idx_from_flat src k)).
Proof.
  intros (Hframe & dss_s & dss_d & Hls & Hld & Hhd & Hwfd & Hall).
  split; [done|]. exists dss_d. repeat split; try done.
  intros k Hk. specialize (Hall k Hk). unfold written in Hall.
  destruct (ordinal_position T P k HP Hk) as (Heq & Hr & Hj).
  rewrite list_lookup_fmap, lookup_seq_lt in Hall by done.
  cbn [fmap option_fmap option_map Nat.add] in Hall.
  assert ((2 * (k / P) + 2 <=? 2 * range_len (k mod P) T P) = true) as Hle
    by (apply Nat.leb_le; lia).
  by rewrite Hle in Hall.
Qed.
End transform_phase.

Lemma apply_is_transform `{Bounds} (P : nat) (d : bDataset)
    (func : ndarray → ndarray) (orig : list nat → ndarray) (r : nat) :
  0 < P →
  MpiDataset.apply (MpiDataset.init d {| Get_rank := r; Get_size := P |}) func
  = transform_at P d d func orig (λ _, tt) r 0.
Proof.
  intros HP. unfold MpiDataset.apply, MpiDataset.total_chunks, transform_at.
  cbn [MpiDataset.instance MpiDataset.init MpiDataset.mpi MpiMixin_init
       mpi_rank mpi_size Get_rank Get_size Nat.even].
  rewrite for_range_todo by done. reflexivity.
Qed.

Lemma apply_group `{Bounds} (P : nat) (d : bDataset) (func : ndarray → ndarray)
    (st : Store) (dss : DsState) :
  0 < P → lookup_ds st d = Some dss → dss_handle dss = d → chunks_wf dss →
  (∀ a, shape (func a) = shape a) → flat_injective d = true →
  let g0 := (spmd P (λ comm, MpiDataset.apply (MpiDataset.init d comm) func), st) in
  (∀ sched,
     forallb stopped (grun sched g0).1 = true →
     (grun sched g0).1 = replicate P (Ret tt)
     ∧ (∀ p n, (p, n) ≠ (bp_name (bd_pool d), bd_name d) →
               ds_at (grun sched g0).2 p n = ds_at st p n)
     ∧ ∃ dss', lookup_ds (grun sched g0).2 d = Some dss' ∧ dss_handle dss' = d
               ∧ ∀ k, k < bd_total_chunks d →
                      chunk_contents dss' (idx_from_flat d k)
                      = func (chunk_contents dss (idx_from_flat d k)))
  ∧ (∃ sched, (grun sched g0).1 = replicate P (Ret tt)).
Proof.
  intros HP Hlook Hd Hwf Hfunc Hinj g0.
  pose proof (transform_step_ok P d d func st dss (λ _, tt) HP (or_introl eq_refl)
                eq_refl Hd Hwf Hfunc Hinj) as Hstep.
  pose proof (λ r (_ : r < P),
                transform_last_ok (A := unit) P d d func dss (λ _, tt) r) as Hlast.
  assert (phase_inv P (λ r, 2 * range_len r (bd_total_chunks d) P)
            (transform_at P d d func (chunk_contents dss) (λ _, tt)) (λ _, tt)
            (transform_rel P d d func st (chunk_contents dss)) g0) as Hinit.
  { subst g0. left. exists (replicate P 0).
    split; [by rewrite length_replicate|]. split.
    { intros r m [-> _]%lookup_replicate. lia. }
    split.
    - cbn [fst]. unfold spmd. apply list_eq. intros r.
      rewrite list_lookup_fmap, list_lookup_imap.
      destruct (decide (r < P)).
      + rewrite lookup_seq_lt, lookup_replicate_2 by done.
        cbn [fmap option_fmap option_map Nat.add]. f_equal.
        by apply apply_is_transform.
      + rewrite lookup_seq_ge by lia.
        assert (replicate P 0 !! r = None) as ->
          by (apply lookup_replicate_None; lia).
        done.
    - split; [done|]. exists dss, dss. repeat split; try done.
      intros k Hk. unfold written.
      destruct (replicate P 0 !! (k mod P)) as [m|] eqn:Hm; [|done].
      apply lookup_replicate in Hm as [-> _].
      by destruct (Nat.leb_spec (2 * (k / P) + 2) 0); [lia|]. }
  pose proof (λ X (x : X), fmap_const_seq (Ret x) 0 P) as Hrep.
  split.
  - intros sched Hstop.
    pose proof (phase_run P _ _ _ _ Hstep Hlast sched g0 Hinit) as Hinv.
    destruct (phase_stopped P _ _ _ _ Hstep Hlast _ HP Hinv Hstop) as [Hps Hrel].
    split; [by rewrite Hps, Hrep|].
    by apply (transform_final P d d func st dss HP) in Hrel.
  - destruct (phase_live P _ _ _ _ Hstep Hlast g0 Hinit) as [sched Hs].
    exists sched. by rewrite Hs, Hrep.
Qed.

(** C6: when every rank of a group applies a shape-preserving [func], then
    under every schedule, once all ranks have stopped they have all returned,
    every chunk of the dataset holds [func] of what it held before, and no
    other dataset of the store has been created, removed or changed; some
    schedule brings all ranks to return.  With the identity for [func] every
    chunk holds what it held before. *)
Theorem apply_in_place `{Bounds} (P : nat) (d : bDataset) (st : Store)
    (dss : DsState) :
  0 < P → lookup_ds st d = Some dss → dss_handle dss = d → chunks_wf dss →
  flat_injective d = true →
  (∀ func : ndarray → ndarray,
     (∀ a, shape (func a) = shape a) →
     let g0 := (spmd P (λ comm, MpiDataset.apply (MpiDataset.init d comm) func),
                st) in
     (∀ sched,
        forallb stopped (grun sched g0).1 = true →
        (grun sched g0).1 = replicate P (Ret tt)
        ∧ (∀ p n, (p, n) ≠ (bp_name (bd_pool d), bd_name d) →
                  ds_at (grun sched g0).2 p n = ds_at st p n)
        ∧ ∃ dss', lookup_ds (grun sched g0).2 d = Some dss' ∧ dss_handle dss' = d
                  ∧ ∀ k, k < bd_total_chunks d →
                         chunk_contents dss' (idx_from_flat d k)
                         = func (chunk_contents dss (idx_from_flat d k)))
     ∧ (∃ sched, (grun sched g0).1 = replicate P (Ret tt)))
  ∧ (let g0 := (spmd P (λ comm, MpiDataset.apply (MpiDataset.init d comm) (λ a, a)),
                st) in
     ∀ sched,
       forallb stopped (grun sched g0).1 = true →
       ∃ dss', lookup_ds (grun sched g0).2 d = Some dss'
               ∧ ∀ k, k < bd_total_chunks d →
                      chunk_contents dss' (idx_from_flat d k)
                      = chunk_contents dss (idx_from_flat d k)).
Proof.
  intros HP Hlook Hd Hwf Hinj. split.
  - intros func Hfunc. by apply apply_group.
  - intros g0 sched Hstop.
    destruct (apply_group P d (λ a, a) st dss HP Hlook Hd Hwf (λ _, eq_refl) Hinj)
      as [Hall _].
    destruct (Hall sched Hstop) as (_ & _ & dss' & Hl' & _ & Hk). eauto.
Qed.

(** ** [clone] on the store *)

Lemma clone_kwargs_lookup d :
  clone_kwargs d !! "shape" = Some (PTuple (bd_shape d))
  ∧ clone_kwargs d !! "dtype" = Some (PStr (bd_dtype d))
  ∧ clone_kwargs d !! "chunks" = Some (PTuple (bd_chunk_size d))
  ∧ clone_kwargs d !! "fillvalue" = Some (PInt (bd_fillvalue d)).
Proof.
  unfold clone_kwargs. by repeat split.
Qed.

Lemma new_dataset_clone d n :
  handle_ok d = true → new_dataset (bd_pool d) n (clone_kwargs d) = inr (renamed d n).
Proof.
  intros Hok. unfold handle_ok in Hok.
  apply andb_prop in Hok as [[H1 H2]%andb_prop H3]. apply Nat.eqb_eq in H3.
  destruct (clone_kwargs_lookup d) as (Hs & Hd & Hc & Hf).
  unfold new_dataset. rewrite Hs, Hd, Hc, Hf, H1, H2. simpl.
  unfold renamed. by rewrite H3.
Qed.

Lemma exec_clone_create st d n dss :
  lookup_ds st d = Some dss → ds_at st (bp_name (bd_pool d)) n = None →
  handle_ok d = true →
  exec (PoolCreateDataset (bd_pool d) [PStr n] (clone_kwargs d)) st
  = (inr (renamed d n), clone_store st d n).
Proof.
  intros Hl Hfresh Hok. unfold lookup_ds, ds_at, clone_store in *. simpl.
  destruct (st !! bp_name (bd_pool d)) as [pool|]; [|done].
  simpl in Hfresh. rewrite Hfresh. by rewrite new_dataset_clone.
Qed.

Lemma clone_store_lookup_new st d n dss :
  lookup_ds st d = Some dss →
  lookup_ds (clone_store st d n) (renamed d n)
  = Some {| dss_handle := renamed d n; dss_chunks := ∅ |}.
Proof.
  unfold lookup_ds, ds_at, clone_store. simpl. intros Hl.
  destruct (st !! bp_name (bd_pool d)) as [pool|]; [|done].
  rewrite lookup_insert_eq. simpl. by rewrite lookup_insert_eq.
Qed.

Lemma clone_store_ds_at_other st d n p m :
  (p, m) ≠ (bp_name (bd_pool d), n) →
  ds_at (clone_store st d n) p m = ds_at st p m.
Proof.
  unfold ds_at, clone_store. intros Hne.
  destruct (st !! bp_name (bd_pool d)) as [pool|] eqn:Hp; [|done].
  destruct (decide (p = bp_name (bd_pool d))) as [->|Hpn].
  - rewrite lookup_insert_eq, Hp. simpl.
    rewrite lookup_insert_ne; [done|]. congruence.
  - by rewrite lookup_insert_ne.
Qed.

Lemma fresh_name_differs st d n dss :
  lookup_ds st d = Some dss → ds_at st (bp_name (bd_pool d)) n = None →
  (bp_name (bd_pool d), n) ≠ (bp_name (bd_pool d), bd_name d).
Proof. unfold lookup_ds. intros Hl Hn Heq. congruence. Qed.

(** ** A group around the broadcast *)

Section clone_phase.
Context {A : Type} (P : nat) (d : bDataset) (n : string) (st : Store)
        (cont : nat → bDataset → Prog A) (After : gstate A → Prop).
Hypothesis HP : 0 < P.
Hypothesis Hexec :
  exec (PoolCreateDataset (bd_pool d) [PStr n] (clone_kwargs d)) st
  = (inr (renamed d n), clone_store st d n).
Hypothesis After_step : ∀ r g, After g → After (gstep r g).
Hypothesis After_init :
  After ((λ r, cont r (renamed d n)) <$> seq 0 P, clone_store st d n).

Local Abbreviation inv :=
  (clone_inv P d (PStr n) (renamed d n) st (clone_store st d n) cont After).

Lemma clone_first_step :
  gstep 0 ((λ r, clone_then d (PStr n) (cont r) r) <$> seq 0 P, st)
  = ((λ r, Bcast (if r =? 0 then Some (renamed d n) else None) (cont r))
       <$> seq 0 P, clone_store st d n).
Proof.
  erewrite gstep_call;
    [|cbn [fst]; rewrite list_lookup_fmap, lookup_seq_lt by done; reflexivity
     |exact Hexec].
  cbn [fst].
  f_equal. apply list_eq. intros r.
  destruct (decide (r = 0)) as [->|Hr].
  - rewrite list_lookup_insert_eq by (rewrite length_fmap, length_seq; lia).
    by rewrite list_lookup_fmap, lookup_seq_lt by done.
  - rewrite list_lookup_insert_ne by done. rewrite !list_lookup_fmap.
    destruct (seq 0 P !! r) as [r'|] eqn:Hr'; [|done].
    apply lookup_seq in Hr' as [-> _]. simpl. unfold clone_then.
    by destruct (Nat.eqb_spec r 0).
Qed.

Lemma clone_bcast_step r :
  r < P →
  gstep r ((λ r, Bcast (if r =? 0 then Some (renamed d n) else None) (cont r))
             <$> seq 0 P, clone_store st d n)
  = ((λ r, cont r (renamed d n)) <$> seq 0 P, clone_store st d n).
Proof.
  intros Hr. unfold gstep. cbn [fst snd].
  rewrite list_lookup_fmap, lookup_seq_lt by done. cbn [fmap option_fmap option_map].
  assert (forallb at_bcast
            ((λ r, Bcast (if r =? 0 then Some (renamed d n) else None) (cont r))
               <$> seq 0 P) = true) as ->.
  { apply forallb_forall. intros p Hp.
    apply list_elem_of_In, list_elem_of_fmap in Hp as (? & -> & _). done. }
  rewrite list_lookup_fmap, lookup_seq_lt by done.
  cbn [fmap option_fmap option_map Nat.add Nat.eqb].
  f_equal. rewrite <- list_fmap_compose. by apply list_fmap_ext.
Qed.

Lemma clone_inv_step r g : inv g → inv (gstep r g).
Proof.
  intros [->|[->|Hafter]].
  - destruct (decide (r = 0)) as [->|Hr0].
    { right; left. apply clone_first_step. }
    left. unfold gstep. cbn [fst snd]. rewrite list_lookup_fmap.
    destruct (seq 0 P !! r) as [r'|] eqn:Hr'; [|done].
    apply lookup_seq in Hr' as [-> _]. simpl. unfold clone_then at 1.
    destruct (Nat.eqb_spec r 0); [done|].
    assert (forallb at_bcast
              ((λ r, clone_then d (PStr n) (cont r) r) <$> seq 0 P) = false) as ->;
      [|done].
    destruct P as [|P']; [lia|]. done.
  - destruct (decide (r < P)).
    + right; right. rewrite clone_bcast_step by done. apply After_init.
    + right; left. apply gstep_none. cbn [fst].
      rewrite list_lookup_fmap, lookup_seq_ge by lia. done.
  - right; right. by apply After_step.
Qed.

Lemma clone_inv_run sched :
  inv (grun sched ((λ r, clone_then d (PStr n) (cont r) r) <$> seq 0 P, st)).
Proof. apply grun_invariant; [apply clone_inv_step|by left]. Qed.

Lemma clone_inv_stopped g :
  inv g → forallb stopped g.1 = true → After g.
Proof.
  intros [->|[->|Hafter]] Hstop; [| |done]; exfalso.
  - assert (stopped (clone_then d (PStr n) (cont 0) 0) = true) as Hs; [|done].
    apply (forallb_lookup _ _ 0 _ Hstop). cbn [fst].
    by rewrite list_lookup_fmap, lookup_seq_lt by done.
  - assert (stopped (Bcast (Some (renamed d n)) (cont 0)) = true) as Hs; [|done].
    apply (forallb_lookup _ _ 0 _ Hstop). cbn [fst].
    by rewrite list_lookup_fmap, lookup_seq_lt by done.
Qed.

Lemma clone_live (Q : gstate A → Prop) :
  (∀ g, After g → ∃ sched, Q (grun sched g)) →
  ∃ sched, Q (grun sched ((λ r, clone_then d (PStr n) (cont r) r) <$> seq 0 P, st)).
Proof.
  intros Hlive. destruct (Hlive _ After_init) as [sched Hs].
  exists ([0; 0] ++ sched). rewrite grun_app. unfold grun at 2. cbn [foldl].
  by rewrite clone_first_step, clone_bcast_step.
Qed.
End clone_phase.

Lemma for_range_todo_fun r T P : 0 < P → for_range r T P = for_each (todo r T P 0).
Proof.
  intros HP. unfold for_range, py_range, todo.
  destruct (Nat.eqb_spec P 0); [lia|]. by rewrite Nat.sub_0_r.
Qed.

Lemma clone_is_clone_then (P : nat) (d : bDataset) (output_name : pyval) (r : nat) :
  MpiDataset.clone (MpiDataset.init d {| Get_rank := r; Get_size := P |}) output_name
  = clone_then d output_name
      (λ out, Ret (MpiDataset.init out {| Get_rank := r; Get_size := P |})) r.
Proof.
  unfold MpiDataset.clone, clone_then, MpiDataset.shape, MpiDataset.dtype,
    MpiDataset.chunk_size, MpiDataset.fillvalue.
  cbn [MpiDataset.instance MpiDataset.init MpiDataset.mpi MpiMixin_init
       mpi_is_root mpi_comm Get_rank].
  by destruct (r =? 0).
Qed.

Lemma map_is_clone_then `{Bounds} (P : nat) (d : bDataset)
    (func : ndarray → ndarray) (output_name : pyval)
    (orig : list nat → ndarray) (r : nat) :
  0 < P →
  MpiDataset.map (MpiDataset.init d {| Get_rank := r; Get_size := P |})
    func output_name
  = clone_then d output_name
      (λ out, transform_at P d out func orig
                (λ r, MpiDataset.init out {| Get_rank := r; Get_size := P |}) r 0) r.
Proof.
  intros HP. unfold MpiDataset.map. rewrite clone_is_clone_then.
  unfold MpiDataset.total_chunks, transform_at.
  cbn [MpiDataset.instance MpiDataset.init MpiDataset.mpi MpiMixin_init
       mpi_rank mpi_size Get_rank Get_size Nat.even].
  rewrite for_range_todo_fun by done.
  unfold clone_then. by destruct (r =? 0).
Qed.

Lemma clone_group (P : nat) (d : bDataset) (n : string) (st : Store) (dss : DsState) :
  0 < P → lookup_ds st d = Some dss →
  ds_at st (bp_name (bd_pool d)) n = None → handle_ok d = true →
  let g0 := (spmd P (λ comm, MpiDataset.clone (MpiDataset.init d comm) (PStr n)), st) in
  let rets := (λ r, Ret (MpiDataset.init (renamed d n)
                           {| Get_rank := r; Get_size := P |})) <$> seq 0 P in
  (∀ sched, forallb stopped (grun sched g0).1 = true →
            grun sched g0 = (rets, clone_store st d n))
  ∧ (∃ sched, grun sched g0 = (rets, clone_store st d n)).
Proof.
  intros HP Hlook Hfresh Hok g0 rets.
  pose proof (exec_clone_create st d n dss Hlook Hfresh Hok) as Hexec.
  set (cont := λ (r : nat) (out : bDataset),
         Ret (MpiDataset.init out {| Get_rank := r; Get_size := P |})).
  set (After := λ g : gstate MpiDataset.t, g = (rets, clone_store st d n)).
  assert (g0 = ((λ r, clone_then d (PStr n) (cont r) r) <$> seq 0 P, st)) as Hg0.
  { subst g0. unfold spmd. f_equal. apply list_fmap_ext. intros i r _.
    apply clone_is_clone_then. }
  assert (∀ r g, After g → After (gstep r g)) as Hstep.
  { intros r g ->. apply gstep_stopped. cbn [fst]. subst rets.
    apply forallb_forall. intros p Hp.
    apply list_elem_of_In, list_elem_of_fmap in Hp as (? & -> & _). done. }
  assert (After ((λ r, cont r (renamed d n)) <$> seq 0 P, clone_store st d n))
    as Hinit by done.
  rewrite Hg0. split.
  - intros sched Hstop.
    apply (clone_inv_stopped P d n st cont After HP); [|done].
    by apply clone_inv_run.
  - apply (clone_live P d n st cont After HP Hexec Hinit (λ g, g = _)).
    intros g ->. by exists [].
Qed.

Lemma map_group `{Bounds} (P : nat) (d : bDataset) (n : string)
    (func : ndarray → ndarray) (st : Store) (dss : DsState) :
  0 < P → lookup_ds st d = Some dss → dss_handle dss = d → chunks_wf dss →
  handle_ok d = true → ds_at st (bp_name (bd_pool d)) n = None →
  (∀ a, shape (func a) = shape a) → flat_injective d = true →
  let out := renamed d n in
  let g0 := (spmd P (λ comm, MpiDataset.map (MpiDataset.init d comm) func (PStr n)),
             st) in
  let rets := (λ r, Ret (MpiDataset.init out {| Get_rank := r; Get_size := P |}))
                <$> seq 0 P in
  (∀ sched,
     forallb stopped (grun sched g0).1 = true →
     (grun sched g0).1 = rets
     ∧ lookup_ds (grun sched g0).2 d = Some dss
     ∧ ∃ dss_o, lookup_ds (grun sched g0).2 out = Some dss_o
                ∧ dss_handle dss_o = out
                ∧ ∀ k, k < bd_total_chunks d →
                       chunk_contents dss_o (idx_from_flat d k)
                       = func (chunk_contents dss (idx_from_flat d k)))
  ∧ (∃ sched, (grun sched g0).1 = rets).
Proof.
  intros HP Hlook Hd Hwf Hok Hfresh Hfunc Hinj out g0 rets.
  pose proof (exec_clone_create st d n dss Hlook Hfresh Hok) as Hexec.
  pose proof (fresh_name_differs st d n dss Hlook Hfresh) as Hdiff.
  set (st1 := clone_store st d n) in *.
  set (v := λ r, MpiDataset.init out {| Get_rank := r; Get_size := P |}).
  set (cont := λ (r : nat) (o : bDataset),
         transform_at P d o func (chunk_contents dss)
           (λ r, MpiDataset.init o {| Get_rank := r; Get_size := P |}) r 0).
  pose proof (transform_step_ok P d out func st1 dss v HP (or_intror Hdiff)
                eq_refl Hd Hwf Hfunc Hinj) as Hstep.
  pose proof (λ r (_ : r < P), transform_last_ok P d out func dss v r) as Hlast.
  set (After := phase_inv P (λ r, 2 * range_len r (bd_total_chunks d) P)
                  (transform_at P d out func (chunk_contents dss) v) v
                  (transform_rel P d out func st1 (chunk_contents dss))).
  assert (g0 = ((λ r, clone_then d (PStr n) (cont r) r) <$> seq 0 P, st)) as Hg0.
  { subst g0. unfold spmd. f_equal. apply list_fmap_ext. intros i r _.
    by apply map_is_clone_then. }
  assert (lookup_ds st1 d = Some dss) as Hlook1.
  { unfold lookup_ds. subst st1. rewrite clone_store_ds_at_other; [done|].
    intros Heq. apply Hdiff. by rewrite Heq. }
  assert (After ((λ r, cont r (renamed d n)) <$> seq 0 P, st1)) as Hinit.
  { left. exists (replicate P 0).
    split; [by rewrite length_replicate|]. split.
    { intros r m [-> _]%lookup_replicate. lia. }
    split.
    - cbn [fst]. apply list_eq. intros r.
      rewrite list_lookup_fmap, list_lookup_imap.
      destruct (decide (r < P)).
      + by rewrite lookup_seq_lt, lookup_replicate_2 by done.
      + rewrite lookup_seq_ge by lia.
        assert (replicate P 0 !! r = None) as ->
          by (apply lookup_replicate_None; lia).
        done.
    - split; [done|].
      exists dss, {| dss_handle := out; dss_chunks := ∅ |}.
      split; [done|]. split; [by eapply clone_store_lookup_new|].
      split; [done|]. split; [apply map_Forall_empty|].
      intros k Hk. unfold written.
      destruct (replicate P 0 !! (k mod P)) as [m|] eqn:Hm; [|done].
      apply lookup_replicate in Hm as [-> _].
      by destruct (Nat.leb_spec (2 * (k / P) + 2) 0); [lia|]. }
  assert (∀ r g, After g → After (gstep r g)) as Hafter
    by (intros r g; by apply phase_step).
  rewrite Hg0. split.
  - intros sched Hstop.
    pose proof (clone_inv_run P d n st cont After HP Hexec Hafter Hinit sched) as Hinv.
    pose proof (clone_inv_stopped P d n st cont After HP _ Hinv Hstop) as Hph.
    destruct (phase_stopped P _ _ _ _ Hstep Hlast _ HP Hph Hstop) as [Hps Hrel].
    split; [done|].
    apply (transform_final P d out func st1 dss HP) in Hrel as [Hframe Hout].
    split; [|done]. unfold lookup_ds in *. rewrite Hframe; [done|].
    intros Heq. apply Hdiff. by rewrite Heq.
  - apply (clone_live P d n st cont After HP Hexec Hinit (λ g, g.1 = rets)).
    intros g Hg. by apply (phase_live P _ _ _ _ Hstep Hlast).
Qed.

(** ** The statements on concrete groups *)

(** Scenario B: after the load and the increment, chunk (0,0) holds the
    top-left block of the data, every value one higher. *)
Example scenario_b_chunk_00 :
  (λ dss, (λ c, item (chunk_contents dss [0; 0]) c) <$> coords [2; 2])
    <$> lookup_ds scenario_b_store ex_ds
  = Some [1; 2; 5; 6]%Z.
Proof. vm_compute. reflexivity. Qed.

(** Three ranks loading the ragged (5,3) dataset, taking turns: the chunks
    reassemble to the data. *)
Example load_ragged_round_robin :
  let g := grun (round_robin 3 3)
             (spmd 3 (λ comm, MpiDataset.load (H := grid_bounds)
                                (MpiDataset.init ex_ds_ragged comm)
                                (PArr (arange2 5 3))), ex_store) in
  forallb stopped g.1 = true
  ∧ (λ dss, (λ a, array_eqb a (arange2 5 3)) <$> reassemble (H := grid_bounds) dss)
      <$> lookup_ds g.2 ex_ds_ragged
    = Some (Some true).
Proof. vm_compute. done. Qed.

Lemma load_round_trip_witness :
  let g0 := (spmd 3 (λ comm, MpiDataset.load (H := grid_bounds)
                               (MpiDataset.init ex_ds_ragged comm)
                               (PArr (arange2 5 3))), ex_store) in
  (∀ sched,
     forallb stopped (grun sched g0).1 = true →
     (grun sched g0).1 = replicate 3 (Ret tt)
     ∧ ∃ dss' a, lookup_ds (grun sched g0).2 ex_ds_ragged = Some dss'
                 ∧ reassemble (H := grid_bounds) dss' = Some a
                 ∧ array_eq a (arange2 5 3))
  ∧ (∃ sched, (grun sched g0).1 = replicate 3 (Ret tt)).
Proof.
  apply (load_round_trip (H := grid_bounds) 3 ex_ds_ragged (arange2 5 3)
           ex_store ex_dss_ragged).
  - lia.
  - reflexivity.
  - vm_compute. reflexivity.
  - reflexivity.
  - apply map_Forall_empty.
  - vm_compute. reflexivity.
  - vm_compute. reflexivity.
Defined.

Lemma apply_in_place_witness :
  ∃ sched,
    (grun sched (spmd 2 (λ comm, MpiDataset.apply (H := grid_bounds)
                                   (MpiDataset.init ex_ds comm) incr),
                 ex_store)).1
    = replicate 2 (Ret tt).
Proof.
  destruct (apply_in_place (H := grid_bounds) 2 ex_ds ex_store ex_dss)
    as [Hall _].
  - lia.
  - vm_compute. reflexivity.
  - reflexivity.
  - apply map_Forall_empty.
  - vm_compute. reflexivity.
  - destruct (Hall incr (λ _, eq_refl)) as [_ Hlive]. exact Hlive.
Defined.


(** ** More on the shards *)

Lemma py_range_length start stop step l :
  py_range start stop step = Some l → length l = range_len start stop step.
Proof.
  unfold py_range. destruct (step =? 0); [done|]. intros [= <-].
  by rewrite length_map, length_seq.
Qed.

(** X1: the shards of two ranks of a group differ in size by at most one
    ordinal, and a lower rank never has the smaller shard. *)
Theorem shard_sizes_balanced (T P r r' : nat) (l l' : list nat) :
  r ≤ r' → r' < P →
  py_range r T P = Some l → py_range r' T P = Some l' →
  length l' ≤ length l ∧ length l ≤ length l' + 1.
Proof.
  intros Hrr Hr' Hl Hl'.
  rewrite (py_range_length _ _ _ _ Hl), (py_range_length _ _ _ _ Hl').
  assert (0 < P) as HP by lia.
  split.
  - destruct (decide (range_len r' T P ≤ range_len r T P)) as [|Hgt]; [done|].
    assert (range_len r T P < range_len r' T P) as Hlt by lia.
    apply range_len_spec in Hlt; [|done].
    assert (range_len r T P < range_len r T P); [|lia].
    apply range_len_spec; [done|]. lia.
  - destruct (decide (range_len r T P ≤ range_len r' T P + 1)) as [|Hgt]; [done|].
    assert (range_len r' T P + 1 < range_len r T P) as Hlt by lia.
    apply range_len_spec in Hlt; [|done].
    assert (range_len r' T P < range_len r' T P); [|lia].
    apply range_len_spec; [done|]. nia.
Qed.

Lemma shard_sizes_balanced_witness :
  length [2; 5; 8] ≤ length [0; 3; 6; 9]
  ∧ length [0; 3; 6; 9] ≤ length [2; 5; 8] + 1.
Proof.
  apply (shard_sizes_balanced 10 3 0 2); [lia|lia|reflexivity|reflexivity].
Defined.

(** X3: taken together, the shards of a group of [P] are a rearrangement of
    [0, ..., T-1]: the ranks make [T] loop iterations in total. *)
Theorem all_shards_permutation (T P : nat) :
  0 < P → all_shards T P ≡ₚ seq 0 T ∧ length (all_shards T P) = T.
Proof.
  intros HP.
  assert (all_shards T P ≡ₚ seq 0 T) as Hperm.
  { apply NoDup_Permutation.
    - unfold all_shards. apply NoDup_bind; [| |apply NoDup_seq].
      + intros r1 r2 i Hr1 Hr2 H1 H2.
        apply elem_of_seq in Hr1, Hr2.
        destruct (py_range_is_Some r1 T P HP) as [l1 Hl1].
        destruct (py_range_is_Some r2 T P HP) as [l2 Hl2].
        rewrite Hl1 in H1. rewrite Hl2 in H2. simpl in H1, H2.
        apply (py_range_mod r1 T P l1 i) in H1 as [_ <-]; [|lia|done].
        apply (py_range_mod r2 T P l2 i) in H2 as [_ <-]; [|lia|done]. done.
      + intros r Hr. destruct (py_range_is_Some r T P HP) as [l Hl].
        rewrite Hl. simpl. by eapply py_range_NoDup.
    - apply NoDup_seq.
    - intros i. unfold all_shards. rewrite list_elem_of_bind, elem_of_seq. split.
      + intros (r & Hi & Hr). apply elem_of_seq in Hr.
        destruct (py_range_is_Some r T P HP) as [l Hl].
        rewrite Hl in Hi. simpl in Hi.
        apply (py_range_mod r T P l i) in Hi as [? _]; [lia|lia|done].
      + intros [_ Hi]. exists (i mod P).
        destruct (shard_owner T P i HP) as (l & Hl & Hin); [lia|].
        rewrite Hl. split; [done|]. apply elem_of_seq.
        pose proof (Nat.mod_upper_bound i P). lia. }
  split; [done|]. by rewrite Hperm, length_seq.
Qed.

Lemma all_shards_permutation_witness :
  all_shards 10 3 ≡ₚ seq 0 10 ∧ length (all_shards 10 3) = 10.
Proof. apply all_shards_permutation. lia. Defined.

(** ** More traces of single methods *)

(** X4: [del_pool] runs, in order, a barrier, the root's backend delete, a
    second barrier and, exactly when [ceph_backend] is set, a disconnect, the
    construction of a new cluster handle from [cparams], its connect and a
    third barrier.  It fetches nothing; the object it leaves has the new
    handle after a reconnect and is unchanged otherwise. *)
Theorem del_pool_protocol {S} (h : oracle S) (rank : nat) (s : S)
    (self : MpiCluster.t) (args : list pyval) (kw : kwargs) :
  let inst := MpiCluster.instance self in
  let del := ClusterDelPool inst args kw in
  let root := mpi_is_root (MpiCluster.mpi self) in
  let tr0 := EvBarrier :: (if root then [EvCall del tt] else []) ++ [EvBarrier] in
  let s0 := if root then (on_call h del s).2 else s in
  let new := NewCluster (MpiCluster.cparams self).1.1
               (MpiCluster.cparams self).1.2 (MpiCluster.cparams self).2 in
  let s1 := (on_call h (ClusterDisconnect inst) s0).2 in
  let inst' := (on_call h new s1).1 in
  let s2 := (on_call h new s1).2 in
  run_proc h rank (MpiCluster.del_pool self args kw) s
  = if MpiCluster.ceph_backend self then
      (tr0 ++ [EvCall (ClusterDisconnect inst) tt; EvCall new inst';
               EvCall (ClusterConnect inst') tt; EvBarrier],
       inr (MpiCluster.set_instance self inst'),
       (on_call h (ClusterConnect inst') s2).2)
    else (tr0, inr self, s0).
Proof.
  unfold MpiCluster.del_pool. unfold_prog.
  destruct self as [inst [[backend cname] ckw] ceph mpi]. simpl.
  destruct (mpi_is_root mpi), ceph; simpl.
  - destruct (on_call h (ClusterDelPool _ _ _) s) as [[] s0]. simpl.
    destruct (on_call h (ClusterDisconnect _) s0) as [[] s1]. simpl.
    destruct (on_call h (NewCluster _ _ _) s1) as [inst' s2]. simpl.
    by destruct (on_call h (ClusterConnect _) s2) as [[] s3].
  - by destruct (on_call h (ClusterDelPool _ _ _) s) as [[] s0].
  - destruct (on_call h (ClusterDisconnect _) s) as [[] s1]. simpl.
    destruct (on_call h (NewCluster _ _ _) s1) as [inst' s2]. simpl.
    by destruct (on_call h (ClusterConnect _) s2) as [[] s3].
  - done.
Qed.

(** X5: the constructor takes the key ['backend'] out of its keyword
    arguments: the backend's [Cluster] is built from the name and the
    remaining keywords, the same remaining keywords are kept in [cparams],
    the communicator is the one given or else the engine's default, and a
    warning is logged exactly when the backend is named ['memory'].  When the
    backend cannot be selected, nothing is called. *)
Theorem init_consumes_backend_key `{Env} {S} (h : oracle S) (rank : nat) (s : S)
    (name : pyval) (comm : option Comm) (kw : kwargs) :
  match get_backend (default PNone (kw !! "backend")) with
  | inl e => run_proc h rank (MpiCluster.init name comm kw) s = ([], inl e, s)
  | inr b =>
      ∃ kw' : kwargs,
        let new := NewCluster b name kw' in
        let warn := LogWarning "MPI engine will work unexpectedly with RAM backend" in
        let memory := String.eqb (bk_name b) "memory" in
        kw' !! "backend" = None
        ∧ (∀ key, key ≠ "backend" → kw' !! key = kw !! key)
        ∧ run_proc h rank (MpiCluster.init name comm kw) s
          = (EvCall new (on_call h new s).1
               :: (if memory then [EvCall warn tt] else []),
             inr {| MpiCluster.instance := (on_call h new s).1;
                    MpiCluster.cparams := (b, name, kw');
                    MpiCluster.ceph_backend := String.eqb (bk_name b) "ceph";
                    MpiCluster.mpi :=
                      MpiMixin_init (match comm with
                                     | Some c => c
                                     | None => engine_comm
                                     end) |},
             if memory then (on_call h warn (on_call h new s).2).2
             else (on_call h new s).2)
  end.
Proof.
  unfold MpiCluster.init.
  destruct (get_backend (default PNone (kw !! "backend"))) as [e|b]; [done|].
  exists (delete "backend" kw).
  split; [apply lookup_delete_eq|].
  split; [by intros key Hkey; apply lookup_delete_ne|].
  unfold_prog. simpl.
  destruct (on_call h (NewCluster _ _ _) s) as [inst s1]. simpl.
  destruct (String.eqb (bk_name b) "memory"); simpl; [|by destruct comm].
  destruct (on_call h (LogWarning _) s1) as [[] s2]. by destruct comm.
Qed.

(** X6: the keyword arguments of the final fetch of [create_pool].  Without a
    reconnect the pool is fetched with the keyword arguments of the call;
    after a reconnect it is fetched with the options stored in [cparams],
    because the reconnect assigns them to the local [kwargs]. *)
Theorem create_pool_fetch_keywords {S} (h : oracle S) (rank : nat) (s : S)
    (self : MpiCluster.t) (args : list pyval) (kw : kwargs) :
  ∃ inst' pool,
    last (trace_of h rank (MpiCluster.create_pool self args kw) s)
    = Some (EvCall (ClusterGetPool inst' args
                      (if MpiCluster.ceph_backend self
                       then (MpiCluster.cparams self).2 else kw)) pool)
    ∧ outcome_of h rank (MpiCluster.create_pool self args kw) s
      = inr (MpiPool.init pool (mpi_comm (MpiCluster.mpi self)),
             if MpiCluster.ceph_backend self
             then MpiCluster.set_instance self inst' else self).
Proof.
  unfold trace_of, outcome_of, MpiCluster.create_pool, MpiCluster.get_pool.
  unfold_prog. destruct self as [inst [[backend cname] ckw] ceph mpi]. simpl.
  destruct (mpi_is_root mpi), ceph; simpl.
  - destruct (on_call h (ClusterCreatePool _ _ _) s) as [[] s0]. simpl.
    destruct (on_call h (ClusterDisconnect _) s0) as [[] s1]. simpl.
    destruct (on_call h (NewCluster _ _ _) s1) as [inst' s2]. simpl.
    destruct (on_call h (ClusterConnect _) s2) as [[] s3]. simpl.
    destruct (on_call h (ClusterGetPool _ _ _) s3) as [pool s4]. simpl.
    by exists inst', pool.
  - destruct (on_call h (ClusterCreatePool _ _ _) s) as [[] s0]. simpl.
    destruct (on_call h (ClusterGetPool _ _ _) s0) as [pool s4]. simpl.
    by exists inst, pool.
  - destruct (on_call h (ClusterDisconnect _) s) as [[] s1]. simpl.
    destruct (on_call h (NewCluster _ _ _) s1) as [inst' s2]. simpl.
    destruct (on_call h (ClusterConnect _) s2) as [[] s3]. simpl.
    destruct (on_call h (ClusterGetPool _ _ _) s3) as [pool s4]. simpl.
    by exists inst', pool.
  - destruct (on_call h (ClusterGetPool _ _ _) s) as [pool s4]. simpl.
    by exists inst, pool.
Qed.

Lemma create_pool_run {S} (h : oracle S) (rank : nat) (s : S)
    (self : MpiCluster.t) (args : list pyval) (kw : kwargs) :
  ∃ tr pool inst' s',
    run_proc h rank (MpiCluster.create_pool self args kw) s
    = (tr, inr (pool, if MpiCluster.ceph_backend self
                      then MpiCluster.set_instance self inst' else self), s')
    ∧ disconnects tr = (if MpiCluster.ceph_backend self then 1 else 0).
Proof.
  unfold MpiCluster.create_pool, MpiCluster.get_pool. unfold_prog.
  destruct self as [inst [[backend cname] ckw] ceph mpi]. simpl.
  destruct (mpi_is_root mpi), ceph; run_calls;
    first [by eexists _, _, inst, _ | by eexists _, _, _, _].
Qed.

Lemma del_pool_run {S} (h : oracle S) (rank : nat) (s : S)
    (self : MpiCluster.t) (args : list pyval) (kw : kwargs) :
  ∃ tr inst' s',
    run_proc h rank (MpiCluster.del_pool self args kw) s
    = (tr, inr (if MpiCluster.ceph_backend self
                then MpiCluster.set_instance self inst' else self), s')
    ∧ disconnects tr = (if MpiCluster.ceph_backend self then 1 else 0).
Proof.
  unfold MpiCluster.del_pool. unfold_prog.
  destruct self as [inst [[backend cname] ckw] ceph mpi]. simpl.
  destruct (mpi_is_root mpi), ceph; run_calls;
    first [by eexists _, inst, _ | by eexists _, _, _].
Qed.

Lemma disconnects_app tr1 tr2 :
  disconnects (tr1 ++ tr2) = disconnects tr1 + disconnects tr2.
Proof. unfold disconnects. by rewrite filter_app, length_app. Qed.

(** X7: whatever pools a process creates and deletes on a cluster object,
    the object keeps the parameters and the reconnect flag its constructor
    stored and its communicator; it reconnects once per call when the flag is
    set and never otherwise, and without the flag it keeps its backend
    handle. *)
Theorem cluster_ops_keep_parameters {S} (h : oracle S) (rank : nat)
    (ops : list cluster_op) (self : MpiCluster.t) (s : S) :
  ∃ self',
    outcome_of h rank (run_ops self ops) s = inr self'
    ∧ MpiCluster.cparams self' = MpiCluster.cparams self
    ∧ MpiCluster.ceph_backend self' = MpiCluster.ceph_backend self
    ∧ MpiCluster.mpi self' = MpiCluster.mpi self
    ∧ disconnects (trace_of h rank (run_ops self ops) s)
      = (if MpiCluster.ceph_backend self then length ops else 0)
    ∧ (if MpiCluster.ceph_backend self then True
       else MpiCluster.instance self' = MpiCluster.instance self).
Proof.
  unfold outcome_of, trace_of. revert self s.
  induction ops as [|op ops IH]; intros self s.
  - exists self. simpl. by destruct (MpiCluster.ceph_backend self).
  - destruct op as [args kw|args kw]; cbn [run_ops]; unfold_prog;
      rewrite run_proc_bind.
    + destruct (create_pool_run h rank s self args kw)
        as (tr & pool & inst' & s' & -> & Hd).
      set (self1 := if MpiCluster.ceph_backend self
                    then MpiCluster.set_instance self inst' else self).
      assert (MpiCluster.cparams self1 = MpiCluster.cparams self
              ∧ MpiCluster.ceph_backend self1 = MpiCluster.ceph_backend self
              ∧ MpiCluster.mpi self1 = MpiCluster.mpi self) as (E1 & E2 & E3)
        by (subst self1; destruct (MpiCluster.ceph_backend self) eqn:Hc;
            by repeat split).
      destruct (IH self1 s') as (self' & Ho & H1 & H2 & H3 & H4 & H5).
      destruct (run_proc h rank (run_ops self1 ops) s') as [[tr2 r2] s2].
      simpl in *. exists self'. rewrite H1, H2, H3, E1, E2, E3, disconnects_app, Hd, H4, E2.
      repeat split; try done.
      * by destruct (MpiCluster.ceph_backend self).
      * subst self1. rewrite E2 in H5.
        destruct (MpiCluster.ceph_backend self); [done|]. done.
    + destruct (del_pool_run h rank s self args kw)
        as (tr & inst' & s' & -> & Hd).
      set (self1 := if MpiCluster.ceph_backend self
                    then MpiCluster.set_instance self inst' else self).
      assert (MpiCluster.cparams self1 = MpiCluster.cparams self
              ∧ MpiCluster.ceph_backend self1 = MpiCluster.ceph_backend self
              ∧ MpiCluster.mpi self1 = MpiCluster.mpi self) as (E1 & E2 & E3)
        by (subst self1; destruct (MpiCluster.ceph_backend self) eqn:Hc;
            by repeat split).
      destruct (IH self1 s') as (self' & Ho & H1 & H2 & H3 & H4 & H5).
      destruct (run_proc h rank (run_ops self1 ops) s') as [[tr2 r2] s2].
      simpl in *. exists self'. rewrite H1, H2, H3, E1, E2, E3, disconnects_app, Hd, H4, E2.
      repeat split; try done.
      * by destruct (MpiCluster.ceph_backend self).
      * subst self1. rewrite E2 in H5.
        destruct (MpiCluster.ceph_backend self); [done|]. done.
Qed.

(** X8: [create_chunk] passes the index, the positional and the keyword
    arguments to the root's backend create, enters one barrier, and then
    every rank fetches the chunk by the index alone and returns it wrapped. *)
Theorem create_chunk_protocol {S} (h : oracle S) (rank : nat) (s : S)
    (self : MpiDataset.t) (idx : pyval) (args : list pyval) (kw : kwargs) :
  let d := MpiDataset.instance self in
  let create := DsCreateChunk d (idx :: args) kw in
  let fetch := DsGetChunk d [idx] ∅ in
  let root := mpi_is_root (MpiDataset.mpi self) in
  let s0 := if root then (on_call h create s).2 else s in
  run_proc h rank (MpiDataset.create_chunk self idx args kw) s
  = ((if root then [EvCall create tt] else [])
       ++ [EvBarrier; EvCall fetch (on_call h fetch s0).1],
     inr {| MpiDataChunk.instance := (on_call h fetch s0).1 |},
     (on_call h fetch s0).2).
Proof.
  unfold MpiDataset.create_chunk, MpiDataset.get_chunk. unfold_prog.
  destruct (mpi_is_root (MpiDataset.mpi self)); simpl.
  - destruct (on_call h (DsCreateChunk _ _ _) s) as [[] s0]. simpl.
    by destruct (on_call h (DsGetChunk _ _ _) s0).
  - by destruct (on_call h (DsGetChunk _ _ _) s).
Qed.

Lemma for_each_calls_run {S X} (h : oracle S) (rank : nat) (l : list X)
    (c : X → callE unit) (s : S) :
  ∃ s', run_proc h rank (for_each l (λ x, call (c x))) s
        = ((λ x, EvCall (c x) tt) <$> l, inr tt, s').
Proof.
  revert s. induction l as [|x l IH]; intros s; [by eexists|].
  cbn [for_each]. unfold_prog. rewrite run_proc_bind. simpl.
  destruct (on_call h (c x) s) as [[] s1]. simpl.
  destruct (IH s1) as [s' ->]. by eexists.
Qed.

(** X9: a rank running [clear] deletes the chunks of its own shard, one call
    per ordinal in increasing order, then enters the barrier once and
    returns; it makes no other call.  With a group size of zero the loop
    raises [ValueError] before anything happens. *)
Theorem clear_deletes_own_shard `{Bounds} {S} (h : oracle S) (s : S)
    (d : bDataset) (comm : Comm) :
  match py_range (Get_rank comm) (bd_total_chunks d) (Get_size comm) with
  | None =>
      run_proc h (Get_rank comm) (MpiDataset.clear (MpiDataset.init d comm)) s
      = ([], inl ValueError, s)
  | Some shard =>
      ∃ s', run_proc h (Get_rank comm)
              (MpiDataset.clear (MpiDataset.init d comm)) s
            = (((λ k, EvCall (DsDelChunk d (idx_from_flat d k)) tt) <$> shard)
                 ++ [EvBarrier], inr tt, s')
  end.
Proof.
  unfold MpiDataset.clear, MpiDataset.total_chunks, MpiDataset.del_chunk, for_range.
  cbn [MpiDataset.instance MpiDataset.init MpiDataset.mpi MpiMixin_init
       mpi_rank mpi_size].
  destruct (py_range _ _ _) as [shard|]; [|done].
  unfold_prog. rewrite run_proc_bind.
  destruct (for_each_calls_run h (Get_rank comm) shard
              (λ k, DsDelChunk d (idx_from_flat d k)) s) as [s' Hrun].
  unfold call in Hrun. rewrite Hrun. by exists s'.
Qed.

Lemma load_loop_run `{Bounds} {S} (h : oracle S) (rank : nat) (d : bDataset)
    (data : ndarray) (l : list nat) (s : S) :
  ∃ s', run_proc h rank (for_each l (load_body d data)) s
        = ((load_events d data l).1,
           if (load_events d data l).2 then inr tt else inl IndexError, s').
Proof.
  revert s. induction l as [|k l IH]; intros s; [by eexists|].
  cbn [for_each load_events]. unfold_prog. rewrite run_proc_bind.
  unfold load_body at 1. cbv zeta.
  destruct (getitem data _) as [sub|]; [|by eexists].
  unfold call. simpl. destruct (on_call h _ s) as [[] s1]. simpl.
  destruct (IH s1) as [s' ->]. by eexists.
Qed.

(** X10: a rank running [load] on an array of the dataset's shape writes, for
    the ordinals of its shard in increasing order, the sub-array under the
    chunk's global slices into the chunk's local slices, then enters the
    barrier and returns.  At the first ordinal whose global slices are more
    than the array has axes it raises [IndexError] instead: the writes made
    so far stay and the barrier is not entered. *)
Theorem load_writes_own_shard `{Bounds} {S} (h : oracle S) (s : S)
    (d : bDataset) (comm : Comm) (data : ndarray) :
  shape data = bd_shape d →
  match py_range (Get_rank comm) (bd_total_chunks d) (Get_size comm) with
  | None =>
      run_proc h (Get_rank comm)
        (MpiDataset.load (MpiDataset.init d comm) (PArr data)) s
      = ([], inl ValueError, s)
  | Some shard =>
      ∃ s', run_proc h (Get_rank comm)
              (MpiDataset.load (MpiDataset.init d comm) (PArr data)) s
            = if (load_events d data shard).2
              then ((load_events d data shard).1 ++ [EvBarrier], inr tt, s')
              else ((load_events d data shard).1, inl IndexError, s')
  end.
Proof.
  intros Hshape.
  unfold MpiDataset.load, MpiDataset.total_chunks, MpiDataset.shape, for_range.
  cbn [MpiDataset.instance MpiDataset.init MpiDataset.mpi MpiMixin_init
       mpi_rank mpi_size].
  rewrite bool_decide_eq_false_2 by (by intros ?).
  destruct (py_range _ _ _) as [shard|]; [|done].
  unfold_prog. rewrite run_proc_bind.
  destruct (load_loop_run h (Get_rank comm) d data shard s) as [s' Hrun].
  change (run_proc h (Get_rank comm) (for_each shard _) s)
    with (run_proc h (Get_rank comm) (for_each shard (load_body d data)) s).
  rewrite Hrun.
  exists s'. by destruct (load_events d data shard).2.
Qed.

Lemma load_writes_own_shard_witness :
  ∃ s', run_proc echo_oracle 1
          (MpiDataset.load (H := grid_bounds)
             (MpiDataset.init ex_ds {| Get_rank := 1; Get_size := 3 |})
             (PArr (arange2 4 4))) tt
        = if (load_events (H := grid_bounds) ex_ds (arange2 4 4) [1]).2
          then ((load_events (H := grid_bounds) ex_ds (arange2 4 4) [1]).1
                  ++ [EvBarrier], inr tt, s')
          else ((load_events (H := grid_bounds) ex_ds (arange2 4 4) [1]).1,
                inl IndexError, s').
Proof.
  apply (load_writes_own_shard (H := grid_bounds) echo_oracle tt ex_ds
           {| Get_rank := 1; Get_size := 3 |} (arange2 4 4)).
  reflexivity.
Defined.

Lemma py_range_idle r T P : 0 < P → T ≤ r → py_range r T P = Some [].
Proof.
  intros HP Hr. unfold py_range, range_len.
  destruct (Nat.eqb_spec P 0); [lia|].
  by destruct (Nat.ltb_spec r T); [lia|].
Qed.

(** X11: a rank whose number is not below the dataset's chunk count (so every
    rank, when the dataset has no chunk) does no chunk I/O in [clear],
    [load] and [apply]: it enters the trailing barrier and returns. *)
Theorem idle_rank_only_enters_barrier `{Bounds} {S} (h : oracle S) (s : S)
    (d : bDataset) (comm : Comm) (data : ndarray) (func : ndarray → ndarray) :
  0 < Get_size comm → bd_total_chunks d ≤ Get_rank comm →
  run_proc h (Get_rank comm) (MpiDataset.clear (MpiDataset.init d comm)) s
  = ([EvBarrier], inr tt, s)
  ∧ run_proc h (Get_rank comm) (MpiDataset.apply (MpiDataset.init d comm) func) s
    = ([EvBarrier], inr tt, s)
  ∧ run_proc h (Get_rank comm)
      (MpiDataset.load (MpiDataset.init d comm) (PArr data)) s
    = if bool_decide (shape data = bd_shape d)
      then ([EvBarrier], inr tt, s)
      else ([], inl (Exception "Data shape does not match"), s).
Proof.
  intros HP Hidle.
  unfold MpiDataset.clear, MpiDataset.apply, MpiDataset.load,
    MpiDataset.total_chunks, MpiDataset.shape, for_range.
  cbn [MpiDataset.instance MpiDataset.init MpiDataset.mpi MpiMixin_init
       mpi_rank mpi_size].
  rewrite py_range_idle by done.
  repeat split; try done.
  case_bool_decide as Hs.
  - by rewrite bool_decide_eq_false_2 by (by intros ?).
  - by rewrite bool_decide_eq_true_2.
Qed.

Lemma idle_rank_only_enters_barrier_witness :
  run_proc echo_oracle 5
    (MpiDataset.clear (H := grid_bounds)
       (MpiDataset.init ex_ds {| Get_rank := 5; Get_size := 6 |})) tt
  = ([EvBarrier], inr tt, tt).
Proof.
  apply (idle_rank_only_enters_barrier (H := grid_bounds) echo_oracle tt ex_ds
           {| Get_rank := 5; Get_size := 6 |} (arange2 4 4) incr); simpl; lia.
Defined.

(** ** Groups written as one program per rank *)

Lemma ranks_lookup {A} (f : nat → A) P r :
  r < P → (f <$> seq 0 P) !! r = Some (f r).
Proof. intros Hr. by rewrite list_lookup_fmap, lookup_seq_lt. Qed.

Lemma ranks_lookup_ge {A} (f : nat → A) P r :
  P ≤ r → (f <$> seq 0 P) !! r = None.
Proof. intros Hr. by rewrite list_lookup_fmap, lookup_seq_ge. Qed.

Lemma ranks_lookup_Some {A} (f : nat → A) P r a :
  (f <$> seq 0 P) !! r = Some a → r < P ∧ a = f r.
Proof.
  rewrite list_lookup_fmap. destruct (seq 0 P !! r) as [r'|] eqn:Hr; [|done].
  apply lookup_seq in Hr as [-> ?]. intros [= <-]. done.
Qed.

Lemma ranks_ext {A} (f g : nat → A) P :
  (∀ r, r < P → f r = g r) → f <$> seq 0 P = g <$> seq 0 P.
Proof.
  intros Hfg. apply list_fmap_ext. intros i r Hr.
  apply lookup_seq in Hr as [-> ?]. by apply Hfg.
Qed.

Lemma ranks_insert_root {A} (f : nat → A) P y :
  <[0 := y]> (f <$> seq 0 P) = (λ r, if r =? 0 then y else f r) <$> seq 0 P.
Proof.
  apply list_eq. intros r. destruct (decide (r < P)) as [Hr|Hr].
  - rewrite ranks_lookup by done. destruct r as [|r].
    + by rewrite list_lookup_insert_eq by (rewrite length_fmap, length_seq; lia).
    + rewrite list_lookup_insert_ne by done. by rewrite ranks_lookup.
  - rewrite ranks_lookup_ge by lia.
    destruct r as [|r].
    + rewrite list_insert_ge by (rewrite length_fmap, length_seq; lia).
      by rewrite ranks_lookup_ge by lia.
    + rewrite list_lookup_insert_ne by done. by rewrite ranks_lookup_ge by lia.
Qed.

Lemma ranks_fmap {A B} (f : nat → A) (k : A → B) P :
  k <$> (f <$> seq 0 P) = (λ r, k (f r)) <$> seq 0 P.
Proof. by rewrite <- list_fmap_compose. Qed.

Lemma ranks_forallb {A} (q : A → bool) (f : nat → A) P :
  (∀ r, r < P → q (f r) = true) → forallb q (f <$> seq 0 P) = true.
Proof.
  intros Hq. apply forallb_forall. intros a Ha.
  apply list_elem_of_In, list_elem_of_lookup in Ha as [r Hr].
  apply ranks_lookup_Some in Hr as [? ->]. by apply Hq.
Qed.

Lemma ranks_forallb_root {A} (q : A → bool) (f : nat → A) P :
  0 < P → q (f 0) = false → forallb q (f <$> seq 0 P) = false.
Proof.
  intros HP Hq. destruct (forallb q (f <$> seq 0 P)) eqn:Hall; [|done].
  by rewrite (forallb_lookup _ _ 0 (f 0) Hall (ranks_lookup f P 0 HP)) in Hq.
Qed.

Lemma gstep_blocked {A} r (g : gstate A) k :
  g.1 !! r = Some (Barrier k) → forallb at_barrier g.1 = false → gstep r g = g.
Proof. intros Hr Hall. by rewrite (gstep_barrier r g k Hr), Hall. Qed.

Lemma gstep_raised {A} r (g : gstate A) e :
  g.1 !! r = Some (Raise e) → gstep r g = g.
Proof. intros Hr. unfold gstep. by rewrite Hr. Qed.

Lemma gstep_returned {A} r (g : gstate A) a :
  g.1 !! r = Some (Ret a) → gstep r g = g.
Proof. intros Hr. unfold gstep. by rewrite Hr. Qed.

Lemma gstep_call_raise {A X} r (g : gstate A) (c : callE X) k e st :
  g.1 !! r = Some (Call c k) → exec c g.2 = (inl e, st) →
  gstep r g = (<[r := Raise e]> g.1, st).
Proof. intros Hr He. unfold gstep. by rewrite Hr, He. Qed.

(** ** Barrier, root's call, barrier *)

Section fenced_group.
Context {A X : Type} (P : nat) (c : callE X) (v : nat → A) (st : Store).
Hypothesis HP : 0 < P.

Local Abbreviation g0 := ((λ r, fenced c (v r) r) <$> seq 0 P, st).
Local Abbreviation inv := (fenced_inv P c v st).

Lemma fenced_inv_step r g : inv g → inv (gstep r g).
Proof.
  intros [->|[->|[[Hok ->]|[[Hok ->]|(e & He & ->)]]]].
  - (* nobody has moved *)
    destruct (decide (r < P)) as [Hr|Hr];
      [|left; apply gstep_none; cbn [fst]; by rewrite ranks_lookup_ge by lia].
    right; left. erewrite gstep_barrier;
      [|cbn [fst]; rewrite ranks_lookup by done; reflexivity].
    cbn [fst snd]. rewrite ranks_forallb by done. by rewrite ranks_fmap.
  - (* past the first barrier *)
    destruct (decide (r < P)) as [Hr|Hr];
      [|right; left; apply gstep_none; cbn [fst]; by rewrite ranks_lookup_ge by lia].
    destruct r as [|r].
    + destruct (exec c st) as [[e|x] st'] eqn:Hex.
      * do 4 right. exists e. rewrite Hex. split; [done|].
        erewrite gstep_call_raise;
          [|cbn [fst]; rewrite ranks_lookup by done; reflexivity|exact Hex].
        cbn [fst snd]. rewrite ranks_insert_root. f_equal.
        apply ranks_ext. intros r _. by destruct r.
      * do 2 right; left. rewrite Hex. split; [by exists x|].
        erewrite gstep_call;
          [|cbn [fst]; rewrite ranks_lookup by done; reflexivity|exact Hex].
        cbn [fst snd]. rewrite ranks_insert_root. f_equal.
        apply ranks_ext. intros r _. by destruct r.
    + right; left. eapply gstep_blocked.
      * cbn [fst]. rewrite ranks_lookup by done. reflexivity.
      * cbn [fst]. by apply ranks_forallb_root.
  - (* at the second barrier *)
    destruct (decide (r < P)) as [Hr|Hr];
      [|do 2 right; left; split; [done|];
        apply gstep_none; cbn [fst]; by rewrite ranks_lookup_ge by lia].
    do 3 right; left. split; [done|]. erewrite gstep_barrier;
      [|cbn [fst]; rewrite ranks_lookup by done; reflexivity].
    cbn [fst snd]. rewrite ranks_forallb by done. by rewrite ranks_fmap.
  - do 3 right; left. split; [done|]. apply gstep_stopped. cbn [fst].
    by apply ranks_forallb.
  - do 4 right. exists e. split; [done|].
    destruct (decide (r < P)) as [Hr|Hr];
      [|apply gstep_none; cbn [fst]; by rewrite ranks_lookup_ge by lia].
    destruct r as [|r].
    + eapply gstep_raised. cbn [fst]. rewrite ranks_lookup by done. reflexivity.
    + eapply gstep_blocked.
      * cbn [fst]. rewrite ranks_lookup by done. reflexivity.
      * cbn [fst]. by apply ranks_forallb_root.
Qed.

Lemma fenced_inv_run sched : inv (grun sched g0).
Proof. apply grun_invariant; [apply fenced_inv_step|by left]. Qed.

(** When the root's call succeeds: a group that has stopped has returned,
    and the store is what the call left. *)
Lemma fenced_success x st' sched :
  exec c st = (inr x, st') →
  forallb stopped (grun sched g0).1 = true →
  grun sched g0 = ((λ r, Ret (v r)) <$> seq 0 P, st').
Proof.
  intros Hex Hstop. pose proof (fenced_inv_run sched) as Hinv.
  destruct Hinv as [Hg|[Hg|[[_ Hg]|[[_ Hg]|(e & He & Hg)]]]];
    rewrite Hg in Hstop |- *; cbn [fst] in Hstop.
  - by rewrite (ranks_forallb_root _ _ _ HP) in Hstop.
  - by rewrite (ranks_forallb_root _ _ _ HP) in Hstop.
  - by rewrite (ranks_forallb_root _ _ _ HP) in Hstop.
  - by rewrite Hex.
  - by rewrite Hex in He.
Qed.

Lemma fenced_live x st' :
  exec c st = (inr x, st') →
  grun [0; 0; 0] g0 = ((λ r, Ret (v r)) <$> seq 0 P, st').
Proof.
  intros Hex.
  assert (gstep 0 g0
          = ((λ r, if r =? 0 then Call c (λ _, Barrier (Ret (v r)))
                   else Barrier (Ret (v r))) <$> seq 0 P, st)) as H1.
  { erewrite gstep_barrier;
      [|cbn [fst]; rewrite ranks_lookup by done; reflexivity].
    cbn [fst snd]. rewrite ranks_forallb by done. by rewrite ranks_fmap. }
  assert (gstep 0 ((λ r, if r =? 0 then Call c (λ _, Barrier (Ret (v r)))
                         else Barrier (Ret (v r))) <$> seq 0 P, st)
          = ((λ r, Barrier (Ret (v r))) <$> seq 0 P, st')) as H2.
  { erewrite gstep_call;
      [|cbn [fst]; rewrite ranks_lookup by done; reflexivity|exact Hex].
    cbn [fst snd]. rewrite ranks_insert_root. f_equal.
    apply ranks_ext. intros r _. by destruct r. }
  assert (gstep 0 ((λ r, Barrier (Ret (v r))) <$> seq 0 P, st')
          = ((λ r, Ret (v r)) <$> seq 0 P, st')) as H3.
  { erewrite gstep_barrier;
      [|cbn [fst]; rewrite ranks_lookup by done; reflexivity].
    cbn [fst snd]. rewrite ranks_forallb by done. by rewrite ranks_fmap. }
  unfold grun. cbn [foldl]. by rewrite H1, H2, H3.
Qed.

(** When the root's call raises: no other rank ever stops, and the store is
    the initial one or the one the failed call left. *)
Lemma fenced_failure e st' sched :
  exec c st = (inl e, st') →
  others_blocked (grun sched g0)
  ∧ ((grun sched g0).2 = st ∨ (grun sched g0).2 = st')
  ∧ ∀ a, (grun sched g0).1 !! 0 ≠ Some (Ret a).
Proof.
  intros Hex. pose proof (fenced_inv_run sched) as Hinv.
  destruct Hinv as [Hg|[Hg|[[[x Hok] _]|[[[x Hok] _]|(e' & He & Hg)]]]];
    try (by rewrite Hex in Hok); rewrite Hg; cbn [fst snd].
  - split; [|split; [by left|]].
    + intros r p Hr Hp. apply ranks_lookup_Some in Hp as [? ->]. done.
    + intros a. by rewrite ranks_lookup by done.
  - split; [|split; [by left|]].
    + intros r p Hr Hp. apply ranks_lookup_Some in Hp as [? ->].
      by destruct r; [lia|].
    + intros a. by rewrite ranks_lookup by done.
  - split; [|split; [right; by rewrite Hex|]].
    + intros r p Hr Hp. apply ranks_lookup_Some in Hp as [? ->].
      by destruct r; [lia|].
    + intros a. by rewrite ranks_lookup by done.
Qed.
Lemma fenced_failure_live e st' :
  exec c st = (inl e, st') → (grun [0; 0] g0).1 !! 0 = Some (Raise e).
Proof.
  intros Hex.
  assert (gstep 0 g0
          = ((λ r, if r =? 0 then Call c (λ _, Barrier (Ret (v r)))
                   else Barrier (Ret (v r))) <$> seq 0 P, st)) as H1.
  { erewrite gstep_barrier;
      [|cbn [fst]; rewrite ranks_lookup by done; reflexivity].
    cbn [fst snd]. rewrite ranks_forallb by done. by rewrite ranks_fmap. }
  unfold grun. cbn [foldl]. rewrite H1.
  erewrite gstep_call_raise;
    [|cbn [fst]; rewrite ranks_lookup by done; reflexivity|exact Hex].
  cbn [fst]. by rewrite list_lookup_insert_eq by (rewrite length_fmap, length_seq; lia).
Qed.

(** From whatever stage the group is in, three steps of the root finish a
    delete whose call succeeds. *)
Lemma fenced_live_from x st' g :
  exec c st = (inr x, st') → inv g →
  grun [0; 0; 0] g = ((λ r, Ret (v r)) <$> seq 0 P, st').
Proof.
  intros Hex Hinv.
  assert (gstep 0 g0
          = ((λ r, if r =? 0 then Call c (λ _, Barrier (Ret (v r)))
                   else Barrier (Ret (v r))) <$> seq 0 P, st)) as H1.
  { erewrite gstep_barrier;
      [|cbn [fst]; rewrite ranks_lookup by done; reflexivity].
    cbn [fst snd]. rewrite ranks_forallb by done. by rewrite ranks_fmap. }
  assert (gstep 0 ((λ r, if r =? 0 then Call c (λ _, Barrier (Ret (v r)))
                         else Barrier (Ret (v r))) <$> seq 0 P, st)
          = ((λ r, Barrier (Ret (v r))) <$> seq 0 P, st')) as H2.
  { erewrite gstep_call;
      [|cbn [fst]; rewrite ranks_lookup by done; reflexivity|exact Hex].
    cbn [fst snd]. rewrite ranks_insert_root. f_equal.
    apply ranks_ext. intros r _. by destruct r. }
  assert (gstep 0 ((λ r, Barrier (Ret (v r))) <$> seq 0 P, st')
          = ((λ r, Ret (v r)) <$> seq 0 P, st')) as H3.
  { erewrite gstep_barrier;
      [|cbn [fst]; rewrite ranks_lookup by done; reflexivity].
    cbn [fst snd]. rewrite ranks_forallb by done. by rewrite ranks_fmap. }
  assert (gstep 0 ((λ r, Ret (v r)) <$> seq 0 P, st')
          = ((λ r, Ret (v r)) <$> seq 0 P, st')) as H4
    by (apply gstep_stopped; cbn [fst]; by apply ranks_forallb).
  unfold grun. cbn [foldl].
  destruct Hinv as [->|[->|[[_ ->]|[[_ ->]|(e & He & _)]]]];
    rewrite ?Hex; cbn [snd]; [| | | |by rewrite Hex in He].
  - by rewrite H1, H2, H3.
  - by rewrite H2, H3, H4.
  - by rewrite H3, H4, H4.
  - by rewrite H4, H4, H4.
Qed.
End fenced_group.

(** ** The delete methods on a group *)

Lemma exec_del_dataset st p n kw pool dss :
  st !! bp_name p = Some pool → pool !! n = Some dss →
  exec (PoolDelDataset p [PStr n] kw) st
  = (inr tt, <[bp_name p := delete n pool]> st).
Proof. intros Hp Hn. simpl. by rewrite Hp, Hn. Qed.

Lemma exec_del_dataset_missing st p n kw :
  ds_at st (bp_name p) n = None →
  ∃ msg, exec (PoolDelDataset p [PStr n] kw) st = (inl (BackendError msg), st).
Proof.
  unfold ds_at. intros Hn. simpl.
  destruct (st !! bp_name p) as [pool|]; [|by eexists].
  simpl in Hn. rewrite Hn. by eexists.
Qed.

Lemma ds_at_after_del st p n pool q m :
  st !! p = Some pool →
  ds_at (<[p := delete n pool]> st) q m
  = if decide ((q, m) = (p, n)) then None else ds_at st q m.
Proof.
  intros Hp. unfold ds_at. destruct (decide (q = p)) as [->|Hq].
  - rewrite lookup_insert_eq, Hp. simpl. destruct (decide (m = n)) as [->|Hm].
    + rewrite decide_True by done. apply lookup_delete_eq.
    + rewrite decide_False by congruence. by apply lookup_delete_ne.
  - rewrite lookup_insert_ne by done. by rewrite decide_False by congruence.
Qed.

Lemma delete_is_fenced (P : nat) (d : bDataset) (r : nat) :
  MpiDataset.delete (MpiDataset.init d {| Get_rank := r; Get_size := P |})
  = fenced (PoolDelDataset (bd_pool d) [PStr (bd_name d)] ∅) tt r.
Proof.
  unfold MpiDataset.delete, fenced, MpiDataset.name.
  cbn [MpiDataset.instance MpiDataset.init MpiDataset.mpi MpiMixin_init
       mpi_is_root Get_rank].
  by destruct (r =? 0).
Qed.

Lemma del_dataset_is_fenced (P : nat) (p : bPool) (args : list pyval)
    (kw : kwargs) (r : nat) :
  MpiPool.del_dataset (MpiPool.init p {| Get_rank := r; Get_size := P |}) args kw
  = fenced (PoolDelDataset p args kw) tt r.
Proof.
  unfold MpiPool.del_dataset, fenced.
  cbn [MpiPool.instance MpiPool.init MpiPool.mpi MpiMixin_init mpi_is_root Get_rank].
  by destruct (r =? 0).
Qed.

Lemma del_pool_is_fenced (P : nat) (inst : bCluster)
    (cp : Backend * pyval * kwargs) (args : list pyval) (kw : kwargs) (r : nat) :
  MpiCluster.del_pool (cluster_of inst cp false {| Get_rank := r; Get_size := P |})
    args kw
  = fenced (ClusterDelPool inst args kw)
      (cluster_of inst cp false {| Get_rank := r; Get_size := P |}) r.
Proof.
  unfold MpiCluster.del_pool, fenced, cluster_of.
  cbn [MpiCluster.instance MpiCluster.mpi MpiCluster.ceph_backend MpiMixin_init
       mpi_is_root Get_rank].
  by destruct (r =? 0).
Qed.

(** X12: when every rank of a group calls [del_dataset] for a dataset that
    the pool holds, then under every schedule, once all ranks have stopped
    they have all returned, that dataset is gone from the store and every
    other dataset is as it was; three steps of the root suffice to get
    there. *)
Theorem del_dataset_removes_named (P : nat) (p : bPool) (n : string) (kw : kwargs)
    (st : Store) (dss : DsState) :
  0 < P → ds_at st (bp_name p) n = Some dss →
  let g0 := (spmd P (λ comm, MpiPool.del_dataset (MpiPool.init p comm) [PStr n] kw),
             st) in
  (∀ sched,
     forallb stopped (grun sched g0).1 = true →
     (grun sched g0).1 = replicate P (Ret tt)
     ∧ ∀ q m, ds_at (grun sched g0).2 q m
              = if decide ((q, m) = (bp_name p, n)) then None else ds_at st q m)
  ∧ (grun [0; 0; 0] g0).1 = replicate P (Ret tt).
Proof.
  intros HP Hds g0. unfold ds_at in Hds.
  destruct (st !! bp_name p) as [pool|] eqn:Hp; [|done]. simpl in Hds.
  pose proof (exec_del_dataset st p n kw pool dss Hp Hds) as Hex.
  assert (g0 = ((λ r, fenced (PoolDelDataset p [PStr n] kw) tt r) <$> seq 0 P, st))
    as ->.
  { subst g0. unfold spmd. f_equal. apply ranks_ext. intros r _.
    apply del_dataset_is_fenced. }
  split.
  - intros sched Hstop.
    rewrite (fenced_success P _ (λ _, tt) st HP tt _ sched Hex Hstop). cbn [fst snd].
    split; [apply fmap_const_seq|]. intros q m. by apply ds_at_after_del.
  - rewrite (fenced_live P _ (λ _, tt) st HP tt _ Hex). apply fmap_const_seq.
Qed.

Lemma del_dataset_removes_named_witness :
  (grun [0; 0; 0]
     (spmd 2 (λ comm, MpiPool.del_dataset (MpiPool.init ex_pool comm)
                        [PStr "ds"] ∅), ex_store)).1
  = replicate 2 (Ret tt).
Proof.
  apply (del_dataset_removes_named 2 ex_pool "ds" ∅ ex_store ex_dss).
  - lia.
  - vm_compute. reflexivity.
Defined.

(** X13: when every rank of a group calls [delete] on a dataset that the
    store holds, then under every schedule, once all ranks have stopped they
    have all returned, the dataset is gone from its pool and every other
    dataset is as it was; three steps of the root suffice to get there. *)
Theorem delete_removes_dataset (P : nat) (d : bDataset) (st : Store)
    (dss : DsState) :
  0 < P → lookup_ds st d = Some dss →
  let g0 := (spmd P (λ comm, MpiDataset.delete (MpiDataset.init d comm)), st) in
  (∀ sched,
     forallb stopped (grun sched g0).1 = true →
     (grun sched g0).1 = replicate P (Ret tt)
     ∧ lookup_ds (grun sched g0).2 d = None
     ∧ ∀ q m, (q, m) ≠ (bp_name (bd_pool d), bd_name d) →
              ds_at (grun sched g0).2 q m = ds_at st q m)
  ∧ (grun [0; 0; 0] g0).1 = replicate P (Ret tt).
Proof.
  intros HP Hds g0. unfold lookup_ds, ds_at in Hds.
  destruct (st !! bp_name (bd_pool d)) as [pool|] eqn:Hp; [|done]. simpl in Hds.
  pose proof (exec_del_dataset st (bd_pool d) (bd_name d) ∅ pool dss Hp Hds) as Hex.
  assert (g0 = ((λ r, fenced (PoolDelDataset (bd_pool d) [PStr (bd_name d)] ∅) tt r)
                  <$> seq 0 P, st)) as ->.
  { subst g0. unfold spmd. f_equal. apply ranks_ext. intros r _.
    apply delete_is_fenced. }
  split.
  - intros sched Hstop.
    rewrite (fenced_success P _ (λ _, tt) st HP tt _ sched Hex Hstop). cbn [fst snd].
    split; [apply fmap_const_seq|]. unfold lookup_ds. split.
    + rewrite ds_at_after_del by done. by rewrite decide_True.
    + intros q m Hne. rewrite ds_at_after_del by done. by rewrite decide_False.
  - rewrite (fenced_live P _ (λ _, tt) st HP tt _ Hex). apply fmap_const_seq.
Qed.

Lemma delete_removes_dataset_witness :
  (grun [0; 0; 0]
     (spmd 2 (λ comm, MpiDataset.delete (MpiDataset.init ex_ds comm)), ex_store)).1
  = replicate 2 (Ret tt).
Proof.
  apply (delete_removes_dataset 2 ex_ds ex_store ex_dss).
  - lia.
  - vm_compute. reflexivity.
Defined.

(** X14: when every rank of a group calls [delete] on a dataset that the
    store does not hold, the root's backend call raises and nothing follows:
    under every schedule no other rank ever stops (each stays at a barrier
    that the root never enters), the root never returns, and the store stays
    as it was. *)
Theorem delete_of_missing_dataset_blocks (P : nat) (d : bDataset) (st : Store)
    (sched : list nat) :
  0 < P → lookup_ds st d = None →
  let g := grun sched
             (spmd P (λ comm, MpiDataset.delete (MpiDataset.init d comm)), st) in
  others_blocked g ∧ g.2 = st ∧ (∀ a, g.1 !! 0 ≠ Some (Ret a))
  ∧ ∃ msg, (grun [0; 0]
              (spmd P (λ comm, MpiDataset.delete (MpiDataset.init d comm)), st)).1
           !! 0 = Some (Raise (BackendError msg)).
Proof.
  intros HP Hds g.
  destruct (exec_del_dataset_missing st (bd_pool d) (bd_name d) ∅ Hds) as [msg Hex].
  assert (spmd P (λ comm, MpiDataset.delete (MpiDataset.init d comm))
          = (λ r, fenced (PoolDelDataset (bd_pool d) [PStr (bd_name d)] ∅) tt r)
              <$> seq 0 P) as Hg0.
  { unfold spmd. apply ranks_ext. intros r _. apply delete_is_fenced. }
  subst g. rewrite Hg0.
  destruct (fenced_failure P _ (λ _, tt) st HP _ _ sched Hex) as (Hb & Hst & Hroot).
  split; [done|]. split; [by destruct Hst|]. split; [done|].
  exists msg. by apply (fenced_failure_live P _ (λ _, tt) st HP _ st).
Qed.

Lemma delete_of_missing_dataset_blocks_witness :
  let g := grun [1; 0; 1; 0; 1]
             (spmd 2 (λ comm, MpiDataset.delete
                                (MpiDataset.init (renamed ex_ds "gone") comm)),
              ex_store) in
  others_blocked g ∧ g.2 = ex_store.
Proof.
  pose proof (delete_of_missing_dataset_blocks 2 (renamed ex_ds "gone") ex_store
                [1; 0; 1; 0; 1]) as Hb.
  destruct Hb as (H1 & H2 & _).
  - lia.
  - vm_compute. reflexivity.
  - exact (conj H1 H2).
Defined.

(** X15: when every rank of a group whose backend needs no reconnect calls
    [del_pool] for a pool that the cluster holds, then under every schedule,
    once all ranks have stopped they have all returned with their cluster
    object unchanged, the pool with all its datasets is gone and every other
    pool is as it was; three steps of the root suffice to get there. *)
Theorem del_pool_removes_pool (P : nat) (inst : bCluster)
    (cp : Backend * pyval * kwargs) (n : string) (kw : kwargs) (st : Store)
    (pool : gmap string DsState) :
  0 < P → st !! n = Some pool →
  let g0 := (spmd P (λ comm, MpiCluster.del_pool (cluster_of inst cp false comm)
                               [PStr n] kw), st) in
  let rets := (λ r, Ret (cluster_of inst cp false
                           {| Get_rank := r; Get_size := P |})) <$> seq 0 P in
  (∀ sched,
     forallb stopped (grun sched g0).1 = true →
     (grun sched g0).1 = rets
     ∧ (∀ m, ds_at (grun sched g0).2 n m = None)
     ∧ ∀ q, q ≠ n → (grun sched g0).2 !! q = st !! q)
  ∧ (grun [0; 0; 0] g0).1 = rets.
Proof.
  intros HP Hn g0 rets.
  assert (exec (ClusterDelPool inst [PStr n] kw) st = (inr tt, delete n st)) as Hex
    by (simpl; by rewrite Hn).
  assert (g0 = ((λ r, fenced (ClusterDelPool inst [PStr n] kw)
                        (cluster_of inst cp false {| Get_rank := r; Get_size := P |}) r)
                  <$> seq 0 P, st)) as ->.
  { subst g0. unfold spmd. f_equal. apply ranks_ext. intros r _.
    apply del_pool_is_fenced. }
  split.
  - intros sched Hstop.
    rewrite (fenced_success P _ _ st HP tt _ sched Hex Hstop). cbn [fst snd].
    split; [done|]. split.
    + intros m. unfold ds_at. by rewrite lookup_delete_eq.
    + intros q Hq. by apply lookup_delete_ne.
  - by rewrite (fenced_live P _ _ st HP tt _ Hex).
Qed.

Lemma del_pool_removes_pool_witness :
  let hdf5 := {| bk_name := "hdf5"; bk_requires_reconnect := false |} in
  let inst := {| bc_backend := hdf5; bc_name := PNone; bc_kwargs := ∅ |} in
  (grun [0; 0; 0]
     (spmd 2 (λ comm, MpiCluster.del_pool (cluster_of inst (hdf5, PNone, ∅) false comm)
                        [PStr "pool"] ∅), ex_store)).1
  = (λ r, Ret (cluster_of inst (hdf5, PNone, ∅) false
                 {| Get_rank := r; Get_size := 2 |})) <$> seq 0 2.
Proof.
  intros hdf5 inst.
  eapply (del_pool_removes_pool 2 inst (hdf5, PNone, ∅) "pool" ∅ ex_store).
  - lia.
  - vm_compute. reflexivity.
Defined.

(** ** Root's call, barrier, continuation *)

Section root_first_group.
Context {A X : Type} (P : nat) (c : callE X) (cont : nat → Prog A) (st : Store)
        (After : gstate A → Prop).
Hypothesis HP : 0 < P.
Hypothesis After_step : ∀ r g, After g → After (gstep r g).
Hypothesis After_init :
  ∀ x st', exec c st = (inr x, st') → After (cont <$> seq 0 P, st').

Local Abbreviation g0 := ((λ r, root_first c (cont r) r) <$> seq 0 P, st).
Local Abbreviation inv := (root_first_inv P c cont st After).

Lemma root_first_inv_step r g : inv g → inv (gstep r g).
Proof.
  intros [->|[[[x Hok] ->]|[Hafter|(e & He & ->)]]].
  - destruct (decide (r < P)) as [Hr|Hr];
      [|left; apply gstep_none; cbn [fst]; by rewrite ranks_lookup_ge by lia].
    destruct r as [|r].
    + destruct (exec c st) as [[e|x] st'] eqn:Hex.
      * do 3 right. exists e. rewrite Hex. split; [done|].
        erewrite gstep_call_raise;
          [|cbn [fst]; rewrite ranks_lookup by done; reflexivity|exact Hex].
        cbn [fst snd]. rewrite ranks_insert_root. f_equal.
        apply ranks_ext. intros r _. by destruct r.
      * right; left. rewrite Hex. split; [by exists x|].
        erewrite gstep_call;
          [|cbn [fst]; rewrite ranks_lookup by done; reflexivity|exact Hex].
        cbn [fst snd]. rewrite ranks_insert_root. f_equal.
        apply ranks_ext. intros r _. by destruct r.
    + left. eapply gstep_blocked.
      * cbn [fst]. rewrite ranks_lookup by done. reflexivity.
      * cbn [fst]. by apply ranks_forallb_root.
  - destruct (decide (r < P)) as [Hr|Hr];
      [|right; left; split; [by exists x|];
        apply gstep_none; cbn [fst]; by rewrite ranks_lookup_ge by lia].
    do 2 right; left. erewrite gstep_barrier;
      [|cbn [fst]; rewrite ranks_lookup by done; reflexivity].
    cbn [fst snd]. rewrite ranks_forallb by done. rewrite ranks_fmap.
    destruct (exec c st) as [r0 st'] eqn:Hex. simpl in Hok. subst r0.
    by apply (After_init x).
  - do 2 right; left. by apply After_step.
  - do 3 right. exists e. split; [done|].
    destruct (decide (r < P)) as [Hr|Hr];
      [|apply gstep_none; cbn [fst]; by rewrite ranks_lookup_ge by lia].
    destruct r as [|r].
    + eapply gstep_raised. cbn [fst]. rewrite ranks_lookup by done. reflexivity.
    + eapply gstep_blocked.
      * cbn [fst]. rewrite ranks_lookup by done. reflexivity.
      * cbn [fst]. by apply ranks_forallb_root.
Qed.

Lemma root_first_inv_run sched : inv (grun sched g0).
Proof. apply grun_invariant; [apply root_first_inv_step|by left]. Qed.

Lemma root_first_stopped x st' sched :
  exec c st = (inr x, st') →
  forallb stopped (grun sched g0).1 = true → After (grun sched g0).
Proof.
  intros Hex Hstop. pose proof (root_first_inv_run sched) as Hinv.
  destruct Hinv as [Hg|[[_ Hg]|[Hafter|(e & He & Hg)]]]; [| |done|];
    rewrite Hg in Hstop; cbn [fst] in Hstop.
  - rewrite (ranks_forallb_root _ _ _ HP) in Hstop; done.
  - by rewrite (ranks_forallb_root _ _ _ HP) in Hstop.
  - by rewrite Hex in He.
Qed.

Lemma root_first_two_steps x st' :
  exec c st = (inr x, st') → grun [0; 0] g0 = (cont <$> seq 0 P, st').
Proof.
  intros Hex.
  assert (gstep 0 g0 = ((λ r, Barrier (cont r)) <$> seq 0 P, st')) as H1.
  { erewrite gstep_call;
      [|cbn [fst]; rewrite ranks_lookup by done; reflexivity|exact Hex].
    cbn [fst snd]. rewrite ranks_insert_root. f_equal.
    apply ranks_ext. intros r _. by destruct r. }
  unfold grun. cbn [foldl]. rewrite H1.
  erewrite gstep_barrier;
    [|cbn [fst]; rewrite ranks_lookup by done; reflexivity].
  cbn [fst snd]. rewrite ranks_forallb by done. by rewrite ranks_fmap.
Qed.

Lemma root_first_live x st' (Q : gstate A → Prop) :
  exec c st = (inr x, st') →
  (∀ g, After g → ∃ sched, Q (grun sched g)) →
  ∃ sched, Q (grun sched g0).
Proof.
  intros Hex Hlive. destruct (Hlive _ (After_init x st' Hex)) as [sched Hs].
  exists ([0; 0] ++ sched). by rewrite grun_app, (root_first_two_steps x st').
Qed.
End root_first_group.

(** When the root's call raises, whatever would follow the barrier: no other
    rank ever stops, the root never returns, and the store is the initial one
    or the one the failed call left. *)
Lemma root_first_failure {A X} (P : nat) (c : callE X) (cont : nat → Prog A)
    (st st' : Store) (e : pyexc) (sched : list nat) :
  0 < P → exec c st = (inl e, st') →
  let g := grun sched ((λ r, root_first c (cont r) r) <$> seq 0 P, st) in
  others_blocked g ∧ (g.2 = st ∨ g.2 = st') ∧ (∀ a, g.1 !! 0 ≠ Some (Ret a))
  ∧ (grun [0] ((λ r, root_first c (cont r) r) <$> seq 0 P, st)).1 !! 0
    = Some (Raise e).
Proof.
  intros HP Hex g.
  pose proof (root_first_inv_run P c cont st (λ _, False) HP
                (λ _ _ F, F)) as Hinv.
  assert (∀ x st1, exec c st = (inr x, st1) →
                   (λ _ : gstate A, False) (cont <$> seq 0 P, st1)) as Hinit
    by (intros x st1 Hx; by rewrite Hex in Hx).
  specialize (Hinv Hinit sched). fold g in Hinv.
  split; [|split; [|split]].
  - destruct Hinv as [->|[[[x Hok] _]|[[]|(e' & He & ->)]]];
      [|by rewrite Hex in Hok|]; intros r p Hr Hp;
      apply ranks_lookup_Some in Hp as [? ->]; by destruct r; [lia|].
  - destruct Hinv as [->|[[[x Hok] _]|[[]|(e' & He & ->)]]];
      [by left|by rewrite Hex in Hok|right; by rewrite Hex].
  - destruct Hinv as [->|[[[x Hok] _]|[[]|(e' & He & ->)]]];
      [|by rewrite Hex in Hok|]; intros a; cbn [fst];
      by rewrite ranks_lookup by done.
  - unfold grun. cbn [foldl]. erewrite gstep_call_raise;
      [|cbn [fst]; rewrite ranks_lookup by done; reflexivity|exact Hex].
    cbn [fst]. by rewrite list_lookup_insert_eq by (rewrite length_fmap, length_seq; lia).
Qed.

(** ** Every rank fetches for itself *)

Section fetch_group.
Context {A X : Type} (P : nat) (c : callE X) (w : nat → X → A) (x : X) (st : Store).
Hypothesis Hfetch : exec c st = (inr x, st).

Local Abbreviation inv := (fetch_inv P c w x st).
Local Abbreviation prog :=
  (λ r (b : bool), if b then Ret (w r x) else Call c (λ y, Ret (w r y))).

Lemma fetch_inv_init : inv ((λ r, Call c (λ y, Ret (w r y))) <$> seq 0 P, st).
Proof.
  split; [done|]. exists (replicate P false).
  split; [by rewrite length_replicate|]. cbn [fst].
  apply list_eq. intros r. rewrite list_lookup_imap.
  destruct (decide (r < P)).
  - by rewrite ranks_lookup, lookup_replicate_2 by done.
  - rewrite ranks_lookup_ge by lia.
    assert (replicate P false !! r = None) as ->
      by (apply lookup_replicate_None; lia).
    done.
Qed.

Lemma fetch_inv_step r g : inv g → inv (gstep r g).
Proof.
  intros [Hst (bs & Hlen & Hps)].
  destruct (bs !! r) as [b|] eqn:Hb.
  - assert (g.1 !! r = Some (prog r b)) as Hg
      by (by rewrite Hps, list_lookup_imap, Hb).
    destruct b.
    + rewrite (gstep_returned r g _ Hg). split; [done|]. by exists bs.
    + rewrite (gstep_call r g c _ x st Hg) by (by rewrite Hst).
      split; [done|]. exists (<[r := true]> bs).
      split; [by rewrite length_insert|]. cbn [fst].
      by rewrite Hps, <- (imap_insert prog bs r true).
  - rewrite gstep_none by (by rewrite Hps, list_lookup_imap, Hb).
    split; [done|]. by exists bs.
Qed.

Lemma fetch_inv_run sched g : inv g → inv (grun sched g).
Proof. apply grun_invariant. apply fetch_inv_step. Qed.

Lemma fetch_stopped g :
  inv g → forallb stopped g.1 = true →
  g = ((λ r, Ret (w r x)) <$> seq 0 P, st).
Proof.
  intros [Hst (bs & Hlen & Hps)] Hstop.
  destruct g as [ps st1]. simpl in *. subst st1. f_equal.
  rewrite Hps. apply list_eq. intros r. rewrite list_lookup_imap.
  destruct (bs !! r) as [b|] eqn:Hb.
  - pose proof (lookup_lt_Some _ _ _ Hb). rewrite ranks_lookup by lia.
    assert (ps !! r = Some (prog r b)) as Hg
      by (by rewrite Hps, list_lookup_imap, Hb).
    pose proof (forallb_lookup _ _ _ _ Hstop Hg) as Hs. by destruct b.
  - apply lookup_ge_None in Hb. by rewrite ranks_lookup_ge by lia.
Qed.

Lemma fetch_upto j g :
  j ≤ P → inv g →
  ∃ bs, length bs = P ∧ (grun (seq 0 j) g).1 = imap prog bs
        ∧ (grun (seq 0 j) g).2 = st ∧ ∀ r, r < j → bs !! r = Some true.
Proof.
  induction j as [|j IH]; intros Hj Hinv.
  - destruct Hinv as [Hst (bs & Hlen & Hps)]. exists bs.
    split; [done|]. split; [done|]. split; [done|]. intros; lia.
  - destruct (IH ltac:(lia) Hinv) as (bs & Hlen & Hps & Hst & Hlow).
    rewrite seq_S, grun_app. cbn [Nat.add].
    set (g' := grun (seq 0 j) g) in *.
    change (grun [j] g') with (gstep j g').
    destruct (bs !! j) as [b|] eqn:Hb; [|apply lookup_ge_None in Hb; lia].
    assert (g'.1 !! j = Some (prog j b)) as Hg
      by (by rewrite Hps, list_lookup_imap, Hb).
    destruct b.
    + rewrite (gstep_returned j g' _ Hg). exists bs.
      split; [done|]. split; [done|]. split; [done|].
      intros r Hr. destruct (decide (r = j)) as [->|]; [done|]. apply Hlow. lia.
    + rewrite (gstep_call j g' c _ x st Hg) by (by rewrite Hst).
      exists (<[j := true]> bs). split; [by rewrite length_insert|].
      split; [cbn [fst]; by rewrite Hps, <- (imap_insert prog bs j true)|].
      split; [done|]. intros r Hr. destruct (decide (r = j)) as [->|].
      * by rewrite list_lookup_insert_eq by lia.
      * rewrite list_lookup_insert_ne by done. apply Hlow. lia.
Qed.

Lemma fetch_live g :
  inv g → grun (seq 0 P) g = ((λ r, Ret (w r x)) <$> seq 0 P, st).
Proof.
  intros Hinv. destruct (fetch_upto P g ltac:(lia) Hinv) as (bs & Hlen & Hps & Hst & Hall).
  destruct (grun (seq 0 P) g) as [ps st1]. simpl in *. subst st1. f_equal.
  rewrite Hps. apply list_eq. intros r. rewrite list_lookup_imap.
  destruct (decide (r < P)).
  - by rewrite Hall, ranks_lookup by done.
  - rewrite ranks_lookup_ge by lia.
    assert (bs !! r = None) as -> by (apply lookup_ge_None; lia). done.
Qed.
End fetch_group.

(** ** The create methods on a group *)

Lemma create_pool_root_first (P : nat) (inst : bCluster)
    (cp : Backend * pyval * kwargs) (ceph : bool) (args : list pyval) (kw : kwargs) :
  ∃ cont, ∀ r,
    MpiCluster.create_pool (cluster_of inst cp ceph {| Get_rank := r; Get_size := P |})
      args kw
    = root_first (ClusterCreatePool inst args kw) (cont r) r.
Proof.
  eexists (λ r, _). intros r. unfold MpiCluster.create_pool, root_first, cluster_of.
  cbn [MpiCluster.instance MpiCluster.mpi MpiCluster.ceph_backend MpiMixin_init
       mpi_is_root Get_rank].
  destruct (r =? 0); reflexivity.
Qed.

Lemma create_pool_is_root_first (P : nat) (inst : bCluster)
    (cp : Backend * pyval * kwargs) (args : list pyval) (kw : kwargs) (r : nat) :
  MpiCluster.create_pool (cluster_of inst cp false {| Get_rank := r; Get_size := P |})
    args kw
  = root_first (ClusterCreatePool inst args kw)
      (Call (ClusterGetPool inst args kw)
         (λ pool, Ret (MpiPool.init pool {| Get_rank := r; Get_size := P |},
                       cluster_of inst cp false {| Get_rank := r; Get_size := P |})))
      r.
Proof.
  unfold MpiCluster.create_pool, root_first, cluster_of.
  cbn [MpiCluster.instance MpiCluster.mpi MpiCluster.ceph_backend MpiMixin_init
       mpi_is_root Get_rank].
  by destruct (r =? 0).
Qed.

(** X16: when every rank of a group whose backend needs no reconnect calls
    [create_pool] with a name the cluster does not hold, then under every
    schedule, once all ranks have stopped, each has returned its own wrapper
    of the new pool together with its unchanged cluster object, and the store
    holds the new, empty pool beside what it held; the root's two steps
    followed by one step of every rank get there. *)
Theorem create_pool_makes_pool (P : nat) (inst : bCluster)
    (cp : Backend * pyval * kwargs) (n : string) (st : Store) :
  0 < P → st !! n = None →
  let g0 := (spmd P (λ comm, MpiCluster.create_pool (cluster_of inst cp false comm)
                               [PStr n] ∅), st) in
  let fin := ((λ r, Ret (MpiPool.init {| bp_name := n |}
                           {| Get_rank := r; Get_size := P |},
                         cluster_of inst cp false {| Get_rank := r; Get_size := P |}))
                <$> seq 0 P, <[n := ∅]> st) in
  (∀ sched, forallb stopped (grun sched g0).1 = true → grun sched g0 = fin)
  ∧ grun ([0; 0] ++ seq 0 P) g0 = fin.
Proof.
  intros HP Hn g0 fin.
  set (c := ClusterCreatePool inst [PStr n] ∅).
  set (get := ClusterGetPool inst [PStr n] ∅).
  set (w := λ r pool, (MpiPool.init pool {| Get_rank := r; Get_size := P |},
                       cluster_of inst cp false {| Get_rank := r; Get_size := P |})).
  set (st1 := <[n := ∅]> st).
  assert (exec c st = (inr tt, st1)) as Hex by (simpl; by rewrite Hn).
  assert (exec get st1 = (inr {| bp_name := n |}, st1)) as Hget.
  { simpl. subst st1. by rewrite lookup_insert_eq. }
  assert (g0 = ((λ r, root_first c (Call get (λ y, Ret (w r y))) r) <$> seq 0 P, st))
    as ->.
  { subst g0. unfold spmd. f_equal. apply ranks_ext. intros r _.
    apply create_pool_is_root_first. }
  set (After := fetch_inv P get w {| bp_name := n |} st1).
  assert (∀ r g, After g → After (gstep r g)) as Hstep
    by (intros r g; by apply fetch_inv_step).
  assert (∀ x st', exec c st = (inr x, st') →
                   After ((λ r, Call get (λ y, Ret (w r y))) <$> seq 0 P, st')) as Hinit.
  { intros x st' Hx. rewrite Hex in Hx. injection Hx as _ <-. apply fetch_inv_init. }
  split.
  - intros sched Hstop.
    apply (fetch_stopped P get w {| bp_name := n |} st1); [|done].
    by apply (root_first_stopped P c _ st After HP Hstep Hinit tt st1).
  - rewrite grun_app.
    rewrite (root_first_two_steps P c (λ r, Call get (λ y, Ret (w r y))) st HP tt st1 Hex).
    apply (fetch_live P get w {| bp_name := n |} st1 Hget). apply fetch_inv_init.
Qed.

Lemma create_pool_makes_pool_witness :
  let hdf5 := {| bk_name := "hdf5"; bk_requires_reconnect := false |} in
  let inst := {| bc_backend := hdf5; bc_name := PNone; bc_kwargs := ∅ |} in
  (grun ([0; 0] ++ seq 0 2)
     (spmd 2 (λ comm, MpiCluster.create_pool
                        (cluster_of inst (hdf5, PNone, ∅) false comm)
                        [PStr "fresh"] ∅), ex_store)).2
  = <["fresh" := ∅]> ex_store.
Proof.
  intros hdf5 inst.
  pose proof (create_pool_makes_pool 2 inst (hdf5, PNone, ∅) "fresh" ex_store) as Hc.
  destruct Hc as [_ Hlive].
  - lia.
  - vm_compute. reflexivity.
  - cbv zeta in Hlive. by rewrite Hlive.
Defined.

(** X17: when the backend call by which the root creates the pool raises
    (the name is taken, say), nothing follows, whether or not the backend
    needs a reconnect: the root ends with that exception at its first step,
    and under every schedule no other rank ever stops, each waiting at the
    barrier that the root never enters; the root never returns. *)
Theorem create_pool_failure_blocks (P : nat) (inst : bCluster)
    (cp : Backend * pyval * kwargs) (ceph : bool) (args : list pyval) (kw : kwargs)
    (st st' : Store) (e : pyexc) (sched : list nat) :
  0 < P → exec (ClusterCreatePool inst args kw) st = (inl e, st') →
  let g0 := (spmd P (λ comm, MpiCluster.create_pool (cluster_of inst cp ceph comm)
                               args kw), st) in
  others_blocked (grun sched g0)
  ∧ (∀ a, (grun sched g0).1 !! 0 ≠ Some (Ret a))
  ∧ (grun [0] g0).1 !! 0 = Some (Raise e).
Proof.
  intros HP Hex g0.
  destruct (create_pool_root_first P inst cp ceph args kw) as [cont Hcont].
  assert (g0 = ((λ r, root_first (ClusterCreatePool inst args kw) (cont r) r)
                  <$> seq 0 P, st)) as ->.
  { subst g0. unfold spmd. f_equal. apply ranks_ext. intros r _. apply Hcont. }
  destruct (root_first_failure P _ cont st st' e sched HP Hex) as (Hb & _ & Hr & Hl).
  done.
Qed.

Lemma create_pool_failure_blocks_witness :
  let ceph := {| bk_name := "ceph"; bk_requires_reconnect := true |} in
  let inst := {| bc_backend := ceph; bc_name := PNone; bc_kwargs := ∅ |} in
  (grun [0]
     (spmd 2 (λ comm, MpiCluster.create_pool
                        (cluster_of inst (ceph, PNone, ∅) true comm)
                        [PStr "pool"] ∅), ex_store)).1 !! 0
  = Some (Raise (BackendError "pool exists")).
Proof.
  intros ceph inst.
  eapply (create_pool_failure_blocks 2 inst (ceph, PNone, ∅) true [PStr "pool"] ∅
            ex_store ex_store (BackendError "pool exists") []).
  - lia.
  - vm_compute. reflexivity.
Defined.

Lemma create_dataset_root_first `{Bounds} (P : nat) (p : bPool) (name : pyval)
    (args : list pyval) (kw : kwargs) :
  ∃ cont, ∀ r,
    MpiPool.create_dataset (MpiPool.init p {| Get_rank := r; Get_size := P |})
      name args kw
    = root_first (PoolCreateDataset p (name :: args) kw) (cont r) r.
Proof.
  eexists (λ r, _). intros r. unfold MpiPool.create_dataset, root_first.
  cbn [MpiPool.instance MpiPool.init MpiPool.mpi MpiMixin_init mpi_is_root Get_rank].
  destruct (r =? 0); reflexivity.
Qed.

Lemma create_dataset_is_root_first `{Bounds} (P : nat) (p : bPool) (name : pyval)
    (args : list pyval) (kw : kwargs) (r : nat) :
  kw !! "data" = None →
  MpiPool.create_dataset (MpiPool.init p {| Get_rank := r; Get_size := P |})
    name args kw
  = root_first (PoolCreateDataset p (name :: args) kw)
      (Call (PoolGetDataset p [name] ∅)
         (λ ds, Ret (MpiDataset.init ds {| Get_rank := r; Get_size := P |})))
      r.
Proof.
  intros Hnone. unfold MpiPool.create_dataset, root_first. rewrite Hnone.
  cbn [MpiPool.instance MpiPool.init MpiPool.mpi MpiMixin_init mpi_is_root Get_rank].
  by destruct (r =? 0).
Qed.

Lemma exec_create_dataset st p n kw pool d :
  st !! bp_name p = Some pool → pool !! n = None → new_dataset p n kw = inr d →
  exec (PoolCreateDataset p [PStr n] kw) st
  = (inr d, <[bp_name p := <[n := {| dss_handle := d; dss_chunks := ∅ |}]> pool]> st).
Proof. intros Hp Hn Hd. simpl. by rewrite Hp, Hn, Hd. Qed.

Lemma new_dataset_names p n kw d :
  new_dataset p n kw = inr d → bd_pool d = p ∧ bd_name d = n.
Proof.
  unfold new_dataset. intros Hd.
  repeat (case_match; simplify_eq; try done).
Qed.

Lemma exec_get_created st p n pool d :
  exec (PoolGetDataset p [PStr n] ∅)
       (<[bp_name p := <[n := {| dss_handle := d; dss_chunks := ∅ |}]> pool]> st)
  = (inr d, <[bp_name p := <[n := {| dss_handle := d; dss_chunks := ∅ |}]> pool]> st).
Proof. simpl. by rewrite !lookup_insert_eq. Qed.

(** X18: when every rank of a group calls [create_dataset] without initial
    data, for a name that the pool does not hold and attributes that the
    backend accepts, then under every schedule, once all ranks have stopped,
    each has returned its own wrapper of the one new dataset, and the store
    holds that dataset, without chunks, beside what it held; the root's two
    steps followed by one step of every rank get there. *)
Theorem create_dataset_registers `{Bounds} (P : nat) (p : bPool) (n : string)
    (kw : kwargs) (st : Store) (pool : gmap string DsState) (d : bDataset) :
  0 < P → st !! bp_name p = Some pool → pool !! n = None →
  new_dataset p n kw = inr d → kw !! "data" = None →
  let g0 := (spmd P (λ comm, MpiPool.create_dataset (MpiPool.init p comm)
                               (PStr n) [] kw), st) in
  let fin := ((λ r, Ret (MpiDataset.init d {| Get_rank := r; Get_size := P |}))
                <$> seq 0 P,
              <[bp_name p := <[n := {| dss_handle := d; dss_chunks := ∅ |}]> pool]> st) in
  (∀ sched, forallb stopped (grun sched g0).1 = true → grun sched g0 = fin)
  ∧ grun ([0; 0] ++ seq 0 P) g0 = fin.
Proof.
  intros HP Hp Hn Hd Hnone g0 fin.
  set (c := PoolCreateDataset p [PStr n] kw).
  set (get := PoolGetDataset p [PStr n] ∅).
  set (w := λ r ds, MpiDataset.init ds {| Get_rank := r; Get_size := P |}).
  set (st1 := <[bp_name p := <[n := {| dss_handle := d; dss_chunks := ∅ |}]> pool]> st).
  pose proof (exec_create_dataset st p n kw pool d Hp Hn Hd) as Hex.
  fold c st1 in Hex.
  pose proof (exec_get_created st p n pool d) as Hget. fold get st1 in Hget.
  assert (g0 = ((λ r, root_first c (Call get (λ y, Ret (w r y))) r) <$> seq 0 P, st))
    as ->.
  { subst g0. unfold spmd. f_equal. apply ranks_ext. intros r _.
    by apply create_dataset_is_root_first. }
  set (After := fetch_inv P get w d st1).
  assert (∀ r g, After g → After (gstep r g)) as Hstep
    by (intros r g; by apply fetch_inv_step).
  assert (∀ x st', exec c st = (inr x, st') →
                   After ((λ r, Call get (λ y, Ret (w r y))) <$> seq 0 P, st')) as Hinit.
  { intros x st' Hx. rewrite Hex in Hx. injection Hx as _ <-. apply fetch_inv_init. }
  split.
  - intros sched Hstop.
    apply (fetch_stopped P get w d st1); [|done].
    by apply (root_first_stopped P c _ st After HP Hstep Hinit d st1).
  - rewrite grun_app.
    rewrite (root_first_two_steps P c (λ r, Call get (λ y, Ret (w r y))) st HP d st1 Hex).
    apply (fetch_live P get w d st1 Hget). apply fetch_inv_init.
Qed.

Lemma create_dataset_registers_witness :
  let kw : kwargs :=
    <["shape" := PTuple [4; 4]]>
      (<["chunks" := PTuple [2; 2]]> (<["dtype" := PStr "int64"]> ∅)) in
  (grun ([0; 0] ++ seq 0 2)
     (spmd 2 (λ comm, MpiPool.create_dataset (H := grid_bounds)
                        (MpiPool.init ex_pool comm) (PStr "fresh") [] kw),
      ex_store)).1
  = (λ r, Ret (MpiDataset.init (renamed ex_ds "fresh")
                 {| Get_rank := r; Get_size := 2 |})) <$> seq 0 2.
Proof.
  intros kw.
  pose proof (create_dataset_registers (H := grid_bounds) 2 ex_pool "fresh" kw ex_store
                {["ds" := ex_dss; "ragged" := ex_dss_ragged]}
                (renamed ex_ds "fresh")) as Hc.
  destruct Hc as [_ Hlive].
  - lia.
  - vm_compute. reflexivity.
  - vm_compute. reflexivity.
  - vm_compute. reflexivity.
  - vm_compute. reflexivity.
  - cbv zeta in Hlive. by rewrite Hlive.
Defined.

(** X19: when the backend call by which the root creates the dataset raises
    (the name is taken, the attributes are refused), nothing follows, with
    or without initial data: the root ends with that exception at its first
    step, and under every schedule no other rank ever stops, each waiting at
    the barrier that the root never enters; the root never returns. *)
Theorem create_dataset_failure_blocks `{Bounds} (P : nat) (p : bPool) (name : pyval)
    (args : list pyval) (kw : kwargs) (st st' : Store) (e : pyexc)
    (sched : list nat) :
  0 < P → exec (PoolCreateDataset p (name :: args) kw) st = (inl e, st') →
  let g0 := (spmd P (λ comm, MpiPool.create_dataset (MpiPool.init p comm)
                               name args kw), st) in
  others_blocked (grun sched g0)
  ∧ (∀ a, (grun sched g0).1 !! 0 ≠ Some (Ret a))
  ∧ (grun [0] g0).1 !! 0 = Some (Raise e).
Proof.
  intros HP Hex g0.
  destruct (create_dataset_root_first P p name args kw) as [cont Hcont].
  assert (g0 = ((λ r, root_first (PoolCreateDataset p (name :: args) kw) (cont r) r)
                  <$> seq 0 P, st)) as ->.
  { subst g0. unfold spmd. f_equal. apply ranks_ext. intros r _. apply Hcont. }
  destruct (root_first_failure P _ cont st st' e sched HP Hex) as (Hb & _ & Hr & Hl).
  done.
Qed.

Lemma create_dataset_failure_blocks_witness :
  (grun [0]
     (spmd 2 (λ comm, MpiPool.create_dataset (H := grid_bounds)
                        (MpiPool.init ex_pool comm) (PStr "ds") []
                        (<["data" := PArr (arange2 4 4)]> ∅)),
      ex_store)).1 !! 0
  = Some (Raise (BackendError "dataset exists")).
Proof.
  eapply (create_dataset_failure_blocks (H := grid_bounds) 2 ex_pool (PStr "ds") []
            (<["data" := PArr (arange2 4 4)]> ∅) ex_store ex_store
            (BackendError "dataset exists") []).
  - lia.
  - vm_compute. reflexivity.
Defined.

(** ** [create_dataset] with initial data *)

Section create_with_data.
Context `{Bounds} (P : nat) (p : bPool) (n : string) (d : bDataset) (data : ndarray).
Hypothesis HP : 0 < P.
Hypothesis Hpool : bd_pool d = p.
Hypothesis Hname : bd_name d = n.
Hypothesis Hshape : shape data = bd_shape d.
Hypothesis Hfit : bounds_fit d = true.

Local Abbreviation T := (bd_total_chunks d).
Local Abbreviation M := (λ r, S (range_len r T P)).
Local Abbreviation v := (λ r, MpiDataset.init d {| Get_rank := r; Get_size := P |}).

Lemma create_dataset_with_data_root_first (kw : kwargs) (r : nat) :
  kw !! "data" = Some (PArr data) →
  MpiPool.create_dataset (MpiPool.init p {| Get_rank := r; Get_size := P |})
    (PStr n) [] kw
  = root_first (PoolCreateDataset p [PStr n] kw) (create_load_at P p n d data r 0) r.
Proof.
  intros Hdata. unfold MpiPool.create_dataset, root_first. rewrite Hdata.
  cbn [MpiPool.instance MpiPool.init MpiPool.mpi MpiMixin_init mpi_is_root Get_rank].
  by destruct (r =? 0).
Qed.

Lemma create_load_step_ok ms st r m :
  length ms = P → create_load_rel P d data ms st → ms !! r = Some m → m < M r →
  ∃ X (c : callE X) k x st',
    create_load_at P p n d data r m = Call c k ∧ exec c st = (inr x, st')
    ∧ k x = create_load_at P p n d data r (m + 1)
    ∧ create_load_rel P d data (<[r := m + 1]> ms) st'.
Proof.
  intros Hlen Hrel Hm Hlt. unfold create_load_rel in *.
  pose proof (lookup_lt_Some _ _ _ Hm) as Hr.
  destruct m as [|m'].
  - pose proof Hrel as (dss & Hlook & Hd & Hwf & Hdone).
    eexists _, _, _, d, st. split; [reflexivity|]. split; [|split].
    + unfold lookup_ds, ds_at in Hlook. rewrite Hpool, Hname in Hlook. simpl.
      destruct (st !! bp_name p) as [pool|]; [|done]. simpl in Hlook.
      by rewrite Hlook, Hd.
    + cbn [Nat.add create_load_at]. by rewrite load_is_load_prog.
    + rewrite list_fmap_insert. cbn [Nat.add Nat.pred].
      exists dss. split; [done|]. split; [done|]. split; [done|].
      intros r' m' j Hm' Hj. destruct (decide (r' = r)) as [->|Hne].
      * rewrite list_lookup_insert_eq in Hm' by (rewrite length_fmap; lia).
        simplify_eq. lia.
      * rewrite list_lookup_insert_ne in Hm' by done. by apply (Hdone r' m' j).
  - assert ((pred <$> ms) !! r = Some m') as Hm'
      by (by rewrite list_lookup_fmap, Hm).
    destruct (load_step_ok P d data HP Hshape Hfit (pred <$> ms) st r m')
      as (X & c & k & x & st' & Hc & Hex & Hk & Hrel');
      [by rewrite length_fmap|done|done|lia|].
    exists X, c, (λ y, bind (k y) (λ _, Ret (v r))), x, st'.
    split; [cbn [create_load_at]; by rewrite Hc|]. split; [done|].
    split; [cbn beta; by rewrite Hk|].
    rewrite list_fmap_insert.
    by replace (pred (S m' + 1)) with (m' + 1) by lia.
Qed.

Lemma create_load_last_ok r :
  r < P → create_load_at P p n d data r (M r) = Barrier (Ret (v r)).
Proof. intros _. cbn [create_load_at]. by rewrite todo_nil. Qed.

Lemma create_load_initial (st : Store) (pool : gmap string DsState) :
  phase_inv P M (create_load_at P p n d data) v (create_load_rel P d data)
    ((λ r, create_load_at P p n d data r 0) <$> seq 0 P,
     <[bp_name p := <[n := {| dss_handle := d; dss_chunks := ∅ |}]> pool]> st).
Proof.
  left. exists (replicate P 0).
  split; [by rewrite length_replicate|]. split.
  { intros r m [-> _]%lookup_replicate. lia. }
  split.
  - cbn [fst]. apply list_eq. intros r. rewrite list_lookup_imap.
    destruct (decide (r < P)).
    + by rewrite ranks_lookup, lookup_replicate_2 by done.
    + rewrite ranks_lookup_ge by lia.
      assert (replicate P 0 !! r = None) as -> by (apply lookup_replicate_None; lia).
      done.
  - cbn [snd]. exists {| dss_handle := d; dss_chunks := ∅ |}.
    split; [|split; [done|split]].
    + unfold lookup_ds, ds_at. rewrite Hpool, Hname, lookup_insert_eq. simpl.
      by rewrite lookup_insert_eq.
    + unfold chunks_wf. cbn [dss_chunks]. apply map_Forall_empty.
    + intros r m j Hm Hj. rewrite list_lookup_fmap in Hm.
      destruct (replicate P 0 !! r) as [m0|] eqn:Hm0; [|done].
      apply lookup_replicate in Hm0 as [-> _]. simpl in Hm. simplify_eq. lia.
Qed.

Lemma create_load_final st :
  create_load_rel P d data (M <$> seq 0 P) st →
  ∃ dss', lookup_ds st d = Some dss' ∧ dss_handle dss' = d ∧ chunks_wf dss'
          ∧ ∀ k, k < T → loaded d data dss' k.
Proof.
  unfold create_load_rel. rewrite <- list_fmap_compose. apply load_final; done.
Qed.
End create_with_data.

(** X20: when every rank of a group calls [create_dataset] with an array as
    initial data, for a name that the pool does not hold, and the new
    dataset has the array's shape, then under every schedule, once all ranks
    have stopped, each has returned its own wrapper of the one new dataset
    and the chunks in the store reassemble to exactly that array; and some
    schedule brings all ranks to return.  The bounds collaborator is
    required to give, for every chunk, slices of equal extent in dataset and
    chunk, and regions that together cover the dataset. *)
Theorem create_dataset_with_data_round_trip `{Bounds} (P : nat) (p : bPool)
    (n : string) (kw : kwargs) (data : ndarray) (st : Store)
    (pool : gmap string DsState) (d : bDataset) :
  0 < P → st !! bp_name p = Some pool → pool !! n = None →
  kw !! "data" = Some (PArr data) → new_dataset p n kw = inr d →
  shape data = bd_shape d → bounds_fit d = true → bounds_cover d = true →
  let g0 := (spmd P (λ comm, MpiPool.create_dataset (MpiPool.init p comm)
                               (PStr n) [] kw), st) in
  let rets := (λ r, Ret (MpiDataset.init d {| Get_rank := r; Get_size := P |}))
                <$> seq 0 P in
  (∀ sched,
     forallb stopped (grun sched g0).1 = true →
     (grun sched g0).1 = rets
     ∧ ∃ dss' a, lookup_ds (grun sched g0).2 d = Some dss'
                 ∧ reassemble dss' = Some a ∧ array_eq a data)
  ∧ (∃ sched, (grun sched g0).1 = rets).
Proof.
  intros HP Hp Hn Hdata Hd Hshape Hfit Hcov g0 rets.
  destruct (new_dataset_names p n kw d Hd) as [Hpool Hname].
  set (c := PoolCreateDataset p [PStr n] kw).
  set (st1 := <[bp_name p := <[n := {| dss_handle := d; dss_chunks := ∅ |}]> pool]> st).
  pose proof (exec_create_dataset st p n kw pool d Hp Hn Hd) as Hex.
  fold c st1 in Hex.
  assert (g0 = ((λ r, root_first c (create_load_at P p n d data r 0) r) <$> seq 0 P, st))
    as ->.
  { subst g0. unfold spmd. f_equal. apply ranks_ext. intros r _.
    by apply create_dataset_with_data_root_first. }
  pose proof (create_load_step_ok P p n d data HP Hpool Hname Hshape Hfit) as Hstep_ok.
  pose proof (create_load_last_ok P p n d data) as Hlast_ok.
  set (After := phase_inv P (λ r, S (range_len r (bd_total_chunks d) P))
                  (create_load_at P p n d data)
                  (λ r, MpiDataset.init d {| Get_rank := r; Get_size := P |})
                  (create_load_rel P d data)).
  assert (∀ r g, After g → After (gstep r g)) as Hstep
    by (intros r g; by apply phase_step).
  assert (∀ x st', exec c st = (inr x, st') →
            After ((λ r, create_load_at P p n d data r 0) <$> seq 0 P, st')) as Hinit.
  { intros x st' Hx. rewrite Hex in Hx. injection Hx as _ <-.
    by apply create_load_initial. }
  split.
  - intros sched Hstop.
    pose proof (root_first_stopped P c _ st After HP Hstep Hinit d st1 sched Hex Hstop)
      as Hafter.
    destruct (phase_stopped P _ _ _ _ Hstep_ok Hlast_ok _ HP Hafter Hstop)
      as [Hps Hrel].
    split; [done|].
    destruct (create_load_final P d data HP _ Hrel) as (dss' & Hl' & Hd' & Hwf' & Hall).
    destruct (reassemble_loaded dss' data) as (a & Ha & Heq); rewrite ?Hd'; try done.
    by exists dss', a.
  - apply (root_first_live P c _ st After HP Hinit d st1 (λ g, g.1 = rets) Hex).
    intros g Hg. by apply (phase_live P _ _ _ _ Hstep_ok Hlast_ok g).
Qed.

Lemma create_dataset_with_data_round_trip_witness :
  let kw : kwargs :=
    <["data" := PArr (arange2 5 3)]> (<["chunks" := PTuple [2; 2]]> ∅) in
  let d := {| bd_pool := ex_pool; bd_name := "fresh"; bd_shape := [5; 3];
              bd_dtype := "float64"; bd_chunk_size := [2; 2]; bd_fillvalue := 0;
              bd_total_chunks := 6 |} in
  ∃ sched,
    (grun sched
       (spmd 2 (λ comm, MpiPool.create_dataset (H := grid_bounds)
                          (MpiPool.init ex_pool comm) (PStr "fresh") [] kw),
        ex_store)).1
    = (λ r, Ret (MpiDataset.init d {| Get_rank := r; Get_size := 2 |})) <$> seq 0 2.
Proof.
  intros kw d.
  eapply (create_dataset_with_data_round_trip (H := grid_bounds) 2 ex_pool "fresh" kw
            (arange2 5 3) ex_store {["ds" := ex_dss; "ragged" := ex_dss_ragged]} d).
  - lia.
  - vm_compute. reflexivity.
  - vm_compute. reflexivity.
  - vm_compute. reflexivity.
  - vm_compute. reflexivity.
  - reflexivity.
  - vm_compute. reflexivity.
  - vm_compute. reflexivity.
Defined.

(** ** [create_chunk] and [clear] on a group *)

Lemma create_chunk_is_root_first (P : nat) (d : bDataset) (idx : pyval)
    (args : list pyval) (kw : kwargs) (r : nat) :
  MpiDataset.create_chunk (MpiDataset.init d {| Get_rank := r; Get_size := P |})
    idx args kw
  = root_first (DsCreateChunk d (idx :: args) kw)
      (Call (DsGetChunk d [idx] ∅) (λ chunk, Ret {| MpiDataChunk.instance := chunk |}))
      r.
Proof.
  unfold MpiDataset.create_chunk, root_first.
  cbn [MpiDataset.instance MpiDataset.init MpiDataset.mpi MpiMixin_init mpi_is_root
       Get_rank].
  by destruct (r =? 0).
Qed.

(** X21: when every rank of a group calls [create_chunk] with a chunk index
    on a dataset that the store holds, then under every schedule, once all
    ranks have stopped, every rank has returned a wrapper of the same chunk
    handle, the chunk is stored with the contents it read as before, and no
    other dataset has changed; the root's two steps followed by one step of
    every rank get there. *)
Theorem create_chunk_all_get_handle (P : nat) (d : bDataset) (idx : list nat)
    (args : list pyval) (kw : kwargs) (st : Store) (dss : DsState) :
  0 < P → lookup_ds st d = Some dss →
  let g0 := (spmd P (λ comm, MpiDataset.create_chunk (MpiDataset.init d comm)
                               (PTuple idx) args kw), st) in
  let chunk := {| bch_dataset := d; bch_idx := PTuple idx |} in
  let fin := (replicate P (Ret {| MpiDataChunk.instance := chunk |}),
              update_ds st d (write_chunk dss idx (chunk_contents dss idx))) in
  (∀ sched, forallb stopped (grun sched g0).1 = true → grun sched g0 = fin)
  ∧ grun ([0; 0] ++ seq 0 P) g0 = fin
  ∧ (∀ p n, (p, n) ≠ (bp_name (bd_pool d), bd_name d) → ds_at fin.2 p n = ds_at st p n)
  ∧ ∃ dss', lookup_ds fin.2 d = Some dss'
            ∧ dss_chunks dss' !! idx = Some (chunk_contents dss idx)
            ∧ ∀ i, chunk_contents dss' i = chunk_contents dss i.
Proof.
  intros HP Hlook g0 chunk fin.
  set (c := DsCreateChunk d (PTuple idx :: args) kw).
  set (get := DsGetChunk d [PTuple idx] ∅).
  set (w := λ (r : nat) ch, {| MpiDataChunk.instance := ch |}).
  set (st1 := update_ds st d (write_chunk dss idx (chunk_contents dss idx))).
  assert (lookup_ds st1 d = Some (write_chunk dss idx (chunk_contents dss idx)))
    as Hlook1 by (by eapply lookup_update_ds_eq).
  assert (exec c st = (inr tt, st1)) as Hex by (simpl; by rewrite Hlook).
  assert (exec get st1 = (inr chunk, st1)) as Hget by (simpl; by rewrite Hlook1).
  assert (g0 = ((λ r, root_first c (Call get (λ y, Ret (w r y))) r) <$> seq 0 P, st))
    as ->.
  { subst g0. unfold spmd. f_equal. apply ranks_ext. intros r _.
    apply create_chunk_is_root_first. }
  set (After := fetch_inv P get w chunk st1).
  assert (∀ r g, After g → After (gstep r g)) as Hstep
    by (intros r g; by apply fetch_inv_step).
  assert (∀ x st', exec c st = (inr x, st') →
                   After ((λ r, Call get (λ y, Ret (w r y))) <$> seq 0 P, st')) as Hinit.
  { intros x st' Hx. assert (st' = st1) as -> by congruence. apply fetch_inv_init. }
  assert (fin = ((λ r, Ret (w r chunk)) <$> seq 0 P, st1)) as Hfin
    by (subst fin w; cbv beta; by rewrite (fmap_const_seq _ 0 P)).
  split; [|split; [|split]].
  - intros sched Hstop. rewrite Hfin.
    apply (fetch_stopped P get w chunk st1); [|done].
    by apply (root_first_stopped P c _ st After HP Hstep Hinit tt st1).
  - rewrite Hfin, grun_app.
    rewrite (root_first_two_steps P c (λ r, Call get (λ y, Ret (w r y))) st HP tt st1 Hex).
    apply (fetch_live P get w chunk st1 Hget). apply fetch_inv_init.
  - intros p n Hne. cbn [snd]. by apply ds_at_update_ds_ne.
  - exists (write_chunk dss idx (chunk_contents dss idx)). split; [done|].
    split; [cbn [write_chunk dss_chunks]; by rewrite lookup_insert_eq|].
    intros i. destruct (decide (i = idx)) as [->|Hne].
    + by rewrite chunk_contents_write_eq.
    + by rewrite chunk_contents_write_ne.
Qed.

Lemma create_chunk_all_get_handle_witness :
  grun ([0; 0] ++ seq 0 2)
    (spmd 2 (λ comm, MpiDataset.create_chunk (MpiDataset.init ex_ds comm)
                       (PTuple [1; 0]) [] ∅), ex_store)
  = (replicate 2 (Ret {| MpiDataChunk.instance :=
                           {| bch_dataset := ex_ds; bch_idx := PTuple [1; 0] |} |}),
     update_ds ex_store ex_ds
       (write_chunk ex_dss [1; 0] (chunk_contents ex_dss [1; 0]))).
Proof.
  apply (create_chunk_all_get_handle 2 ex_ds [1; 0] [] ∅ ex_store ex_dss).
  - lia.
  - vm_compute. reflexivity.
Defined.

Section clear_phase.
Context `{Bounds} (P : nat) (d : bDataset) (st0 : Store) (dss0 : DsState).
Hypothesis HP : 0 < P.

Local Abbreviation T := (bd_total_chunks d).

Lemma clear_is_clear_prog r :
  MpiDataset.clear (MpiDataset.init d {| Get_rank := r; Get_size := P |})
  = clear_prog d (todo r T P 0).
Proof.
  unfold MpiDataset.clear, MpiDataset.total_chunks.
  cbn [MpiDataset.instance MpiDataset.init MpiDataset.mpi MpiMixin_init
       mpi_rank mpi_size Get_rank Get_size].
  by rewrite for_range_todo.
Qed.

Lemma clear_step_ok ms st r m :
  length ms = P → clear_rel P d st0 dss0 ms st → ms !! r = Some m →
  m < range_len r T P →
  ∃ X (c : callE X) k x st',
    clear_prog d (todo r T P m) = Call c k ∧ exec c st = (inr x, st')
    ∧ k x = clear_prog d (todo r T P (m + 1))
    ∧ clear_rel P d st0 dss0 (<[r := m + 1]> ms) st'.
Proof.
  intros Hlen (Hother & dss & Hlook & Hd & Hgone & Hrest) Hm Hlt.
  pose proof (lookup_lt_Some _ _ _ Hm) as Hr.
  assert (r + m * P < T) as Hk by (by apply range_len_spec).
  set (idx := idx_from_flat d (r + m * P)).
  set (dss' := {| dss_handle := dss_handle dss;
                  dss_chunks := delete idx (dss_chunks dss) |}).
  exists unit, (DsDelChunk d idx), (λ _, clear_prog d (todo r T P (m + 1))), tt,
    (update_ds st d dss').
  split; [by rewrite todo_cons by done|].
  split; [simpl; by rewrite Hlook|]. split; [done|]. split.
  - intros p n Hne. rewrite ds_at_update_ds_ne by done. by apply Hother.
  - exists dss'. split; [by eapply lookup_update_ds_eq|]. split; [done|]. split.
    + intros r' m' j Hm' Hj. cbn [dss' dss_chunks].
      destruct (decide (idx_from_flat d (r' + j * P) = idx)) as [->|Hne];
        [apply lookup_delete_eq|].
      rewrite lookup_delete_ne by done.
      destruct (decide (r' = r)) as [->|Hrr].
      * rewrite list_lookup_insert_eq in Hm' by lia. simplify_eq.
        destruct (decide (j = m)) as [->|]; [done|].
        apply (Hgone r m j); [done|lia].
      * rewrite list_lookup_insert_ne in Hm' by done. by apply (Hgone r' m' j).
    + intros i. cbn [dss' dss_chunks]. destruct (decide (i = idx)) as [->|Hne].
      * right. split; [apply lookup_delete_eq|]. by exists (r + m * P).
      * rewrite lookup_delete_ne by done. apply Hrest.
Qed.

Lemma clear_last_ok r : clear_prog d (todo r T P (range_len r T P)) = Barrier (Ret tt).
Proof. by rewrite todo_nil. Qed.

Lemma clear_initial :
  lookup_ds st0 d = Some dss0 →
  phase_inv P (λ r, range_len r T P) (λ r m, clear_prog d (todo r T P m))
    (λ _, tt) (clear_rel P d st0 dss0)
    (spmd P (λ comm, MpiDataset.clear (MpiDataset.init d comm)), st0).
Proof.
  intros Hlook. left. exists (replicate P 0).
  split; [by rewrite length_replicate|]. split.
  { intros r m [-> _]%lookup_replicate. lia. }
  split.
  - cbn [fst]. unfold spmd. apply list_eq. intros r. rewrite list_lookup_imap.
    destruct (decide (r < P)).
    + rewrite ranks_lookup, lookup_replicate_2 by done.
      cbn [fmap option_fmap option_map Nat.add]. f_equal. apply clear_is_clear_prog.
    + rewrite ranks_lookup_ge by lia.
      assert (replicate P 0 !! r = None) as -> by (apply lookup_replicate_None; lia).
      done.
  - split; [done|]. exists dss0. split; [done|]. split; [done|]. split.
    + intros r m j [-> _]%lookup_replicate Hj. lia.
    + intros i. by left.
Qed.
End clear_phase.

(** X22: when every rank of a group calls [clear] on a dataset that the
    store holds, then under every schedule, once all ranks have stopped they
    have all returned, the dataset is still registered under its handle, the
    chunk of every ordinal of the dataset is gone, so that it reads as the
    fill value again, chunks stored under any other index are as they were,
    and no other dataset has changed; and some schedule brings all ranks to
    return.  Nothing is asked of the flat-index mapping. *)
Theorem clear_removes_every_chunk `{Bounds} (P : nat) (d : bDataset) (st : Store)
    (dss0 : DsState) :
  0 < P → lookup_ds st d = Some dss0 →
  let g0 := (spmd P (λ comm, MpiDataset.clear (MpiDataset.init d comm)), st) in
  (∀ sched,
     forallb stopped (grun sched g0).1 = true →
     (grun sched g0).1 = replicate P (Ret tt)
     ∧ (∀ p n, (p, n) ≠ (bp_name (bd_pool d), bd_name d) →
               ds_at (grun sched g0).2 p n = ds_at st p n)
     ∧ ∃ dss, lookup_ds (grun sched g0).2 d = Some dss
              ∧ dss_handle dss = dss_handle dss0
              ∧ (∀ k, k < bd_total_chunks d →
                      dss_chunks dss !! idx_from_flat d k = None
                      ∧ chunk_contents dss (idx_from_flat d k)
                        = full (bd_chunk_size (dss_handle dss0))
                               (bd_fillvalue (dss_handle dss0)))
              ∧ ∀ idx, (∀ k, k < bd_total_chunks d → idx ≠ idx_from_flat d k) →
                       dss_chunks dss !! idx = dss_chunks dss0 !! idx)
  ∧ (∃ sched, (grun sched g0).1 = replicate P (Ret tt)).
Proof.
  intros HP Hlook g0.
  pose proof (clear_initial P d st dss0 HP Hlook) as Hinit. fold g0 in Hinit.
  pose proof (clear_step_ok P d st dss0 HP) as Hstep_ok.
  pose proof (λ r (_ : r < P), clear_last_ok P d r) as Hlast_ok.
  pose proof (λ X (x : X), fmap_const_seq (Ret x) 0 P) as Hrep.
  split.
  - intros sched Hstop.
    pose proof (phase_run P _ _ _ _ Hstep_ok Hlast_ok sched g0 Hinit) as Hinv.
    destruct (phase_stopped P _ _ _ _ Hstep_ok Hlast_ok _ HP Hinv Hstop)
      as [Hps (Hother & dss & Hl & Hd & Hgone & Hrest)].
    split; [by rewrite Hps, Hrep|]. split; [done|].
    exists dss. split; [done|]. split; [done|].
    assert (∀ k, k < bd_total_chunks d → dss_chunks dss !! idx_from_flat d k = None)
      as Hnone.
    { intros k Hk.
      destruct (ordinal_position (bd_total_chunks d) P k HP Hk) as (Heq & Hr & Hj).
      rewrite Heq.
      apply (Hgone (k mod P) (range_len (k mod P) (bd_total_chunks d) P) (k / P));
        [|done].
      by rewrite list_lookup_fmap, lookup_seq_lt by done. }
    split.
    + intros k Hk. split; [by apply Hnone|].
      unfold chunk_contents. by rewrite Hnone, Hd by done.
    + intros idx Hidx. destruct (Hrest idx) as [Heq|[_ (k & Hk & ->)]]; [done|].
      by destruct (Hidx k Hk).
  - destruct (phase_live P _ _ _ _ Hstep_ok Hlast_ok g0 Hinit) as [sched Hs].
    exists sched. by rewrite Hs, Hrep.
Qed.

Lemma clear_removes_every_chunk_witness :
  ∃ sched,
    (grun sched
       (spmd 2 (λ comm, MpiDataset.clear (H := grid_bounds)
                          (MpiDataset.init ex_ds comm)), ex_store)).1
    = replicate 2 (Ret tt).
Proof.
  eapply (clear_removes_every_chunk (H := grid_bounds) 2 ex_ds ex_store ex_dss).
  - lia.
  - vm_compute. reflexivity.
Defined.

(** ** A clone that cannot be created *)

Lemma gstep_bcast_blocked {A} r (g : gstate A) obj k :
  g.1 !! r = Some (Bcast obj k) → forallb at_bcast g.1 = false → gstep r g = g.
Proof. intros Hr Hall. unfold gstep. by rewrite Hr, Hall. Qed.

Lemma exec_create_existing st p n kw dss :
  ds_at st (bp_name p) n = Some dss →
  exec (PoolCreateDataset p [PStr n] kw) st = (inl (BackendError "dataset exists"), st).
Proof.
  unfold ds_at. intros Hds. simpl.
  destruct (st !! bp_name p) as [pool|]; [|done]. simpl in Hds. by rewrite Hds.
Qed.

(** When the root's create raises, the group is either as it started or the
    root has raised and the others wait for the broadcast. *)
Lemma clone_then_failure {A} (P : nat) (d : bDataset) (output_name : pyval)
    (cont : nat → bDataset → Prog A) (st st' : Store) (e : pyexc) (sched : list nat) :
  0 < P →
  exec (PoolCreateDataset (bd_pool d) [output_name] (clone_kwargs d)) st = (inl e, st') →
  let g0 := ((λ r, clone_then d output_name (cont r) r) <$> seq 0 P, st) in
  let failed := ((λ r, if r =? 0 then Raise e else Bcast None (cont r)) <$> seq 0 P,
                 st') in
  (grun sched g0 = g0 ∨ grun sched g0 = failed) ∧ grun [0] g0 = failed.
Proof.
  intros HP Hex g0 failed.
  assert (gstep 0 g0 = failed) as Hroot.
  { subst g0 failed. erewrite gstep_call_raise;
      [|cbn [fst]; rewrite ranks_lookup by done; reflexivity|exact Hex].
    cbn [fst snd]. rewrite ranks_insert_root. f_equal.
    apply ranks_ext. intros r _. by destruct r. }
  split; [|done].
  apply (grun_invariant (λ g, g = g0 ∨ g = failed)); [|by left].
  intros r g [->| ->]; [destruct r as [|r]; [by right|]|]; subst g0 failed.
  - destruct (decide (S r < P)) as [Hr|Hr];
      [|left; apply gstep_none; cbn [fst]; by rewrite ranks_lookup_ge by lia].
    left. eapply gstep_bcast_blocked.
    + cbn [fst]. rewrite ranks_lookup by done. reflexivity.
    + cbn [fst]. by apply ranks_forallb_root.
  - right. destruct (decide (r < P)) as [Hr|Hr];
      [|apply gstep_none; cbn [fst]; by rewrite ranks_lookup_ge by lia].
    destruct r as [|r].
    + eapply gstep_raised. cbn [fst]. rewrite ranks_lookup by done. reflexivity.
    + eapply gstep_bcast_blocked.
      * cbn [fst]. rewrite ranks_lookup by done. reflexivity.
      * cbn [fst]. by apply ranks_forallb_root.
Qed.

Lemma clone_then_failure_blocks {A} (P : nat) (d : bDataset) (n : string)
    (cont : nat → bDataset → Prog A) (st : Store) (dss : DsState) (sched : list nat) :
  0 < P → ds_at st (bp_name (bd_pool d)) n = Some dss →
  let g0 := ((λ r, clone_then d (PStr n) (cont r) r) <$> seq 0 P, st) in
  others_blocked (grun sched g0) ∧ (grun sched g0).2 = st
  ∧ (∀ a, (grun sched g0).1 !! 0 ≠ Some (Ret a))
  ∧ (grun [0] g0).1 !! 0 = Some (Raise (BackendError "dataset exists")).
Proof.
  intros HP Hds g0.
  pose proof (exec_create_existing st (bd_pool d) n (clone_kwargs d) dss Hds) as Hex.
  destruct (clone_then_failure P d (PStr n) cont st st _ sched HP Hex) as [Hg Hroot].
  subst g0. cbv zeta in Hg, Hroot. split; [|split; [|split]].
  - intros r p Hr Hp. destruct Hg as [Hg|Hg]; rewrite Hg in Hp; cbn [fst] in Hp;
      apply ranks_lookup_Some in Hp as [? ->]; unfold clone_then;
      by destruct r; [lia|].
  - by destruct Hg as [-> | ->].
  - intros a. destruct Hg as [-> | ->]; cbn [fst]; by rewrite ranks_lookup by done.
  - rewrite Hroot. cbn [fst]. by rewrite ranks_lookup by done.
Qed.

(** X23: when every rank of a group calls [clone] with a name that the pool
    of the dataset already holds, the root's create raises at its first step
    and nothing follows: under every schedule no other rank ever stops, each
    waiting for the broadcast that the root never makes, the root never
    returns, and the store stays as it was. *)
Theorem clone_onto_existing_name_blocks (P : nat) (d : bDataset) (n : string)
    (st : Store) (dss : DsState) (sched : list nat) :
  0 < P → ds_at st (bp_name (bd_pool d)) n = Some dss →
  let g0 := (spmd P (λ comm, MpiDataset.clone (MpiDataset.init d comm) (PStr n)), st) in
  others_blocked (grun sched g0) ∧ (grun sched g0).2 = st
  ∧ (∀ a, (grun sched g0).1 !! 0 ≠ Some (Ret a))
  ∧ (grun [0] g0).1 !! 0 = Some (Raise (BackendError "dataset exists")).
Proof.
  intros HP Hds g0.
  assert (g0 = ((λ r, clone_then d (PStr n)
                        (λ out, Ret (MpiDataset.init out
                                       {| Get_rank := r; Get_size := P |})) r)
                  <$> seq 0 P, st)) as ->.
  { subst g0. unfold spmd. f_equal. apply ranks_ext. intros r _.
    apply clone_is_clone_then. }
  by apply (clone_then_failure_blocks P d n _ st dss sched).
Qed.

Lemma clone_onto_existing_name_blocks_witness :
  let g := grun [1; 0; 1; 0]
             (spmd 2 (λ comm, MpiDataset.clone (MpiDataset.init ex_ds comm)
                                (PStr "ragged")), ex_store) in
  others_blocked g ∧ g.2 = ex_store.
Proof.
  pose proof (clone_onto_existing_name_blocks 2 ex_ds "ragged" ex_store ex_dss_ragged
                [1; 0; 1; 0]) as Hb.
  destruct Hb as (H1 & H2 & _).
  - lia.
  - vm_compute. reflexivity.
  - exact (conj H1 H2).
Defined.

(** X24: when every rank of a group calls [map] with an output name that the
    pool of the dataset already holds (its own name included), no chunk is
    read or written: the root's create raises at its first step, and under
    every schedule no other rank ever stops, the root never returns, and the
    store stays as it was. *)
Theorem map_onto_existing_name_blocks `{Bounds} (P : nat) (d : bDataset)
    (func : ndarray → ndarray) (n : string) (st : Store) (dss : DsState)
    (sched : list nat) :
  0 < P → ds_at st (bp_name (bd_pool d)) n = Some dss →
  let g0 := (spmd P (λ comm, MpiDataset.map (MpiDataset.init d comm) func (PStr n)),
             st) in
  others_blocked (grun sched g0) ∧ (grun sched g0).2 = st
  ∧ (∀ a, (grun sched g0).1 !! 0 ≠ Some (Ret a))
  ∧ (grun [0] g0).1 !! 0 = Some (Raise (BackendError "dataset exists")).
Proof.
  intros HP Hds g0.
  assert (g0 = ((λ r, clone_then d (PStr n)
                        (λ out, transform_at P d out func (λ _, full [] 0)
                                  (λ r, MpiDataset.init out
                                          {| Get_rank := r; Get_size := P |}) r 0) r)
                  <$> seq 0 P, st)) as ->.
  { subst g0. unfold spmd. f_equal. apply ranks_ext. intros r _.
    by apply map_is_clone_then. }
  by apply (clone_then_failure_blocks P d n _ st dss sched).
Qed.

Lemma map_onto_existing_name_blocks_witness :
  let g := grun [0; 1; 1; 0]
             (spmd 2 (λ comm, MpiDataset.map (H := grid_bounds)
                                (MpiDataset.init ex_ds comm) incr (PStr "ds")),
              ex_store) in
  others_blocked g ∧ g.2 = ex_store.
Proof.
  pose proof (map_onto_existing_name_blocks (H := grid_bounds) 2 ex_ds incr "ds"
                ex_store ex_dss [0; 1; 1; 0]) as Hb.
  destruct Hb as (H1 & H2 & _).
  - lia.
  - vm_compute. reflexivity.
  - exact (conj H1 H2).
Defined.

(** ** One method after another on a group *)

Lemma forallb_imap_ext {X Y} (q : Y → bool) (q' a : X → bool) (l : list X) :
  ∀ h : nat → X → Y,
    (∀ r x, a x = true → q (h r x) = q' x) → forallb a l = true →
    forallb q (imap h l) = forallb q' l.
Proof.
  induction l as [|x l IH]; intros h Hq Ha; [done|].
  cbn [imap forallb] in *. apply andb_prop in Ha as [Hx Hl].
  rewrite (Hq 0 x Hx). f_equal. apply IH; [|done]. intros r y. apply Hq.
Qed.

Lemma fmap_imap_ext {X Y} (a : X → bool) (h : nat → X → Y) (u : X → X) (u' : Y → Y)
    (l : list X) :
  (∀ r x, a x = true → u' (h r x) = h r (u x)) → forallb a l = true →
  u' <$> imap h l = imap h (u <$> l).
Proof.
  intros Hu Ha. apply list_eq. intros i.
  rewrite list_lookup_fmap, !list_lookup_imap, list_lookup_fmap.
  destruct (l !! i) as [x|] eqn:Hx; [|done]. cbn.
  by rewrite (Hu i x (forallb_lookup _ _ _ _ Ha Hx)).
Qed.

Lemma gstep_length {A} r (g : gstate A) : length (gstep r g).1 = length g.1.
Proof.
  unfold gstep. destruct (g.1 !! r) as [[a|e|X c k|k|obj k]|]; try done.
  - destruct (exec c g.2) as [[e|x] st]; cbn [fst]; by rewrite length_insert.
  - destruct (forallb at_barrier g.1); [|done]. cbn [fst]. by rewrite length_fmap.
  - destruct (forallb at_bcast g.1); [|done].
    destruct (g.1 !! 0) as [[| | | |[v|] ?]|]; try done.
    cbn [fst]. by rewrite length_fmap.
Qed.

Lemma grun_length {A} sched (g : gstate A) : length (grun sched g).1 = length g.1.
Proof.
  apply (grun_invariant (λ g', length g'.1 = length g.1)); [|done].
  intros r g' Hg'. by rewrite gstep_length.
Qed.

Lemma active_bind {A B} (p : Prog A) (f : A → Prog B) :
  active p = true → stopped (bind p f) = false.
Proof. by destruct p. Qed.

Lemma then_all_ranks {A B} (f : nat → A → Prog B) (h : nat → Prog A) P :
  then_all f (h <$> seq 0 P) = (λ r, bind (h r) (f r)) <$> seq 0 P.
Proof.
  apply list_eq. intros r. unfold then_all. rewrite list_lookup_imap.
  destruct (decide (r < P)).
  - by rewrite !ranks_lookup by done.
  - by rewrite !ranks_lookup_ge by lia.
Qed.

(** While no rank has stopped, the group with continuations moves as the
    group without them. *)
Lemma gstep_then {A B} (f : nat → A → Prog B) r (g : gstate A) :
  forallb active g.1 = true →
  gstep r (then_all f g.1, g.2) = (then_all f (gstep r g).1, (gstep r g).2).
Proof.
  intros Hact. destruct g as [ps st]. cbn [fst snd] in *.
  assert (forallb at_barrier (then_all f ps) = forallb at_barrier ps) as Hbar.
  { apply (forallb_imap_ext _ _ active); [|done]. intros i p Hp. by destruct p. }
  assert (forallb at_bcast (then_all f ps) = forallb at_bcast ps) as Hbc.
  { apply (forallb_imap_ext _ _ active); [|done]. intros i p Hp. by destruct p. }
  assert (∀ i, then_all f ps !! i = (λ p, bind p (f i)) <$> ps !! i) as Hlook
    by (intros i; unfold then_all; by rewrite list_lookup_imap).
  unfold gstep at 1 2 3. cbn [fst snd]. rewrite Hlook.
  destruct (ps !! r) as [p|] eqn:Hp; [|done]. cbn [fmap option_fmap option_map].
  pose proof (forallb_lookup _ _ _ _ Hact Hp) as Hpa.
  destruct p as [a|e|X c k|k|obj k]; try done; cbn [bind].
  - destruct (exec c st) as [[e|x] st']; cbn [fst snd]; f_equal;
      unfold then_all; by rewrite <- imap_insert.
  - rewrite Hbar. destruct (forallb at_barrier ps); [|done]. cbn [fst snd]. f_equal.
    apply (fmap_imap_ext active); [|done]. intros i p Hpi. by destruct p.
  - rewrite Hbc. destruct (forallb at_bcast ps); [|done]. rewrite Hlook.
    destruct (ps !! 0) as [p0|] eqn:Hp0; [|done].
    pose proof (forallb_lookup _ _ _ _ Hact Hp0) as Hp0a.
    destruct p0 as [| | | |[v|] k0]; try done.
    cbn [fmap option_fmap option_map bind fst snd]. f_equal.
    apply (fmap_imap_ext active); [|done]. intros i p Hpi. by destruct p.
Qed.

Section then_group.
Context {A B : Type} (P : nat) (f : nat → A → Prog B) (v : nat → A)
        (Inv : gstate A → Prop) (Fin : Store → Prop).
Hypothesis Inv_step : ∀ r g, Inv g → Inv (gstep r g).
Hypothesis Inv_cases : ∀ g,
  Inv g → forallb active g.1 = true ∨ (g.1 = (λ r, Ret (v r)) <$> seq 0 P ∧ Fin g.2).

(** A group whose ranks leave the first method together: it runs the first
    method, or has left it at some point of the schedule and runs the
    second from the store the first left. *)
Lemma then_run sched g0 :
  Inv g0 → forallb active g0.1 = true →
  (forallb active (grun sched g0).1 = true
   ∧ grun sched (then_all f g0.1, g0.2)
     = (then_all f (grun sched g0).1, (grun sched g0).2))
  ∨ (∃ s1 s2,
       sched = s1 ++ s2 ∧ Fin (grun s1 g0).2
       ∧ grun sched (then_all f g0.1, g0.2)
         = grun s2 ((λ r, f r (v r)) <$> seq 0 P, (grun s1 g0).2)).
Proof.
  intros Hinv0 Hact0. induction sched as [|r sched IH] using rev_ind; [by left|].
  destruct IH as [[Hact Heq]|(s1 & s2 & -> & Hfin & Heq)].
  - rewrite !grun_app. change (grun [r] ?g) with (gstep r g). rewrite Heq.
    rewrite gstep_then by done.
    assert (Inv (gstep r (grun sched g0))) as Hinv
      by (apply Inv_step; by apply grun_invariant).
    destruct (Inv_cases _ Hinv) as [Hact'|[Hret Hfin]]; [by left|].
    right. exists (sched ++ [r]), []. rewrite app_nil_r, grun_app.
    change (grun [r] ?g) with (gstep r g). split; [done|]. split; [done|].
    by rewrite Hret, then_all_ranks.
  - right. exists s1, (s2 ++ [r]). split; [by rewrite app_assoc|]. split; [done|].
    by rewrite (grun_app (s1 ++ s2)), Heq, <- grun_app.
Qed.
End then_group.

Lemma then_all_running {A B} (f : nat → A → Prog B) (ps : list (Prog A)) :
  0 < length ps → forallb active ps = true →
  forallb stopped (then_all f ps) = false.
Proof.
  intros Hlen Hact. destruct (forallb stopped (then_all f ps)) eqn:Hstop; [|done].
  destruct (ps !! 0) as [p0|] eqn:H0; [|apply lookup_ge_None in H0; lia].
  pose proof (forallb_lookup _ _ _ _ Hact H0) as Hp0.
  assert (then_all f ps !! 0 = Some (bind p0 (f 0))) as H0'
    by (unfold then_all; by rewrite list_lookup_imap, H0).
  pose proof (forallb_lookup _ _ _ _ Hstop H0') as Hs.
  by rewrite active_bind in Hs.
Qed.

(** ** A dataset created from data and deleted again *)

Lemma exec_set_chunk_frame st d idx values slices q m :
  (q, m) ≠ (bp_name (bd_pool d), bd_name d) →
  ds_at (exec (DsSetChunkData d idx values slices) st).2 q m = ds_at st q m.
Proof.
  intros Hne. simpl. destruct (lookup_ds st d) as [dss|]; [|done].
  destruct (setitem _ _ _); [|done]. cbn [snd]. by apply ds_at_update_ds_ne.
Qed.

Lemma exec_get_dataset_store st p args kw : (exec (PoolGetDataset p args kw) st).2 = st.
Proof. simpl. by repeat case_match. Qed.

Lemma phase_inv_with {A} P M (prog_of : nat → nat → Prog A) v
    (Sinv : list nat → Store → Prop) (Q : Store → Prop) (g : gstate A) :
  phase_inv P M prog_of v Sinv g → Q g.2 →
  phase_inv P M prog_of v (λ ms st, Sinv ms st ∧ Q st) g.
Proof.
  intros [(ms & Hlen & Hle & Hps & HS)|[Hps HS]] HQ; [left|by right].
  by exists ms.
Qed.

Lemma phase_cases {A} P M (prog_of : nat → nat → Prog A) v
    (Sinv : list nat → Store → Prop) (g : gstate A) :
  (∀ ms st r m,
     length ms = P → Sinv ms st → ms !! r = Some m → m < M r →
     ∃ X (c : callE X) k x st',
       prog_of r m = Call c k ∧ exec c st = (inr x, st')
       ∧ k x = prog_of r (m + 1) ∧ Sinv (<[r := m + 1]> ms) st') →
  (∀ r, r < P → prog_of r (M r) = Barrier (Ret (v r))) →
  phase_inv P M prog_of v Sinv g →
  forallb active g.1 = true
  ∨ (g.1 = (λ r, Ret (v r)) <$> seq 0 P ∧ Sinv (M <$> seq 0 P) g.2).
Proof.
  intros Hstep Hlast [(ms & Hlen & Hle & Hps & HS)|Hfin]; [left|by right].
  rewrite Hps. apply forallb_forall. intros q Hin.
  apply list_elem_of_In, list_elem_of_lookup in Hin as [r Hr].
  rewrite list_lookup_imap in Hr.
  destruct (ms !! r) as [m|] eqn:Hm; [|done]. simpl in Hr. injection Hr as <-.
  pose proof (lookup_lt_Some _ _ _ Hm) as Hlt.
  destruct (decide (m < M r)) as [Hm'|Hm'].
  - destruct (Hstep ms g.2 r m Hlen HS Hm Hm') as (X & c & k & x & st' & -> & _).
    done.
  - assert (m = M r) as -> by (specialize (Hle _ _ Hm); lia).
    by rewrite Hlast by lia.
Qed.

Section create_with_data_in.
Context `{Bounds} (P : nat) (p : bPool) (n : string) (d : bDataset) (data : ndarray)
        (st0 : Store).
Hypothesis HP : 0 < P.
Hypothesis Hpool : bd_pool d = p.
Hypothesis Hname : bd_name d = n.
Hypothesis Hshape : shape data = bd_shape d.
Hypothesis Hfit : bounds_fit d = true.

Local Abbreviation T := (bd_total_chunks d).
Local Abbreviation M := (λ r, S (range_len r T P)).

Lemma create_load_step_ok_in ms st r m :
  length ms = P → create_load_rel_in P d data st0 ms st → ms !! r = Some m →
  m < M r →
  ∃ X (c : callE X) k x st',
    create_load_at P p n d data r m = Call c k ∧ exec c st = (inr x, st')
    ∧ k x = create_load_at P p n d data r (m + 1)
    ∧ create_load_rel_in P d data st0 (<[r := m + 1]> ms) st'.
Proof.
  intros Hlen [Hrel Hframe] Hm Hlt.
  destruct (create_load_step_ok P p n d data HP Hpool Hname Hshape Hfit
              ms st r m Hlen Hrel Hm Hlt)
    as (X & c & k & x & st' & Hc & Hex & Hk & Hrel').
  exists X, c, k, x, st'. split; [done|]. split; [done|]. split; [done|].
  split; [done|]. intros q m' Hne.
  assert (match create_load_at P p n d data r m with
          | Call c _ => (exec c st).2
          | _ => st
          end = st') as <- by (rewrite Hc; by rewrite Hex).
  destruct m as [|m0].
  - cbn [create_load_at]. rewrite exec_get_dataset_store. by apply Hframe.
  - cbn [create_load_at]. rewrite todo_cons by lia.
    unfold load_prog, load_body. cbn [for_each]. cbv zeta.
    destruct (getitem data _); cbn [bind mbind Prog_bind call];
      [rewrite exec_set_chunk_frame by done|]; by apply Hframe.
Qed.

Lemma create_load_initial_in (pool : gmap string DsState) :
  st0 !! bp_name p = Some pool →
  phase_inv P M (create_load_at P p n d data)
    (λ r, MpiDataset.init d {| Get_rank := r; Get_size := P |})
    (create_load_rel_in P d data st0)
    ((λ r, create_load_at P p n d data r 0) <$> seq 0 P,
     <[bp_name p := <[n := {| dss_handle := d; dss_chunks := ∅ |}]> pool]> st0).
Proof.
  intros Hp.
  apply (phase_inv_with P M _ _ (create_load_rel P d data)
           (λ st, ∀ q m, (q, m) ≠ (bp_name (bd_pool d), bd_name d) →
                         ds_at st q m = ds_at st0 q m)).
  - by apply create_load_initial.
  - cbn [snd]. rewrite Hpool, Hname. intros q m Hne. unfold ds_at.
    destruct (decide (q = bp_name p)) as [->|Hq].
    + rewrite lookup_insert_eq, Hp. simpl. apply lookup_insert_ne. congruence.
    + by rewrite lookup_insert_ne.
Qed.
End create_with_data_in.

(** X25: creating a dataset from data and deleting it again, as one program
    on a group: when every rank calls [create_dataset] with the same array
    under the keyword [data], for a name that the pool does not hold, the
    new dataset having the array's shape, and then [del_dataset] for that
    name, then under every schedule, once all ranks have stopped they have
    all returned and every dataset of the store is as it was before, the new
    one gone again; and some schedule brings all ranks to return.  The
    bounds collaborator is required to give, for every chunk, slices of
    equal extent in dataset and chunk. *)
Theorem create_then_del_dataset_leaves_store `{Bounds} (P : nat) (p : bPool)
    (n : string) (kw : kwargs) (data : ndarray) (st : Store)
    (pool : gmap string DsState) (d : bDataset) :
  0 < P → st !! bp_name p = Some pool → pool !! n = None →
  kw !! "data" = Some (PArr data) → new_dataset p n kw = inr d →
  shape data = bd_shape d → bounds_fit d = true →
  let g0 := (spmd P (λ comm, create_then_del_dataset (MpiPool.init p comm) n kw),
             st) in
  (∀ sched,
     forallb stopped (grun sched g0).1 = true →
     (grun sched g0).1 = replicate P (Ret tt)
     ∧ ∀ q m, ds_at (grun sched g0).2 q m = ds_at st q m)
  ∧ (∃ sched, (grun sched g0).1 = replicate P (Ret tt)).
Proof.
  intros HP Hp Hn Hdata Hd Hshape Hfit g0.
  destruct (new_dataset_names p n _ d Hd) as [Hpool Hname].
  set (c := PoolCreateDataset p [PStr n] kw).
  set (del := PoolDelDataset p [PStr n] ∅).
  set (st1 := <[bp_name p := <[n := {| dss_handle := d; dss_chunks := ∅ |}]> pool]> st).
  pose proof (exec_create_dataset st p n kw pool d Hp Hn Hd) as Hex.
  fold c st1 in Hex.
  set (cont := λ r, create_load_at P p n d data r 0).
  set (v := λ r, MpiDataset.init d {| Get_rank := r; Get_size := P |}).
  set (g1 := ((λ r, root_first c (cont r) r) <$> seq 0 P, st)).
  assert (g0 = (then_all (λ r _, fenced del tt r) g1.1, g1.2)) as ->.
  { subst g0 g1. cbn [fst snd]. rewrite then_all_ranks. unfold spmd. f_equal.
    apply ranks_ext. intros r _. unfold create_then_del_dataset.
    rewrite (create_dataset_with_data_root_first P p n d data kw r) by done.
    by rewrite del_dataset_is_fenced. }
  set (M := λ r, S (range_len r (bd_total_chunks d) P)).
  set (Sinv := create_load_rel_in P d data st).
  set (After := phase_inv P M (create_load_at P p n d data) v Sinv).
  set (Inv := root_first_inv P c cont st After).
  pose proof (create_load_step_ok_in P p n d data st HP Hpool Hname Hshape Hfit)
    as Hstep_ok.
  pose proof (create_load_last_ok P p n d data) as Hlast_ok.
  assert (∀ r g, After g → After (gstep r g)) as After_step
    by (intros r g; by apply phase_step).
  assert (∀ x st', exec c st = (inr x, st') → After (cont <$> seq 0 P, st'))
    as After_init.
  { intros x st' Hx. rewrite Hex in Hx. injection Hx as _ <-.
    by apply create_load_initial_in. }
  assert (∀ r g, Inv g → Inv (gstep r g)) as Inv_step
    by (intros r g; by apply root_first_inv_step).
  assert (∀ g, Inv g →
               forallb active g.1 = true
               ∨ (g.1 = (λ r, Ret (v r)) <$> seq 0 P ∧ Sinv (M <$> seq 0 P) g.2))
    as Inv_cases.
  { intros g [->|[[_ ->]|[Hafter|(e & He & _)]]].
    - left. cbn [fst]. apply ranks_forallb. intros r _. unfold root_first.
      by destruct (r =? 0).
    - left. cbn [fst]. by apply ranks_forallb.
    - by apply (phase_cases P M (create_load_at P p n d data) v Sinv).
    - by rewrite Hex in He. }
  assert (Inv g1) as Hinv1 by (by left).
  assert (forallb active g1.1 = true) as Hact1.
  { cbn [fst]. apply ranks_forallb. intros r _. unfold root_first.
    by destruct (r =? 0). }
  assert (∀ st2, Sinv (M <$> seq 0 P) st2 →
            ∃ pool2 dss2,
              st2 !! bp_name p = Some pool2 ∧ pool2 !! n = Some dss2
              ∧ ∀ q m, (q, m) ≠ (bp_name p, n) → ds_at st2 q m = ds_at st q m)
    as Hfin_store.
  { intros st2 [(dss2 & Hl2 & _) Hframe]. rewrite Hpool, Hname in Hframe.
    unfold lookup_ds, ds_at in Hl2. rewrite Hpool, Hname in Hl2.
    destruct (st2 !! bp_name p) as [pool2|]; [|done]. by exists pool2, dss2. }
  split.
  - intros sched Hstop.
    destruct (then_run P (λ r _, fenced del tt r) v Inv _ Inv_step Inv_cases
                sched g1 Hinv1 Hact1)
      as [[Hact Heq]|(s1 & s2 & -> & Hfin & Heq)].
    + exfalso. rewrite Heq in Hstop. cbn [fst] in Hstop.
      assert (length (grun sched g1).1 = P) as Hlen
        by (rewrite grun_length; subst g1; cbn [fst];
            by rewrite length_fmap, length_seq).
      destruct ((grun sched g1).1 !! 0) as [p0|] eqn:H0;
        [|apply lookup_ge_None in H0; lia].
      pose proof (forallb_lookup _ _ _ _ Hact H0) as Hp0.
      assert (then_all (λ r (_ : MpiDataset.t), fenced del tt r) (grun sched g1).1 !! 0
              = Some (bind p0 (λ _, fenced del tt 0))) as H0'
        by (unfold then_all; by rewrite list_lookup_imap, H0).
      pose proof (forallb_lookup _ _ _ _ Hstop H0') as Hs.
      by rewrite active_bind in Hs.
    + destruct (Hfin_store _ Hfin) as (pool2 & dss2 & Hp2 & Hn2 & Hframe).
      pose proof (exec_del_dataset _ p n ∅ pool2 dss2 Hp2 Hn2) as Hexd.
      rewrite Heq in Hstop |- *.
      pose proof (fenced_success P del (λ _, tt) _ HP tt _ s2 Hexd Hstop) as Hfs.
      cbv beta in Hfs |- *. rewrite Hfs. cbn [fst snd].
      split; [apply fmap_const_seq|]. intros q m. rewrite ds_at_after_del by done.
      destruct (decide ((q, m) = (bp_name p, n))) as [Heq'|Hne]; [|by apply Hframe].
      injection Heq' as -> ->. unfold ds_at. by rewrite Hp.
  - assert (∃ s1, (grun s1 g1).1 = (λ r, Ret (v r)) <$> seq 0 P) as [s1 Hs1].
    { apply (root_first_live P c cont st After HP After_init d st1
               (λ g, g.1 = (λ r, Ret (v r)) <$> seq 0 P) Hex).
      intros g Hg. by apply (phase_live P _ _ _ _ Hstep_ok Hlast_ok g). }
    destruct (then_run P (λ r _, fenced del tt r) v Inv _ Inv_step Inv_cases
                s1 g1 Hinv1 Hact1)
      as [[Hact Heq]|(a & b & Hab & Hfin & Heq)].
    + exfalso. rewrite Hs1 in Hact.
      by rewrite (ranks_forallb_root active _ P HP) in Hact.
    + destruct (Hfin_store _ Hfin) as (pool2 & dss2 & Hp2 & Hn2 & Hframe).
      pose proof (exec_del_dataset _ p n ∅ pool2 dss2 Hp2 Hn2) as Hexd.
      exists (s1 ++ [0; 0; 0]). rewrite grun_app, Heq.
      pose proof (fenced_live_from P del (λ _, tt) _ HP tt _ _ Hexd
                    (fenced_inv_run P del (λ _, tt) _ HP b)) as Hlive.
      cbv beta in Hlive |- *. rewrite Hlive. cbn [fst]. apply fmap_const_seq.
Qed.

Lemma create_then_del_dataset_leaves_store_witness :
  let kw : kwargs :=
    <["data" := PArr (arange2 5 3)]> (<["chunks" := PTuple [2; 2]]> ∅) in
  ∃ sched,
    (grun sched
       (spmd 3 (λ comm, create_then_del_dataset (H := grid_bounds)
                          (MpiPool.init ex_pool comm) "fresh" kw),
        ex_store)).1
    = replicate 3 (Ret tt).
Proof.
  intros kw.
  eapply (create_then_del_dataset_leaves_store (H := grid_bounds) 3 ex_pool "fresh" kw
            (arange2 5 3) ex_store {["ds" := ex_dss; "ragged" := ex_dss_ragged]}
            {| bd_pool := ex_pool; bd_name := "fresh"; bd_shape := [5; 3];
               bd_dtype := "float64"; bd_chunk_size := [2; 2]; bd_fillvalue := 0;
               bd_total_chunks := 6 |}).
  - lia.
  - vm_compute. reflexivity.
  - vm_compute. reflexivity.
  - vm_compute. reflexivity.
  - vm_compute. reflexivity.
  - reflexivity.
  - vm_compute. reflexivity.
Defined.

(** ** The reconnect on a group *)

Section reconnect_phase.
Context {A : Type} (P : nat) (self_of : nat → MpiCluster.t)
        (ret : nat → MpiCluster.t → A) (st : Store).

Local Abbreviation fresh_of r :=
  {| bc_backend := (MpiCluster.cparams (self_of r)).1.1;
     bc_name := (MpiCluster.cparams (self_of r)).1.2;
     bc_kwargs := (MpiCluster.cparams (self_of r)).2 |}.

Lemma reconnect_step_ok ms st1 r m :
  length ms = P → st1 = st → ms !! r = Some m → m < 3 →
  ∃ X (c : callE X) k x st',
    reconnect_at (self_of r) (ret r) m = Call c k ∧ exec c st1 = (inr x, st')
    ∧ k x = reconnect_at (self_of r) (ret r) (m + 1) ∧ st' = st.
Proof.
  intros _ -> _ Hm. unfold reconnect_at.
  destruct (MpiCluster.cparams (self_of r)) as [[b nm] kwc].
  destruct m as [|[|[|m]]]; [| | |lia].
  - by eexists _, _, _, tt, st.
  - by eexists _, _, _, {| bc_backend := b; bc_name := nm; bc_kwargs := kwc |}, st.
  - by eexists _, _, _, tt, st.
Qed.

Lemma reconnect_last_ok r :
  r < P →
  reconnect_at (self_of r) (ret r) 3
  = Barrier (Ret (ret r (MpiCluster.set_instance (self_of r) (fresh_of r)))).
Proof.
  intros _. unfold reconnect_at.
  by destruct (MpiCluster.cparams (self_of r)) as [[b nm] kwc].
Qed.

Lemma reconnect_initial :
  phase_inv P (λ _, 3) (λ r, reconnect_at (self_of r) (ret r))
    (λ r, ret r (MpiCluster.set_instance (self_of r) (fresh_of r)))
    (λ _ st1, st1 = st)
    ((λ r, reconnect_at (self_of r) (ret r) 0) <$> seq 0 P, st).
Proof.
  left. exists (replicate P 0).
  split; [by rewrite length_replicate|]. split.
  { intros r m [-> _]%lookup_replicate. lia. }
  split; [|done]. cbn [fst]. apply list_eq. intros r. rewrite list_lookup_imap.
  destruct (decide (r < P)).
  - by rewrite ranks_lookup, lookup_replicate_2 by done.
  - rewrite ranks_lookup_ge by lia.
    assert (replicate P 0 !! r = None) as -> by (apply lookup_replicate_None; lia).
    done.
Qed.
End reconnect_phase.

Lemma del_pool_is_fenced_then (P : nat) (inst : bCluster) (b : Backend) (nm : pyval)
    (kwc : kwargs) (args : list pyval) (kw : kwargs) (r : nat) :
  MpiCluster.del_pool
    (cluster_of inst (b, nm, kwc) true {| Get_rank := r; Get_size := P |}) args kw
  = bind (fenced (ClusterDelPool inst args kw) tt r)
         (λ _, reconnect_at
                 (cluster_of inst (b, nm, kwc) true {| Get_rank := r; Get_size := P |})
                 id 0).
Proof.
  unfold MpiCluster.del_pool, fenced, cluster_of, reconnect_at.
  cbn [MpiCluster.instance MpiCluster.mpi MpiCluster.ceph_backend MpiCluster.cparams
       MpiMixin_init mpi_is_root Get_rank].
  by destruct (r =? 0).
Qed.

(** X26: when every rank of a group whose backend needs a reconnect calls
    [del_pool] for a pool that the cluster holds, then under every schedule,
    once all ranks have stopped, every rank has returned its cluster object
    with a new backend handle built from the stored parameters, its
    parameters, flag and communicator unchanged, and the pool is gone from
    the store; and some schedule brings all ranks there. *)
Theorem del_pool_reconnects_every_rank (P : nat) (inst : bCluster) (b : Backend)
    (nm : pyval) (kwc : kwargs) (n : string) (kw : kwargs) (st : Store)
    (pool : gmap string DsState) :
  0 < P → st !! n = Some pool →
  let fresh := {| bc_backend := b; bc_name := nm; bc_kwargs := kwc |} in
  let g0 := (spmd P (λ comm, MpiCluster.del_pool
                               (cluster_of inst (b, nm, kwc) true comm) [PStr n] kw),
             st) in
  let fin := ((λ r, Ret (cluster_of fresh (b, nm, kwc) true
                           {| Get_rank := r; Get_size := P |})) <$> seq 0 P,
              delete n st) in
  (∀ sched, forallb stopped (grun sched g0).1 = true → grun sched g0 = fin)
  ∧ (∃ sched, grun sched g0 = fin).
Proof.
  intros HP Hn fresh g0 fin.
  set (c := ClusterDelPool inst [PStr n] kw).
  assert (exec c st = (inr tt, delete n st)) as Hex by (simpl; by rewrite Hn).
  set (self_of := λ r, cluster_of inst (b, nm, kwc) true
                         {| Get_rank := r; Get_size := P |}).
  set (f := λ (r : nat) (_ : unit), reconnect_at (self_of r) id 0).
  set (g1 := ((λ r, fenced c tt r) <$> seq 0 P, st)).
  assert (g0 = (then_all f g1.1, g1.2)) as ->.
  { subst g0 g1. cbn [fst snd]. rewrite then_all_ranks. unfold spmd. f_equal.
    apply ranks_ext. intros r _. apply del_pool_is_fenced_then. }
  set (Inv := fenced_inv P c (λ _, tt) st).
  assert (∀ r g, Inv g → Inv (gstep r g)) as Inv_step
    by (intros r g; by apply fenced_inv_step).
  assert (∀ g, Inv g →
               forallb active g.1 = true
               ∨ (g.1 = (λ r, Ret ((λ _, tt) r)) <$> seq 0 P ∧ g.2 = delete n st))
    as Inv_cases.
  { intros g [->|[->|[[_ ->]|[[_ ->]|(e & He & _)]]]].
    - left. cbn [fst]. by apply ranks_forallb.
    - left. cbn [fst]. apply ranks_forallb. intros r _. by destruct (r =? 0).
    - left. cbn [fst]. by apply ranks_forallb.
    - right. by rewrite Hex.
    - by rewrite Hex in He. }
  assert (Inv g1) as Hinv1 by (by left).
  assert (forallb active g1.1 = true) as Hact1
    by (subst g1; cbn [fst]; by apply ranks_forallb).
  pose proof (reconnect_step_ok P self_of (λ _, id) (delete n st)) as Hstep_ok.
  pose proof (reconnect_last_ok P self_of (λ _, id)) as Hlast_ok.
  pose proof (reconnect_initial P self_of (λ _, id) (delete n st)) as Hinit.
  assert (length g1.1 = P) as Hlen1
    by (subst g1; cbn [fst]; by rewrite length_fmap, length_seq).
  split.
  - intros sched Hstop.
    destruct (then_run P f (λ _, tt) Inv (λ st2, st2 = delete n st) Inv_step Inv_cases sched g1 Hinv1 Hact1)
      as [[Hact Heq]|(s1 & s2 & -> & Hfin & Heq)].
    + rewrite Heq in Hstop. cbn [fst] in Hstop.
      rewrite then_all_running in Hstop; [done| |done].
      rewrite grun_length, Hlen1. lia.
    + rewrite Heq in Hstop |- *. rewrite Hfin in Hstop |- *.
      pose proof (phase_run P _ _ _ _ Hstep_ok Hlast_ok s2 _ Hinit) as Hinv.
      destruct (phase_stopped P _ _ _ _ Hstep_ok Hlast_ok _ HP Hinv Hstop)
        as [Hps Hst].
      destruct (grun s2 _) as [ps st2]. cbn [fst snd] in Hps, Hst.
      by rewrite Hps, Hst.
  - destruct (then_run P f (λ _, tt) Inv (λ st2, st2 = delete n st) Inv_step Inv_cases [0; 0; 0] g1 Hinv1 Hact1)
      as [[Hact Heq]|(a & b' & Hab & Hfin & Heq)].
    + exfalso. subst g1. rewrite (fenced_live P c (λ _, tt) st HP tt _ Hex) in Hact.
      cbn [fst] in Hact. by rewrite (ranks_forallb_root active _ P HP) in Hact.
    + rewrite Hfin in Heq.
      match type of Heq with _ = ?g => set (gb := g) in * end.
      pose proof (phase_run P _ _ _ _ Hstep_ok Hlast_ok b' _ Hinit : phase_inv _ _ _ _ _ gb)
        as Hinv.
      destruct (phase_live P _ _ _ _ Hstep_ok Hlast_ok _ Hinv) as [s2 Hs2].
      exists ([0; 0; 0] ++ s2). rewrite grun_app, Heq.
      pose proof (phase_run P _ _ _ _ Hstep_ok Hlast_ok s2 _ Hinv) as Hinv2.
      assert (forallb stopped (grun s2 gb).1 = true) as Hstop2
        by (rewrite Hs2; by apply ranks_forallb).
      destruct (phase_stopped P _ _ _ _ Hstep_ok Hlast_ok _ HP Hinv2 Hstop2)
        as [Hps Hst].
      destruct (grun s2 gb) as [ps st2]. cbn [fst snd] in Hps, Hst.
      by rewrite Hps, Hst.
Qed.

Lemma del_pool_reconnects_every_rank_witness :
  let ceph := {| bk_name := "ceph"; bk_requires_reconnect := true |} in
  let opts : kwargs := {["conffile" := PStr "ceph.conf"]} in
  let inst := {| bc_backend := ceph; bc_name := PNone; bc_kwargs := opts |} in
  ∃ sched,
    grun sched
      (spmd 2 (λ comm, MpiCluster.del_pool
                         (cluster_of inst (ceph, PNone, opts) true comm)
                         [PStr "pool"] ∅), ex_store)
    = ((λ r, Ret (cluster_of inst (ceph, PNone, opts) true
                    {| Get_rank := r; Get_size := 2 |})) <$> seq 0 2,
       delete "pool" ex_store).
Proof.
  intros ceph opts inst.
  eapply (del_pool_reconnects_every_rank 2 inst ceph PNone opts "pool" ∅ ex_store).
  - lia.
  - vm_compute. reflexivity.
Defined.

Lemma create_pool_is_root_first_then (P : nat) (inst : bCluster) (b : Backend)
    (nm : pyval) (kwc : kwargs) (args : list pyval) (kw : kwargs) (r : nat) :
  MpiCluster.create_pool
    (cluster_of inst (b, nm, kwc) true {| Get_rank := r; Get_size := P |}) args kw
  = bind (root_first (ClusterCreatePool inst args kw)
            (reconnect_at
               (cluster_of inst (b, nm, kwc) true {| Get_rank := r; Get_size := P |})
               (λ self, (self, kwc)) 0) r)
         (λ '(self, kwargs), pool ← MpiCluster.get_pool self args kwargs;
                             Ret (pool, self)).
Proof.
  unfold MpiCluster.create_pool, root_first, cluster_of, reconnect_at.
  cbn [MpiCluster.instance MpiCluster.mpi MpiCluster.ceph_backend MpiCluster.cparams
       MpiMixin_init mpi_is_root Get_rank].
  by destruct (r =? 0).
Qed.

(** X27: when every rank of a group whose backend needs a reconnect, and
    whose cluster was opened without options, calls [create_pool] with a
    name that the cluster does not hold, then under every schedule, once all
    ranks have stopped, every rank has returned its own wrapper of the new
    pool together with its cluster object on a new backend handle built from
    the stored parameters, and the store holds the new, empty pool beside
    what it held; and some schedule brings all ranks there.  The keyword
    arguments of the call play no part in the fetch. *)
Theorem create_pool_reconnects_then_fetches (P : nat) (inst : bCluster)
    (b : Backend) (nm : pyval) (n : string) (kw : kwargs) (st : Store) :
  0 < P → st !! n = None →
  let fresh := {| bc_backend := b; bc_name := nm; bc_kwargs := ∅ |} in
  let g0 := (spmd P (λ comm, MpiCluster.create_pool
                               (cluster_of inst (b, nm, ∅) true comm) [PStr n] kw),
             st) in
  let fin := ((λ r, Ret (MpiPool.init {| bp_name := n |}
                           {| Get_rank := r; Get_size := P |},
                         cluster_of fresh (b, nm, ∅) true
                           {| Get_rank := r; Get_size := P |})) <$> seq 0 P,
              <[n := ∅]> st) in
  (∀ sched, forallb stopped (grun sched g0).1 = true → grun sched g0 = fin)
  ∧ (∃ sched, grun sched g0 = fin).
Proof.
  intros HP Hn fresh g0 fin.
  set (c := ClusterCreatePool inst [PStr n] kw).
  set (st1 := <[n := ∅]> st).
  assert (exec c st = (inr tt, st1)) as Hex by (simpl; by rewrite Hn).
  set (get := ClusterGetPool fresh [PStr n] ∅).
  assert (exec get st1 = (inr {| bp_name := n |}, st1)) as Hget.
  { simpl. subst st1. by rewrite lookup_insert_eq. }
  set (self_of := λ r, cluster_of inst (b, nm, ∅) true
                         {| Get_rank := r; Get_size := P |}).
  set (ret := λ (r : nat) (self : MpiCluster.t), (self, ∅ : kwargs)).
  set (cont := λ r, reconnect_at (self_of r) (ret r) 0).
  set (f := λ (r : nat) (sk : MpiCluster.t * kwargs),
              let '(self, kwargs) := sk in
              pool ← MpiCluster.get_pool self [PStr n] kwargs; Ret (pool, self)).
  set (w := λ r pool, (MpiPool.init pool {| Get_rank := r; Get_size := P |},
                       cluster_of fresh (b, nm, ∅) true
                         {| Get_rank := r; Get_size := P |})).
  set (g1 := ((λ r, root_first c (cont r) r) <$> seq 0 P, st)).
  assert (g0 = (then_all f g1.1, g1.2)) as ->.
  { subst g0 g1. cbn [fst snd]. rewrite then_all_ranks. unfold spmd. f_equal.
    apply ranks_ext. intros r _. apply create_pool_is_root_first_then. }
  pose proof (reconnect_step_ok P self_of ret st1) as Hstep_ok.
  pose proof (reconnect_last_ok P self_of ret) as Hlast_ok.
  set (v := λ r, ret r (MpiCluster.set_instance (self_of r) fresh)).
  set (After := phase_inv P (λ _, 3) (λ r, reconnect_at (self_of r) (ret r)) v
                  (λ _ st2, st2 = st1)).
  set (Inv := root_first_inv P c cont st After).
  assert (∀ r g, After g → After (gstep r g)) as After_step
    by (intros r g; by apply phase_step).
  assert (∀ x st', exec c st = (inr x, st') → After (cont <$> seq 0 P, st'))
    as After_init.
  { intros x st' Hx. assert (st' = st1) as -> by congruence.
    apply reconnect_initial. }
  assert (∀ r g, Inv g → Inv (gstep r g)) as Inv_step
    by (intros r g; by apply root_first_inv_step).
  assert (∀ g, Inv g →
               forallb active g.1 = true
               ∨ (g.1 = (λ r, Ret (v r)) <$> seq 0 P ∧ g.2 = st1)) as Inv_cases.
  { intros g [->|[[_ ->]|[Hafter|(e & He & _)]]].
    - left. cbn [fst]. apply ranks_forallb. intros r _. unfold root_first.
      by destruct (r =? 0).
    - left. cbn [fst]. by apply ranks_forallb.
    - by apply (phase_cases P (λ _, 3) (λ r, reconnect_at (self_of r) (ret r)) v
                  (λ _ st2, st2 = st1)).
    - by rewrite Hex in He. }
  assert (Inv g1) as Hinv1 by (by left).
  assert (forallb active g1.1 = true) as Hact1.
  { subst g1. cbn [fst]. apply ranks_forallb. intros r _. unfold root_first.
    by destruct (r =? 0). }
  assert (length g1.1 = P) as Hlen1
    by (subst g1; cbn [fst]; by rewrite length_fmap, length_seq).
  pose proof (fetch_inv_init P get w {| bp_name := n |} st1) as Hinit2.
  split.
  - intros sched Hstop.
    destruct (then_run P f v Inv (λ st2, st2 = st1) Inv_step Inv_cases
                sched g1 Hinv1 Hact1)
      as [[Hact Heq]|(s1 & s2 & -> & Hfin & Heq)].
    + rewrite Heq in Hstop. cbn [fst] in Hstop.
      rewrite then_all_running in Hstop; [done| |done].
      rewrite grun_length, Hlen1. lia.
    + rewrite Heq in Hstop |- *. rewrite Hfin in Hstop |- *.
      apply (fetch_stopped P get w {| bp_name := n |} st1); [|done].
      by apply (fetch_inv_run P get w {| bp_name := n |} st1 Hget s2 _ Hinit2).
  - assert (∃ s1, (grun s1 g1).1 = (λ r, Ret (v r)) <$> seq 0 P) as [s1 Hs1].
    { apply (root_first_live P c cont st After HP After_init tt st1
               (λ g, g.1 = (λ r, Ret (v r)) <$> seq 0 P) Hex).
      intros g Hg. by apply (phase_live P _ _ _ _ Hstep_ok Hlast_ok g). }
    destruct (then_run P f v Inv (λ st2, st2 = st1) Inv_step Inv_cases
                s1 g1 Hinv1 Hact1)
      as [[Hact Heq]|(a & b' & Hab & Hfin & Heq)].
    + exfalso. rewrite Hs1 in Hact.
      by rewrite (ranks_forallb_root active _ P HP) in Hact.
    + rewrite Hfin in Heq. exists (s1 ++ seq 0 P). rewrite grun_app, Heq.
      apply (fetch_live P get w {| bp_name := n |} st1 Hget).
      by apply (fetch_inv_run P get w {| bp_name := n |} st1 Hget b' _ Hinit2).
Qed.

Lemma create_pool_reconnects_then_fetches_witness :
  let ceph := {| bk_name := "ceph"; bk_requires_reconnect := true |} in
  let inst := {| bc_backend := ceph; bc_name := PNone; bc_kwargs := ∅ |} in
  ∃ sched,
    grun sched
      (spmd 2 (λ comm, MpiCluster.create_pool
                         (cluster_of inst (ceph, PNone, ∅) true comm)
                         [PStr "fresh"] ∅), ex_store)
    = ((λ r, Ret (MpiPool.init {| bp_name := "fresh" |}
                    {| Get_rank := r; Get_size := 2 |},
                  cluster_of inst (ceph, PNone, ∅) true
                    {| Get_rank := r; Get_size := 2 |})) <$> seq 0 2,
       <["fresh" := ∅]> ex_store).
Proof.
  intros ceph inst.
  eapply (create_pool_reconnects_then_fetches 2 inst ceph PNone "fresh" ∅ ex_store).
  - lia.
  - vm_compute. reflexivity.
Defined.

(** ** The shards as the bulk methods walk them *)

Lemma chunks_changed_app tr1 tr2 :
  chunks_changed (tr1 ++ tr2) = chunks_changed tr1 ++ chunks_changed tr2.
Proof. unfold chunks_changed. apply omap_app. Qed.

(** A loop whose every iteration changes one chunk changes the chunks of the
    items it goes through, in order. *)
Lemma for_each_changed {S X} (h : oracle S) (rank : nat) (l : list X)
    (body : X → Prog unit) (f : X → list nat) (s : S) :
  (∀ x s, x ∈ l →
          ∃ tr s', run_proc h rank (body x) s = (tr, inr tt, s')
                   ∧ chunks_changed tr = [f x]) →
  ∃ tr s', run_proc h rank (for_each l body) s = (tr, inr tt, s')
           ∧ chunks_changed tr = f <$> l.
Proof.
  revert s. induction l as [|x l IH]; intros s Hbody; [by eexists _, _|].
  cbn [for_each]. unfold_prog. rewrite run_proc_bind.
  destruct (Hbody x s) as (tr1 & s1 & -> & Hc1); [apply list_elem_of_here|].
  destruct (IH s1) as (tr2 & s2 & Hrun & Hc2).
  { intros y s' Hy. apply Hbody. by apply list_elem_of_further. }
  rewrite Hrun. exists (tr1 ++ tr2), s2. split; [done|].
  by rewrite chunks_changed_app, Hc1, Hc2.
Qed.

Lemma for_range_changed {S} (h : oracle S) (rank r T P : nat)
    (body : nat → Prog unit) (f : nat → list nat) (s : S) :
  0 < P →
  (∀ k s, k < T →
          ∃ tr s', run_proc h rank (body k) s = (tr, inr tt, s')
                   ∧ chunks_changed tr = [f k]) →
  ∃ shard tr s',
    py_range r T P = Some shard
    ∧ run_proc h rank (for_range r T P body) s = (tr, inr tt, s')
    ∧ chunks_changed tr = f <$> shard.
Proof.
  intros HP Hbody. destruct (py_range_is_Some r T P HP) as [shard Hshard].
  destruct (for_each_changed h rank shard body f s) as (tr & s' & Hrun & Hc).
  { intros k s0 Hk. apply Hbody.
    by apply (py_range_elem _ _ _ _ _ Hshard) in Hk as (? & _ & ?). }
  exists shard, tr, s'. unfold for_range. by rewrite Hshard.
Qed.

Lemma run_bind_changed {S A B} (h : oracle S) (rank : nat) (p : Prog A)
    (f : A → Prog B) (s : S) tr1 a s1 :
  run_proc h rank p s = (tr1, inr a, s1) →
  chunks_changed (run_proc h rank (bind p f) s).1.1
  = chunks_changed tr1 ++ chunks_changed (run_proc h rank (f a) s1).1.1.
Proof.
  intros Hp. rewrite run_proc_bind, Hp.
  destruct (run_proc h rank (f a) s1) as [[tr2 r2] s2]. cbn [fst].
  apply chunks_changed_app.
Qed.

(** The run of [clone]: it returns, and changes no chunk. *)
Lemma clone_run {S} (h : oracle S) (r P : nat) (d : bDataset) (output_name : pyval)
    (s : S) :
  run_proc h r
    (MpiDataset.clone (MpiDataset.init d {| Get_rank := r; Get_size := P |})
       output_name) s
  = ((run_proc h r
        (MpiDataset.clone (MpiDataset.init d {| Get_rank := r; Get_size := P |})
           output_name) s).1.1,
     inr (MpiDataset.init
            (if r =? 0
             then (on_call h (PoolCreateDataset (bd_pool d) [output_name]
                                (clone_kwargs d)) s).1
             else (on_bcast h s).1)
            {| Get_rank := r; Get_size := P |}),
     (run_proc h r
        (MpiDataset.clone (MpiDataset.init d {| Get_rank := r; Get_size := P |})
           output_name) s).2).
Proof.
  pose proof (clone_trace h s d {| Get_rank := r; Get_size := P |} output_name)
    as Hclone. cbn [Get_rank] in Hclone. cbv zeta in Hclone. rewrite Hclone.
  by destruct (r =? 0).
Qed.

Lemma clone_run_changed {S} (h : oracle S) (r P : nat) (d : bDataset)
    (output_name : pyval) (s : S) :
  chunks_changed
    (run_proc h r
       (MpiDataset.clone (MpiDataset.init d {| Get_rank := r; Get_size := P |})
          output_name) s).1.1 = [].
Proof.
  pose proof (clone_trace h s d {| Get_rank := r; Get_size := P |} output_name)
    as Hclone. cbn [Get_rank] in Hclone. cbv zeta in Hclone. rewrite Hclone.
  by destruct (r =? 0).
Qed.

Section walks.
Context `{Bounds} {S : Type} (h : oracle S) (d : bDataset) (r P : nat).
Hypothesis HP : 0 < P.

Local Abbreviation self := (MpiDataset.init d {| Get_rank := r; Get_size := P |}).
Local Abbreviation T := (bd_total_chunks d).

Lemma clear_walk s :
  ∃ shard, py_range r T P = Some shard
           ∧ chunks_changed (trace_of h r (MpiDataset.clear self) s)
             = idx_from_flat d <$> shard.
Proof.
  unfold trace_of, MpiDataset.clear, MpiDataset.total_chunks, MpiDataset.del_chunk.
  cbn [MpiDataset.instance MpiDataset.init MpiDataset.mpi MpiMixin_init
       mpi_rank mpi_size Get_rank Get_size].
  unfold_prog. rewrite run_proc_bind.
  destruct (for_range_changed h r r T P
              (λ k, Call (DsDelChunk d (idx_from_flat d k)) Ret)
              (idx_from_flat d) s HP) as (shard & tr & s' & Hshard & Hrun & Hc).
  { intros k s0 _. simpl. destruct (on_call h _ s0) as [[] s1]. by eexists _, _. }
  exists shard. split; [done|]. rewrite Hrun. cbn.
  by rewrite chunks_changed_app, Hc, app_nil_r.
Qed.

Lemma transform_walk (dst : bDataset) (func : ndarray → ndarray) s :
  ∃ shard tr s',
    py_range r T P = Some shard
    ∧ run_proc h r
        (for_range r T P
           (λ k, Call (DsGetChunkData d (idx_from_flat d k))
                   (λ data, Call (DsSetChunkData dst (idx_from_flat d k)
                                    (func data) None) Ret))) s
      = (tr, inr tt, s')
    ∧ chunks_changed tr = idx_from_flat d <$> shard.
Proof.
  apply for_range_changed; [done|]. intros k s0 _. simpl.
  destruct (on_call h _ s0) as [x s1]. simpl.
  destruct (on_call h _ s1) as [[] s2]. by eexists _, _.
Qed.

Lemma apply_walk func s :
  ∃ shard, py_range r T P = Some shard
           ∧ chunks_changed (trace_of h r (MpiDataset.apply self func) s)
             = idx_from_flat d <$> shard.
Proof.
  unfold trace_of, MpiDataset.apply, MpiDataset.total_chunks,
    MpiDataset.get_chunk_data, MpiDataset.set_chunk_data.
  cbn [MpiDataset.instance MpiDataset.init MpiDataset.mpi MpiMixin_init
       mpi_rank mpi_size Get_rank Get_size].
  unfold_prog. rewrite run_proc_bind.
  destruct (transform_walk d func s) as (shard & tr & s' & Hshard & Hrun & Hc).
  exists shard. split; [done|]. cbn [bind] in Hrun |- *. rewrite Hrun. cbn.
  by rewrite chunks_changed_app, Hc, app_nil_r.
Qed.

Lemma map_walk func output_name s :
  ∃ shard, py_range r T P = Some shard
           ∧ chunks_changed (trace_of h r (MpiDataset.map self func output_name) s)
             = idx_from_flat d <$> shard.
Proof.
  destruct (py_range_is_Some r T P HP) as [shard Hshard].
  exists shard. split; [done|]. unfold trace_of.
  assert (∀ out s1,
            chunks_changed
              (run_proc h r
                 (bind (for_range r T P
                          (λ k, Call (DsGetChunkData d (idx_from_flat d k))
                                  (λ data, Call (DsSetChunkData out
                                                   (idx_from_flat d k)
                                                   (func data) None) Ret)))
                       (λ _, Barrier (Ret (MpiDataset.init out
                                             {| Get_rank := r; Get_size := P |}))))
                 s1).1.1
            = idx_from_flat d <$> shard) as Hloop.
  { intros out s1.
    destruct (transform_walk out func s1) as (shard' & tr & s' & Hshard' & Hrun & Hc).
    rewrite Hshard in Hshard'. injection Hshard' as <-.
    rewrite !run_proc_bind, Hrun. cbn.
    by rewrite !chunks_changed_app, Hc, !app_nil_r. }
  change (MpiDataset.map self func output_name)
    with (bind (MpiDataset.clone self output_name)
            (λ out : MpiDataset.t,
               bind (for_range r T P
                       (λ k, Call (DsGetChunkData d (idx_from_flat d k))
                               (λ data, Call (DsSetChunkData
                                                (MpiDataset.instance out)
                                                (idx_from_flat d k)
                                                (func data) None) Ret)))
                    (λ _, Barrier (Ret out)))).
  rewrite (run_bind_changed h r _ _ s _ _ _
             (clone_run h r P d output_name s)).
  rewrite clone_run_changed, app_nil_l. apply Hloop.
Qed.

Lemma load_walk data s :
  shape data = bd_shape d → bounds_fit d = true →
  ∃ shard, py_range r T P = Some shard
           ∧ chunks_changed (trace_of h r (MpiDataset.load self (PArr data)) s)
             = idx_from_flat d <$> shard.
Proof.
  intros Hshape Hfit.
  unfold trace_of, MpiDataset.load, MpiDataset.total_chunks, MpiDataset.shape,
    MpiDataset.set_chunk_data.
  cbn [MpiDataset.instance MpiDataset.init MpiDataset.mpi MpiMixin_init
       mpi_rank mpi_size Get_rank Get_size].
  rewrite bool_decide_eq_false_2 by (by intros ?).
  unfold_prog. rewrite run_proc_bind.
  destruct (for_range_changed h r r T P
              (λ k, match getitem data (global_chunk_bounds d (idx_from_flat d k)) with
                    | Some sub =>
                        Call (DsSetChunkData d (idx_from_flat d k) sub
                                (Some (local_chunk_bounds d (idx_from_flat d k)))) Ret
                    | None => Raise IndexError
                    end)
              (idx_from_flat d) s HP) as (shard & tr & s' & Hshard & Hrun & Hc).
  { intros k s0 Hk.
    destruct (bounds_fit_spec d k Hfit Hk) as (Hg & _ & _).
    rewrite getitem_Some by (by rewrite Hshape). simpl.
    destruct (on_call h _ s0) as [[] s1]. by eexists _, _. }
  exists shard. split; [done|]. rewrite Hrun. cbn.
  by rewrite chunks_changed_app, Hc, app_nil_r.
Qed.
End walks.

(** C1: [clear], [load], [map] and [apply] on rank [r] of a group of [P]
    change the chunks of exactly the ordinals of [range(r, T, P)], [T] the
    dataset's chunk count, in that order, whatever the environment answers
    ([load]: for an array of the dataset's shape and a bounds collaborator
    whose slices fit).  These shards partition [[0,T)]: each stays inside
    [[0,T)] without repetition, and every ordinal below [T] is in the shard
    of exactly one rank below [P]; for [T = 10], [P = 3] the shards are
    {0,3,6,9}, {1,4,7} and {2,5,8}. *)
Theorem round_robin_partition `{Bounds} (T P : nat) :
  0 < P →
  (∀ S (h : oracle S) (s : S) (d : bDataset) (r : nat),
     bd_total_chunks d = T →
     let self := MpiDataset.init d {| Get_rank := r; Get_size := P |} in
     ∃ shard,
       py_range r T P = Some shard
       ∧ chunks_changed (trace_of h r (MpiDataset.clear self) s)
         = idx_from_flat d <$> shard
       ∧ (∀ data, shape data = bd_shape d → bounds_fit d = true →
                  chunks_changed (trace_of h r (MpiDataset.load self (PArr data)) s)
                  = idx_from_flat d <$> shard)
       ∧ (∀ func output_name,
            chunks_changed (trace_of h r (MpiDataset.map self func output_name) s)
            = idx_from_flat d <$> shard)
       ∧ (∀ func,
            chunks_changed (trace_of h r (MpiDataset.apply self func) s)
            = idx_from_flat d <$> shard))
  ∧ (∀ r, r < P → ∃ l, py_range r T P = Some l ∧ NoDup l ∧ ∀ i, i ∈ l → i < T)
  ∧ (∀ i, i < T →
       ∃ r l, r < P ∧ py_range r T P = Some l ∧ i ∈ l
              ∧ ∀ r' l', r' < P → py_range r' T P = Some l' → i ∈ l' → r' = r)
  ∧ (∀ r, r < P →
       for_range r T P = λ body,
         for_each ((λ k, r + k * P) <$> seq 0 (range_len r T P)) body)
  ∧ py_range 0 10 3 = Some [0; 3; 6; 9]
  ∧ py_range 1 10 3 = Some [1; 4; 7]
  ∧ py_range 2 10 3 = Some [2; 5; 8].
Proof.
  intros HP. split; [|repeat split; try reflexivity].
  - intros S h s d r <- self. subst self.
    destruct (py_range_is_Some r (bd_total_chunks d) P HP) as [shard Hshard].
    exists shard. split; [done|]. split; [|split; [|split]].
    + destruct (clear_walk h d r P HP s) as (l & Hl & ->). congruence.
    + intros data Hshape Hfit.
      destruct (load_walk h d r P HP data s Hshape Hfit) as (l & Hl & ->). congruence.
    + intros func output_name.
      destruct (map_walk h d r P HP func output_name s) as (l & Hl & ->). congruence.
    + intros func.
      destruct (apply_walk h d r P HP func s) as (l & Hl & ->). congruence.
  - intros r Hr. destruct (py_range_is_Some r T P HP) as [l Hl].
    exists l. split; [done|]. split; [by eapply py_range_NoDup|].
    intros i Hi. by apply (py_range_mod r T P l i Hr Hl) in Hi as [? _].
  - intros i Hi. destruct (shard_owner T P i HP Hi) as (l & Hl & Hin).
    exists (i mod P), l. split; [apply Nat.mod_upper_bound; lia|].
    split; [done|]. split; [done|].
    intros r' l' Hr' Hl' Hin'.
    by apply (py_range_mod r' T P l' i Hr' Hl') in Hin' as [_ ?].
  - intros r Hr. unfold for_range, py_range.
    destruct (Nat.eqb_spec P 0); [lia|done].
Qed.

Lemma round_robin_partition_witness :
  (∃ shard,
     py_range 1 4 3 = Some shard
     ∧ chunks_changed
         (trace_of echo_oracle 1
            (MpiDataset.load (H := grid_bounds)
               (MpiDataset.init ex_ds {| Get_rank := 1; Get_size := 3 |})
               (PArr (arange2 4 4))) tt)
       = idx_from_flat (Bounds := grid_bounds) ex_ds <$> shard)
  ∧ py_range 0 10 3 = Some [0; 3; 6; 9].
Proof.
  pose proof (round_robin_partition (H := grid_bounds) 4 3 ltac:(lia))
    as (Hwalk & _ & _ & _ & H10 & _).
  split; [|exact H10].
  destruct (Hwalk unit echo_oracle tt ex_ds 1 eq_refl)
    as (shard & Hshard & _ & Hload & _).
  exists shard. split; [exact Hshard|].
  apply Hload; [reflexivity|vm_compute; reflexivity].
Defined.

(** ** [clone] and [map] for every output name *)

(** A name that is not a string new to the pool is refused by the backend,
    which leaves the store alone. *)
Lemma exec_clone_refused st d output_name dss :
  lookup_ds st d = Some dss →
  (∀ n, output_name = PStr n → ds_at st (bp_name (bd_pool d)) n ≠ None) →
  ∃ e, exec (PoolCreateDataset (bd_pool d) [output_name] (clone_kwargs d)) st
       = (inl e, st).
Proof.
  unfold lookup_ds, ds_at. intros Hl Hused. simpl.
  destruct (st !! bp_name (bd_pool d)) as [pool|]; [|done]. simpl in Hused.
  destruct output_name as [|z|n|t|a]; try by eexists.
  destruct (pool !! n) eqn:Hn; [by eexists|]. by destruct (Hused n eq_refl).
Qed.

Lemma clone_then_refused {A} (P : nat) (d : bDataset) (output_name : pyval)
    (cont : nat → bDataset → Prog A) (st : Store) (dss : DsState) (sched : list nat) :
  0 < P → lookup_ds st d = Some dss →
  (∀ n, output_name = PStr n → ds_at st (bp_name (bd_pool d)) n ≠ None) →
  let g0 := ((λ r, clone_then d output_name (cont r) r) <$> seq 0 P, st) in
  (grun sched g0).2 = st
  ∧ (∀ r a, (grun sched g0).1 !! r ≠ Some (Ret a))
  ∧ others_blocked (grun sched g0)
  ∧ ∃ e, (grun [0] g0).1 !! 0 = Some (Raise e).
Proof.
  intros HP Hl Hused g0.
  destruct (exec_clone_refused st d output_name dss Hl Hused) as [e Hex].
  destruct (clone_then_failure P d output_name cont st st e sched HP Hex)
    as [Hg Hroot].
  subst g0. cbv zeta in Hg, Hroot. split; [|split; [|split]].
  - by destruct Hg as [-> | ->].
  - intros r a. destruct Hg as [-> | ->]; cbn [fst]; intros Hr;
      apply ranks_lookup_Some in Hr as [? Hr]; unfold clone_then in Hr;
      by destruct r.
  - intros r p Hr Hp. destruct Hg as [Hg|Hg]; rewrite Hg in Hp; cbn [fst] in Hp;
      apply ranks_lookup_Some in Hp as [? ->]; unfold clone_then;
      by destruct r; [lia|].
  - exists e. rewrite Hroot. cbn [fst]. by rewrite ranks_lookup by done.
Qed.

(** With a new name: a rank of a cloning group returns only when all do. *)
Lemma clone_group_states (P : nat) (d : bDataset) (n : string) (st : Store)
    (dss : DsState) (sched : list nat) (r : nat) (w : MpiDataset.t) :
  0 < P → lookup_ds st d = Some dss →
  ds_at st (bp_name (bd_pool d)) n = None → handle_ok d = true →
  let g0 := (spmd P (λ comm, MpiDataset.clone (MpiDataset.init d comm) (PStr n)), st) in
  (grun sched g0).1 !! r = Some (Ret w) →
  grun sched g0
  = ((λ r, Ret (MpiDataset.init (renamed d n) {| Get_rank := r; Get_size := P |}))
       <$> seq 0 P, clone_store st d n).
Proof.
  intros HP Hlook Hfresh Hok g0 Hret.
  pose proof (exec_clone_create st d n dss Hlook Hfresh Hok) as Hexec.
  set (rets := (λ r, Ret (MpiDataset.init (renamed d n)
                            {| Get_rank := r; Get_size := P |})) <$> seq 0 P) in *.
  set (cont := λ (r : nat) (out : bDataset),
         Ret (MpiDataset.init out {| Get_rank := r; Get_size := P |})).
  set (After := λ g : gstate MpiDataset.t, g = (rets, clone_store st d n)).
  assert (g0 = ((λ r, clone_then d (PStr n) (cont r) r) <$> seq 0 P, st)) as Hg0.
  { subst g0. unfold spmd. f_equal. apply list_fmap_ext. intros i r' _.
    apply clone_is_clone_then. }
  assert (∀ r g, After g → After (gstep r g)) as Hstep.
  { intros r' g ->. apply gstep_stopped. cbn [fst]. subst rets.
    by apply ranks_forallb. }
  assert (After ((λ r, cont r (renamed d n)) <$> seq 0 P, clone_store st d n))
    as Hinit by done.
  rewrite Hg0 in Hret |- *.
  destruct (clone_inv_run P d n st cont After HP Hexec Hstep Hinit sched)
    as [Hg|[Hg|Hg]]; [| |done]; exfalso; rewrite Hg in Hret; cbn [fst] in Hret;
    apply ranks_lookup_Some in Hret as [? Hret]; unfold clone_then in Hret;
    by destruct (r =? 0).
Qed.

(** C7: for every output name, in [clone] the root's only call is the owning
    pool's [create_dataset] under that name with the source's shape, dtype,
    chunk size and fill value; what that call returns is what the root
    broadcasts, and every rank returns what the broadcast delivers, wrapped
    with its own communicator, without fetching anything by name.  On the
    modelled backend, for every output name: a rank that has returned holds
    the handle the root created, which has the source's shape, dtype, chunk
    size, fill value and chunk count, and then every rank has returned it
    and the store holds the new, empty dataset beside the unchanged source;
    with a string new to the pool every schedule under which all ranks stop
    ends so, and some schedule gets there; with any other name the root's
    create raises, no rank returns and the store stays as it was. *)
Theorem clone_creates_and_broadcasts (P : nat) (d : bDataset) (output_name : pyval)
    (st : Store) :
  let create := PoolCreateDataset (bd_pool d) [output_name] (clone_kwargs d) in
  let g0 := (spmd P (λ comm, MpiDataset.clone (MpiDataset.init d comm) output_name),
             st) in
  let rets n := (λ r, Ret (MpiDataset.init (renamed d n)
                             {| Get_rank := r; Get_size := P |})) <$> seq 0 P in
  (∀ S (h : oracle S) (s : S) (comm : Comm),
     run_proc h (Get_rank comm)
       (MpiDataset.clone (MpiDataset.init d comm) output_name) s
     = if Get_rank comm =? 0 then
         let o := (on_call h create s).1 in
         ([EvCall create o; EvBcast (Some o) o],
          inr (MpiDataset.init o comm), (on_call h create s).2)
       else
         let v := (on_bcast h s).1 in
         ([EvBcast None v], inr (MpiDataset.init v comm), (on_bcast h s).2))
  ∧ (∀ n, handle_ok d = true →
          new_dataset (bd_pool d) n (clone_kwargs d) = inr (renamed d n)
          ∧ bd_shape (renamed d n) = bd_shape d
          ∧ bd_dtype (renamed d n) = bd_dtype d
          ∧ bd_chunk_size (renamed d n) = bd_chunk_size d
          ∧ bd_fillvalue (renamed d n) = bd_fillvalue d
          ∧ bd_total_chunks (renamed d n) = bd_total_chunks d
          ∧ bd_total_chunks (renamed d n)
            = grid_total (chunk_grid (bd_shape (renamed d n))
                            (bd_chunk_size (renamed d n))))
  ∧ (∀ dss, 0 < P → lookup_ds st d = Some dss → handle_ok d = true →
       (∀ sched r w,
          (grun sched g0).1 !! r = Some (Ret w) →
          ∃ n, output_name = PStr n
               ∧ ds_at st (bp_name (bd_pool d)) n = None
               ∧ grun sched g0 = (rets n, clone_store st d n)
               ∧ lookup_ds (clone_store st d n) (renamed d n)
                 = Some {| dss_handle := renamed d n; dss_chunks := ∅ |}
               ∧ lookup_ds (clone_store st d n) d = Some dss)
       ∧ (∀ n, output_name = PStr n → ds_at st (bp_name (bd_pool d)) n = None →
               (∀ sched, forallb stopped (grun sched g0).1 = true →
                         grun sched g0 = (rets n, clone_store st d n))
               ∧ (∃ sched, grun sched g0 = (rets n, clone_store st d n)))
       ∧ ((∀ n, output_name = PStr n → ds_at st (bp_name (bd_pool d)) n ≠ None) →
          (∃ e, (grun [0] g0).1 !! 0 = Some (Raise e))
          ∧ ∀ sched, (grun sched g0).2 = st
                     ∧ (∀ r a, (grun sched g0).1 !! r ≠ Some (Ret a))
                     ∧ others_blocked (grun sched g0))).
Proof.
  intros create g0 rets. split; [intros S h s comm; apply clone_trace|]. split.
  { intros n Hok. split; [by apply new_dataset_clone|]. repeat split.
    cbn [renamed bd_total_chunks bd_shape bd_chunk_size].
    unfold handle_ok in Hok. apply andb_prop in Hok as [_ H3].
    by apply Nat.eqb_eq in H3. }
  intros dss HP Hlook Hok.
  set (cont := λ (r : nat) (out : bDataset),
         Ret (MpiDataset.init out {| Get_rank := r; Get_size := P |})).
  assert (g0 = ((λ r, clone_then d output_name (cont r) r) <$> seq 0 P, st)) as Hg0.
  { subst g0. unfold spmd. f_equal. apply ranks_ext. intros r _.
    apply clone_is_clone_then. }
  assert (∀ n, ds_at st (bp_name (bd_pool d)) n = None →
               lookup_ds (clone_store st d n) (renamed d n)
               = Some {| dss_handle := renamed d n; dss_chunks := ∅ |}
               ∧ lookup_ds (clone_store st d n) d = Some dss) as Hstore.
  { intros n Hfresh. split; [by eapply clone_store_lookup_new|].
    unfold lookup_ds. rewrite clone_store_ds_at_other; [done|].
    intros Heq. eapply fresh_name_differs; [exact Hlook|exact Hfresh|].
    by rewrite Heq. }
  split; [|split].
  - intros sched r w Hret.
    assert ((∃ n, output_name = PStr n ∧ ds_at st (bp_name (bd_pool d)) n = None)
            ∨ (∀ n, output_name = PStr n → ds_at st (bp_name (bd_pool d)) n ≠ None))
      as [(n & -> & Hfresh)|Hused].
    { destruct output_name as [|z|n|t|a]; try (by right).
      destruct (ds_at st (bp_name (bd_pool d)) n) eqn:Hn; [right|left; by exists n].
      intros n' [= <-]. by rewrite Hn. }
    + exists n. split; [done|]. split; [done|].
      split; [by apply (clone_group_states P d n st dss sched r w)|].
      by apply Hstore.
    + exfalso. rewrite Hg0 in Hret.
      by destruct (clone_then_refused P d output_name cont st dss sched HP Hlook Hused)
        as (_ & Hnoret & _); destruct (Hnoret r w).
  - intros n -> Hfresh. by apply (clone_group P d n st dss).
  - intros Hused. rewrite Hg0. split.
    + by destruct (clone_then_refused P d output_name cont st dss [] HP Hlook Hused)
        as (_ & _ & _ & ?).
    + intros sched.
      by destruct (clone_then_refused P d output_name cont st dss sched HP Hlook Hused)
        as (? & ? & ? & _).
Qed.

Lemma clone_creates_and_broadcasts_witness :
  (∃ sched,
     grun sched
       (spmd 2 (λ comm, MpiDataset.clone (MpiDataset.init ex_ds comm) (PStr "out")),
        ex_store)
     = ((λ r, Ret (MpiDataset.init (renamed ex_ds "out")
                     {| Get_rank := r; Get_size := 2 |})) <$> seq 0 2,
        clone_store ex_store ex_ds "out"))
  ∧ (grun [1; 0; 1]
       (spmd 2 (λ comm, MpiDataset.clone (MpiDataset.init ex_ds comm) (PStr "ds")),
        ex_store)).2 = ex_store.
Proof.
  split.
  - pose proof (clone_creates_and_broadcasts 2 ex_ds (PStr "out") ex_store)
      as (_ & _ & Hgroup).
    destruct (Hgroup ex_dss) as (_ & Hfresh & _).
    + lia.
    + vm_compute. reflexivity.
    + vm_compute. reflexivity.
    + destruct (Hfresh "out" eq_refl) as [_ Hlive]; [vm_compute; reflexivity|].
      exact Hlive.
  - pose proof (clone_creates_and_broadcasts 2 ex_ds (PStr "ds") ex_store)
      as (_ & _ & Hgroup).
    destruct (Hgroup ex_dss) as (_ & _ & Hused).
    + lia.
    + vm_compute. reflexivity.
    + vm_compute. reflexivity.
    + destruct Hused as [_ Hall].
      * intros n [= <-]. vm_compute. congruence.
      * by destruct (Hall [1; 0; 1]) as [? _].
Defined.

(** With a new name: the source stays as it is all along, and a rank of a
    mapping group returns only when every chunk has been written. *)
Lemma map_group_states `{Bounds} (P : nat) (d : bDataset) (n : string)
    (func : ndarray → ndarray) (st : Store) (dss : DsState) (sched : list nat) :
  0 < P → lookup_ds st d = Some dss → dss_handle dss = d → chunks_wf dss →
  handle_ok d = true → ds_at st (bp_name (bd_pool d)) n = None →
  (∀ a, shape (func a) = shape a) → flat_injective d = true →
  let out := renamed d n in
  let g0 := (spmd P (λ comm, MpiDataset.map (MpiDataset.init d comm) func (PStr n)),
             st) in
  lookup_ds (grun sched g0).2 d = Some dss
  ∧ ∀ r w,
      (grun sched g0).1 !! r = Some (Ret w) →
      w = MpiDataset.init out {| Get_rank := r; Get_size := P |}
      ∧ ∃ dss_o, lookup_ds (grun sched g0).2 out = Some dss_o
                 ∧ dss_handle dss_o = out
                 ∧ ∀ k, k < bd_total_chunks d →
                        chunk_contents dss_o (idx_from_flat d k)
                        = func (chunk_contents dss (idx_from_flat d k)).
Proof.
  intros HP Hlook Hd Hwf Hok Hfresh Hfunc Hinj out g0.
  pose proof (exec_clone_create st d n dss Hlook Hfresh Hok) as Hexec.
  pose proof (fresh_name_differs st d n dss Hlook Hfresh) as Hdiff.
  set (st1 := clone_store st d n) in *.
  set (v := λ r, MpiDataset.init out {| Get_rank := r; Get_size := P |}).
  set (cont := λ (r : nat) (o : bDataset),
         transform_at P d o func (chunk_contents dss)
           (λ r, MpiDataset.init o {| Get_rank := r; Get_size := P |}) r 0).
  pose proof (transform_step_ok P d out func st1 dss v HP (or_intror Hdiff)
                eq_refl Hd Hwf Hfunc Hinj) as Hstep.
  pose proof (λ r (_ : r < P), transform_last_ok P d out func dss v r) as Hlast.
  set (M := λ r, 2 * range_len r (bd_total_chunks d) P).
  set (Sinv := transform_rel P d out func st1 (chunk_contents dss)).
  set (After := phase_inv P M (transform_at P d out func (chunk_contents dss) v) v
                  Sinv).
  assert (g0 = ((λ r, clone_then d (PStr n) (cont r) r) <$> seq 0 P, st)) as Hg0.
  { subst g0. unfold spmd. f_equal. apply list_fmap_ext. intros i r _.
    by apply map_is_clone_then. }
  assert (lookup_ds st1 d = Some dss) as Hlook1.
  { unfold lookup_ds. subst st1. rewrite clone_store_ds_at_other; [done|].
    intros Heq. apply Hdiff. by rewrite Heq. }
  assert (After ((λ r, cont r (renamed d n)) <$> seq 0 P, st1)) as Hinit.
  { left. exists (replicate P 0).
    split; [by rewrite length_replicate|]. split.
    { intros r m [-> _]%lookup_replicate. lia. }
    split.
    - cbn [fst]. apply list_eq. intros r.
      rewrite list_lookup_fmap, list_lookup_imap.
      destruct (decide (r < P)).
      + by rewrite lookup_seq_lt, lookup_replicate_2 by done.
      + rewrite lookup_seq_ge by lia.
        assert (replicate P 0 !! r = None) as ->
          by (apply lookup_replicate_None; lia).
        done.
    - split; [done|].
      exists dss, {| dss_handle := out; dss_chunks := ∅ |}.
      split; [done|]. split; [by eapply clone_store_lookup_new|].
      split; [done|]. split; [apply map_Forall_empty|].
      intros k Hk. unfold written.
      destruct (replicate P 0 !! (k mod P)) as [m|] eqn:Hm; [|done].
      apply lookup_replicate in Hm as [-> _].
      by destruct (Nat.leb_spec (2 * (k / P) + 2) 0); [lia|]. }
  assert (∀ r g, After g → After (gstep r g)) as Hafter
    by (intros r g; by apply phase_step).
  assert (∀ ms st2, Sinv ms st2 → lookup_ds st2 d = Some dss) as Hsrc.
  { intros ms st2 [Hframe _]. unfold lookup_ds in *. rewrite Hframe; [done|].
    intros Heq. apply Hdiff. by rewrite Heq. }
  rewrite Hg0.
  destruct (clone_inv_run P d n st cont After HP Hexec Hafter Hinit sched)
    as [Hg|[Hg|Hph]].
  - rewrite Hg. split; [done|]. intros r w Hret. exfalso. cbn [fst] in Hret.
    apply ranks_lookup_Some in Hret as [? Hret]. unfold clone_then in Hret.
    by destruct (r =? 0).
  - rewrite Hg. split; [done|]. intros r w Hret. exfalso. cbn [fst] in Hret.
    by apply ranks_lookup_Some in Hret as [? Hret].
  - split.
    + destruct Hph as [(ms & _ & _ & _ & HS)|[_ HS]]; by apply (Hsrc _ _ HS).
    + intros r w Hret.
      destruct (phase_cases P M _ v Sinv _ Hstep Hlast Hph) as [Hact|[Hps Hrel]].
      { by pose proof (forallb_lookup _ _ _ _ Hact Hret). }
      rewrite Hps in Hret. apply ranks_lookup_Some in Hret as [? Hret].
      split; [by injection Hret|].
      by apply (transform_final P d out func st1 dss HP) in Hrel as [_ Hout].
Qed.

(** C5: for every shape-preserving [func] and every output name, when every
    rank of a group calls [map]: under every schedule and at every moment
    the source dataset is stored exactly as it was; and whenever a rank has
    returned, what it returned is the handle of the new dataset under that
    name, which has the source's chunk count and whose every chunk holds
    [func] of the corresponding source chunk.  With a name new to the pool
    every schedule under which all ranks stop ends with every rank returned,
    and some schedule brings all ranks to return. *)
Theorem map_is_pure `{Bounds} (P : nat) (d : bDataset) (func : ndarray → ndarray)
    (st : Store) (dss : DsState) (output_name : pyval) :
  0 < P → lookup_ds st d = Some dss → dss_handle dss = d → chunks_wf dss →
  handle_ok d = true → (∀ a, shape (func a) = shape a) → flat_injective d = true →
  let g0 := (spmd P (λ comm, MpiDataset.map (MpiDataset.init d comm) func
                               output_name), st) in
  (∀ sched, lookup_ds (grun sched g0).2 d = Some dss)
  ∧ (∀ sched r w,
       (grun sched g0).1 !! r = Some (Ret w) →
       ∃ n dss_o,
         output_name = PStr n
         ∧ w = MpiDataset.init (renamed d n) {| Get_rank := r; Get_size := P |}
         ∧ lookup_ds (grun sched g0).2 (renamed d n) = Some dss_o
         ∧ dss_handle dss_o = renamed d n
         ∧ bd_total_chunks (renamed d n) = bd_total_chunks d
         ∧ ∀ k, k < bd_total_chunks d →
                chunk_contents dss_o (idx_from_flat d k)
                = func (chunk_contents dss (idx_from_flat d k)))
  ∧ (∀ n, output_name = PStr n → ds_at st (bp_name (bd_pool d)) n = None →
          let rets := (λ r, Ret (MpiDataset.init (renamed d n)
                                   {| Get_rank := r; Get_size := P |}))
                        <$> seq 0 P in
          (∀ sched, forallb stopped (grun sched g0).1 = true →
                    (grun sched g0).1 = rets)
          ∧ (∃ sched, (grun sched g0).1 = rets)).
Proof.
  intros HP Hlook Hd Hwf Hok Hfunc Hinj g0.
  assert ((∃ n, output_name = PStr n ∧ ds_at st (bp_name (bd_pool d)) n = None)
          ∨ (∀ n, output_name = PStr n → ds_at st (bp_name (bd_pool d)) n ≠ None))
    as [(n & -> & Hfresh)|Hused].
  { destruct output_name as [|z|n|t|a]; try (by right).
    destruct (ds_at st (bp_name (bd_pool d)) n) eqn:Hn; [right|left; by exists n].
    intros n' [= <-]. by rewrite Hn. }
  - split; [|split].
    + intros sched.
      by destruct (map_group_states P d n func st dss sched
                     HP Hlook Hd Hwf Hok Hfresh Hfunc Hinj) as [? _].
    + intros sched r w Hret.
      destruct (map_group_states P d n func st dss sched
                  HP Hlook Hd Hwf Hok Hfresh Hfunc Hinj) as [_ Hall].
      destruct (Hall r w Hret) as (Hw & dss_o & Ho & Hh & Hk).
      by exists n, dss_o.
    + intros n' [= <-] _ rets.
      destruct (map_group P d n func st dss HP Hlook Hd Hwf Hok Hfresh Hfunc Hinj)
        as [Hall Hlive].
      split; [|exact Hlive]. intros sched Hstop. by destruct (Hall sched Hstop).
  - set (cont := λ (r : nat) (out : bDataset),
           transform_at P d out func (chunk_contents dss)
             (λ r, MpiDataset.init out {| Get_rank := r; Get_size := P |}) r 0).
    assert (g0 = ((λ r, clone_then d output_name (cont r) r) <$> seq 0 P, st)) as Hg0.
    { subst g0. unfold spmd. f_equal. apply ranks_ext. intros r _.
      by apply map_is_clone_then. }
    rewrite Hg0. split; [|split].
    + intros sched.
      destruct (clone_then_refused P d output_name cont st dss sched HP Hlook Hused)
        as (-> & _). done.
    + intros sched r w Hret. exfalso.
      by destruct (clone_then_refused P d output_name cont st dss sched HP Hlook
                     Hused) as (_ & Hnoret & _); destruct (Hnoret r w).
    + intros n Hn Hfresh. by destruct (Hused n Hn).
Qed.

Lemma map_is_pure_witness :
  (∃ sched,
     (grun sched
        (spmd 2 (λ comm, MpiDataset.map (H := grid_bounds)
                           (MpiDataset.init ex_ds comm) incr (PStr "out")),
         ex_store)).1
     = (λ r, Ret (MpiDataset.init (renamed ex_ds "out")
                    {| Get_rank := r; Get_size := 2 |})) <$> seq 0 2)
  ∧ lookup_ds
      (grun [0; 1; 0; 1]
         (spmd 2 (λ comm, MpiDataset.map (H := grid_bounds)
                            (MpiDataset.init ex_ds comm) incr (PStr "ragged")),
          ex_store)).2 ex_ds
    = Some ex_dss.
Proof.
  split.
  - pose proof (map_is_pure (H := grid_bounds) 2 ex_ds incr ex_store ex_dss
                  (PStr "out")) as Hmap.
    destruct Hmap as (_ & _ & Hfresh).
    + lia.
    + vm_compute. reflexivity.
    + reflexivity.
    + apply map_Forall_empty.
    + vm_compute. reflexivity.
    + reflexivity.
    + vm_compute. reflexivity.
    + destruct (Hfresh "out" eq_refl) as [_ Hlive]; [vm_compute; reflexivity|].
      exact Hlive.
  - pose proof (map_is_pure (H := grid_bounds) 2 ex_ds incr ex_store ex_dss
                  (PStr "ragged")) as Hmap.
    destruct Hmap as (Hsrc & _).
    + lia.
    + vm_compute. reflexivity.
    + reflexivity.
    + apply map_Forall_empty.
    + vm_compute. reflexivity.
    + reflexivity.
    + vm_compute. reflexivity.
    + exact (Hsrc [0; 1; 0; 1]).
Defined.
